(** * Storage abstraction of the LMS platform: adapters, factory, CDN service

    A shallow embedding of
      - [server/services/storage/LocalStorageAdapter.ts]
      - [server/services/storage/CloudFlareR2Adapter.ts]
      - [server/services/storage/S3CloudFrontAdapter.ts]
      - [server/services/storage/StorageFactory.ts]
      - [server/services/assetService.ts] (the adapter accessor)
      - [server/services/cdnService.ts]
    and the properties of the storage specification stated over it. *)

From Stdlib Require Import Ascii String.
From stdpp Require Import base option list strings pretty gmap.

Local Open Scope string_scope.
Local Open Scope list_scope.
Local Open Scope nat_scope.

(** ** JavaScript strings

    The regular expressions and template literals of the sources only look
    at ASCII characters, so a JavaScript string is a [string]. *)

Module JS.

(** Truthiness of a [string | undefined] value, as tested by [!value],
    [a || b] and [if (value)]: [undefined] and the empty string are
    falsy. *)
Definition truthy (v : option string) : bool :=
  match v with
  | Some (String _ _) => true
  | Some EmptyString | None => false
  end.

(** [a || b] on [string | undefined] with a string default. *)
Definition or_else (v : option string) (d : string) : string :=
  match v with
  | Some (String c s) => String c s
  | Some EmptyString | None => d
  end.

(** Truthiness of a string: only the empty string is falsy. *)
Definition nonEmpty (s : string) : bool :=
  match s with
  | EmptyString => false
  | String _ _ => true
  end.

(** [s.startsWith(p)]. *)
Fixpoint startsWith (p s : string) : bool :=
  match p, s with
  | EmptyString, _ => true
  | String _ _, EmptyString => false
  | String a p', String b s' => Ascii.eqb a b && startsWith p' s'
  end.

(** [s.includes(sub)]: [sub] occurs at some position of [s]. *)
Fixpoint includes (sub s : string) : bool :=
  startsWith sub s ||
  match s with
  | EmptyString => false
  | String _ rest => includes sub rest
  end.

(** [s.replace(/\.\./g, '')]: every match of two consecutive dots is
    removed, scanning left to right; the scan resumes after a match, so
    matches do not overlap and the output is not rescanned. *)
Fixpoint removeDotDot (s : string) : string :=
  match s with
  | EmptyString => EmptyString
  | String c rest =>
      match rest with
      | EmptyString => String c EmptyString
      | String d rest' =>
          if Ascii.eqb c "." && Ascii.eqb d "."
          then removeDotDot rest'
          else String c (removeDotDot rest)
      end
  end.

(** [s.replace(/^\/+/, '')]: the maximal run of slashes at the start of
    the string is removed. *)
Fixpoint stripLeadingSlashes (s : string) : string :=
  match s with
  | EmptyString => EmptyString
  | String c rest =>
      if Ascii.eqb c "/" then stripLeadingSlashes rest else String c rest
  end.

(** [parts.join(sep)]. *)
Definition join (sep : string) (parts : list string) : string :=
  String.concat sep parts.

(** [s.split('/')]: the segments between the slashes; a string without a
    slash is its own single segment, and the empty string gives [['']]. *)
Fixpoint splitSlash (s : string) : list string :=
  match s with
  | EmptyString => [EmptyString]
  | String c rest =>
      if Ascii.eqb c "/" then EmptyString :: splitSlash rest
      else match splitSlash rest with
           | seg :: segs => String c seg :: segs
           | [] => [String c EmptyString]
           end
  end.

(** [s.toLowerCase()] on the characters the sources compare: the letters A
    to Z are mapped, every other character is kept. *)
Definition lowerChar (c : ascii) : ascii :=
  let n := N_of_ascii c in
  if (65 <=? n)%N && (n <=? 90)%N then ascii_of_N (n + 32) else c.

Fixpoint mapChars (f : ascii → ascii) (s : string) : string :=
  match s with
  | EmptyString => EmptyString
  | String c rest => String (f c) (mapChars f rest)
  end.

Definition toLowerCase (s : string) : string := mapChars lowerChar s.

(** [s.slice(from, to)] for [0 <= from <= to]. *)
Definition slice (from to : nat) (s : string) : string :=
  String.substring from (to - from) s.

End JS.

(** ** Node's [path] module (POSIX flavour)

    [path.join] and [path.dirname] are library functions; they are modelled
    here after Node's [lib/path.js]: [join] glues its non-empty arguments
    with a slash and normalises the result, and normalisation works segment
    by segment. *)

Module Path.

Definition isAbsolute (p : string) : bool := JS.startsWith "/" p.

(** One step of [normalizeString]: [stack] holds the segments kept so
    far, last one first. *)
Definition pushSegment (allowAboveRoot : bool) (stack : list string)
    (seg : string) : list string :=
  if String.eqb seg "" || String.eqb seg "." then stack
  else if String.eqb seg ".." then
    match stack with
    | top :: below =>
        if String.eqb top ".." then seg :: stack else below
    | [] => if allowAboveRoot then [seg] else []
    end
  else seg :: stack.

Definition normalizeSegments (allowAboveRoot : bool) (segs : list string)
    : list string :=
  rev (fold_left (pushSegment allowAboveRoot) segs []).

(** The segments a path resolves to. *)
Definition resolved (p : string) : list string :=
  normalizeSegments (negb (isAbsolute p)) (JS.splitSlash p).

Definition endsWithSlash (p : string) : bool :=
  match rev (JS.splitSlash p) with
  | EmptyString :: _ :: _ => true
  | _ => false
  end.

(** [path.normalize(p)]. *)
Definition normalize (p : string) : string :=
  match p with
  | EmptyString => "."
  | _ =>
      let body := JS.join "/" (resolved p) in
      match body with
      | EmptyString =>
          if isAbsolute p then "/"
          else if endsWithSlash p then "./" else "."
      | _ =>
          let body' := if endsWithSlash p then body +:+ "/" else body in
          if isAbsolute p then "/" +:+ body' else body'
      end
  end.

(** [path.join(...parts)]: empty arguments are skipped, the others are
    glued with a slash and the result is normalised. *)
Definition join (parts : list string) : string :=
  match filter (λ part, part ≠ "") parts with
  | [] => "."
  | kept => normalize (JS.join "/" kept)
  end.

(** [path.dirname(p)]: trailing slashes are skipped, then the last
    segment, and what lies before the slash in front of it is returned.
    The scan runs over the characters after the first one, last
    character first. *)
Fixpoint dropSlashes (r : string) : string :=
  match r with
  | String c rest => if Ascii.eqb c "/" then dropSlashes rest else r
  | EmptyString => EmptyString
  end.

Fixpoint dropSegment (r : string) : string :=
  match r with
  | String c rest => if Ascii.eqb c "/" then r else dropSegment rest
  | EmptyString => EmptyString
  end.

Definition dirname (p : string) : string :=
  match p with
  | EmptyString => "."
  | String c0 tail =>
      match dropSegment (dropSlashes (String.rev tail)) with
      | EmptyString => if isAbsolute p then "/" else "."
      | String _ before =>
          match before with
          | EmptyString => if isAbsolute p then "//" else String c0 ""
          | _ => String c0 (String.rev before)
          end
      end
  end.

(** [inside root p]: the path [p] denotes [root] itself or a file below
    it, that is, the segments of [root] are a prefix of those of [p]. *)
Definition inside (root p : string) : bool :=
  Bool.eqb (isAbsolute root) (isAbsolute p) &&
  bool_decide (resolved root `prefix_of` resolved p).

(** [path.extname(p)], after Node's [lib/path.js]: the path is scanned
    from its last character to its first, up to the slash that starts the
    last segment; the extension runs from the last dot of that segment to
    its end, unless the segment has no dot, starts with its only dot, or
    is [..]. *)
Record ExtScan : Type := {
  startDot : option nat;       (* -1 when [None] *)
  startPart : nat;
  endAt : option nat;          (* -1 when [None] *)
  matchedSlash : bool;
  preDotState : Z;
  broke : bool;                (* the loop was left by [break] *)
}.

Definition extScanStart : ExtScan :=
  {| startDot := None; startPart := 0; endAt := None; matchedSlash := true;
     preDotState := 0; broke := false |}.

(** One turn of the loop, at index [i] with character [code]. *)
Definition extScanStep (i : nat) (code : ascii) (st : ExtScan) : ExtScan :=
  if broke st then st
  else if Ascii.eqb code "/" then
    if negb (matchedSlash st) then
      {| startDot := startDot st; startPart := i + 1; endAt := endAt st;
         matchedSlash := matchedSlash st; preDotState := preDotState st;
         broke := true |}
    else st
  else
    let st1 :=
      match endAt st with
      | None =>
          {| startDot := startDot st; startPart := startPart st;
             endAt := Some (i + 1); matchedSlash := false;
             preDotState := preDotState st; broke := false |}
      | Some _ => st
      end in
    if Ascii.eqb code "." then
      match startDot st1 with
      | None =>
          {| startDot := Some i; startPart := startPart st1;
             endAt := endAt st1; matchedSlash := matchedSlash st1;
             preDotState := preDotState st1; broke := false |}
      | Some _ =>
          if negb (Z.eqb (preDotState st1) 1) then
            {| startDot := startDot st1; startPart := startPart st1;
               endAt := endAt st1; matchedSlash := matchedSlash st1;
               preDotState := 1; broke := false |}
          else st1
      end
    else
      match startDot st1 with
      | Some _ =>
          {| startDot := startDot st1; startPart := startPart st1;
             endAt := endAt st1; matchedSlash := matchedSlash st1;
             preDotState := (-1)%Z; broke := false |}
      | None => st1
      end.

(** The loop over the characters, last one first; the index of a character
    is the number of characters before it. *)
Fixpoint extScan (reversed : list ascii) (st : ExtScan) : ExtScan :=
  match reversed with
  | [] => st
  | code :: before => extScan before (extScanStep (length before) code st)
  end.

Definition extname (p : string) : string :=
  let st := extScan (rev (list_ascii_of_string p)) extScanStart in
  match startDot st, endAt st with
  | Some dot, Some stop =>
      if Z.eqb (preDotState st) 0
         || (Z.eqb (preDotState st) 1 && Nat.eqb dot (stop - 1)
             && Nat.eqb dot (startPart st + 1))
      then ""
      else JS.slice dot stop p
  | _, _ => ""
  end.

End Path.

(** ** Effects

    The services are asynchronous code over the filesystem, the network and
    the console.  A computation is run from the number of objects allocated
    so far; it returns or throws, emits the events it performed in order,
    and gives the new allocation count. *)

(** A thrown value: an [Error] object with its message, or anything else. *)
Inductive Exn : Type :=
  | Error (message : string)
  | NonError (value : string).

Global Instance Exn_eq_dec : EqDecision Exn.
Proof. solve_decision. Defined.

Inductive Outcome (A : Type) : Type :=
  | Returned (a : A)
  | Thrown (e : Exn).
Arguments Returned {A} a.
Arguments Thrown {A} e.

Definition Buffer : Type := list Byte.byte.

Global Instance byte_eq_dec : EqDecision Byte.byte := Byte.byte_eq_dec.

Inductive ProviderType : Type := local | cloudflare_r2 | s3_cloudfront.

Global Instance ProviderType_eq_dec : EqDecision ProviderType.
Proof. solve_decision. Defined.

Inductive FsCall : Type :=
  | Mkdir (p : string)
  | CopyFile (src dst : string)
  | Stat (p : string)
  | WriteFile (p : string) (data : Buffer)
  | Unlink (p : string).

Inductive NetCall : Type :=
  | HeadBucket (bucket : string)
  | ZonePurge (zoneId : string) (urls : list string)
  | CreateInvalidation (distributionId : string) (paths : list string).

Inductive Level : Type := LogLevel | WarnLevel | ErrorLevel.

Inductive Event : Type :=
  | Console (level : Level) (msg : string) (arg : option string)
  | Fs (c : FsCall)
  | Net (c : NetCall)
  | Import (package : string)
  | New (class : ProviderType) (ref : nat)
  | Invoke_purgeCdnCache (ref : nat) (keys : list string).

Global Instance FsCall_eq_dec : EqDecision FsCall.
Proof. solve_decision. Defined.
Global Instance NetCall_eq_dec : EqDecision NetCall.
Proof. solve_decision. Defined.
Global Instance Level_eq_dec : EqDecision Level.
Proof. solve_decision. Defined.
Global Instance Event_eq_dec : EqDecision Event.
Proof. solve_decision. Defined.

Definition IO (A : Type) : Type := nat → Outcome A * list Event * nat.

Global Instance IO_ret : MRet IO := λ A a n, (Returned a, [], n).

Global Instance IO_bind : MBind IO := λ A B k m n,
  match m n with
  | (Returned a, evs, n') =>
      match k a n' with
      | (o, evs', n'') => (o, evs ++ evs', n'')
      end
  | (Thrown e, evs, n') => (Thrown e, evs, n')
  end.

Definition throw {A} (e : Exn) : IO A := λ n, (Thrown e, [], n).

Definition emit (ev : Event) : IO unit := λ n, (Returned (), [ev], n).

(** [try { body } catch (error) { handler error }]. *)
Definition try_catch {A} (body : IO A) (handler : Exn → IO A) : IO A :=
  λ n,
    match body n with
    | (Returned a, evs, n') => (Returned a, evs, n')
    | (Thrown e, evs, n') =>
        match handler e n' with
        | (o, evs', n'') => (o, evs ++ evs', n'')
        end
    end.

(** [new C(...)]: the object gets the next free address. *)
Definition alloc (class : ProviderType) : IO nat :=
  λ n, (Returned n, [New class n], S n).

Definition console_log (msg : string) : IO unit :=
  emit (Console LogLevel msg None).
Definition console_warn (msg : string) : IO unit :=
  emit (Console WarnLevel msg None).
Definition console_error (msg : string) (arg : option string) : IO unit :=
  emit (Console ErrorLevel msg arg).

(** How the console shows a thrown value passed as an extra argument. *)
Definition shown (e : Exn) : option string :=
  match e with
  | Error message => Some ("Error: " +:+ message)
  | NonError value => Some value
  end.

(** ** The world outside the process

    What the environment, the filesystem, the network and the database
    answer.  Every operation takes the world it runs in, so that two calls
    may see different answers. *)

Record Course : Type := { storageKey : option string }.

Inductive FetchOutcome : Type :=
  | FetchRejects (e : Exn)
  | FetchResponds (ok : bool) (text : Outcome string).

Record World : Type := {
  env : gmap string string;            (* process.env *)
  cwd : Outcome string;                (* process.cwd(), which throws when
                                          the working directory is gone *)
  now : N;                             (* Date.now() *)
  fsError : FsCall → option Exn;       (* the error a filesystem call throws *)
  statSize : string → N;               (* fs.stat(p).size *)
  statMtime : string → N;              (* fs.stat(p).mtime.getTime() *)
  importError : string → option Exn;   (* a failing dynamic import *)
  headBucketError : option Exn;        (* HeadBucketCommand failing *)
  zonePurge : FetchOutcome;            (* the zone purge_cache request *)
  invalidationError : option Exn;      (* CreateInvalidationCommand failing *)
  getCourse : string → Outcome (option Course);  (* storage.getCourse *)
}.

Definition fs (w : World) (c : FsCall) : IO unit :=
  emit (Fs c);;
  match fsError w c with
  | Some e => throw e
  | None => mret ()
  end.

(** [process.cwd()]. *)
Definition process_cwd (w : World) : IO string :=
  match cwd w with
  | Returned dir => mret dir
  | Thrown e => throw e
  end.

Definition import (w : World) (package : string) : IO unit :=
  emit (Import package);;
  match importError w package with
  | Some e => throw e
  | None => mret ()
  end.

(** ** The capability contract

    [StorageAdapter.ts]: the members of the interface that the factory and
    the CDN service use.  [ref] is the identity of the object: two adapters
    are the same instance when they are equal, [ref] included. *)

Record UploadResult : Type := {
  key : string;
  url : string;
  size : N;
  etag : option string;
}.

Module StorageAdapter.

Record t : Type := {
  ref : nat;
  type : ProviderType;
  cdnEnabled : bool;
  getPublicUrl : string → string;
  healthCheck : World → IO bool;
  purgeCdnCache : World → list string → IO bool;
}.

End StorageAdapter.

(** ** [LocalStorageAdapter.ts] *)

Module LocalStorageAdapter.

Record t : Type := { uploadsDir : string; baseUrl : string }.

(** The constructor.  [uploadsDir || path.join(process.cwd(), ...)] reads
    the working directory only when no directory is given, and throws
    what [process.cwd()] throws. *)
Definition new (w : World) (uploadsDir' baseUrl' : option string) : IO t :=
  uploadsDir ← match uploadsDir' with
               | Some (String c dir) => mret (String c dir)
               | Some EmptyString | None =>
                   cwd ← process_cwd w;
                   mret (Path.join [cwd; "uploads"; "courses"])
               end;
  mret {| uploadsDir := uploadsDir;
          baseUrl :=
            JS.or_else baseUrl' (JS.or_else (env w !! "PUBLIC_DOMAIN") "") |}.

Definition ensureDirectory (this : t) (w : World) : IO unit :=
  try_catch (fs w (Mkdir (uploadsDir this)))
    (λ error,
       console_error "Failed to create uploads directory:" (shown error);;
       throw error).

(** [destinationKey.replace(/\.\./g, '').replace(/^\/+/, '')]. *)
Definition safeKey (destinationKey : string) : string :=
  JS.stripLeadingSlashes (JS.removeDotDot destinationKey).

Definition getPublicUrl (this : t) (key : string) : string :=
  if JS.nonEmpty (baseUrl this)
  then baseUrl this +:+ "/uploads/courses/" +:+ key
  else "/uploads/courses/" +:+ key.

Definition uploadFile (this : t) (w : World)
    (filePath destinationKey : string) : IO UploadResult :=
  ensureDirectory this w;;
  let safeKey := safeKey destinationKey in
  let destinationPath := Path.join [uploadsDir this; safeKey] in
  let destinationDir := Path.dirname destinationPath in
  fs w (Mkdir destinationDir);;
  fs w (CopyFile filePath destinationPath);;
  fs w (Stat destinationPath);;
  mret {| key := safeKey;
          url := getPublicUrl this safeKey;
          size := statSize w destinationPath;
          etag := Some (pretty (statMtime w destinationPath) +:+ "-"
                        +:+ pretty (statSize w destinationPath)) |}.

Definition uploadBuffer (this : t) (w : World)
    (buffer : Buffer) (destinationKey : string) : IO UploadResult :=
  ensureDirectory this w;;
  let safeKey := safeKey destinationKey in
  let destinationPath := Path.join [uploadsDir this; safeKey] in
  let destinationDir := Path.dirname destinationPath in
  fs w (Mkdir destinationDir);;
  fs w (WriteFile destinationPath buffer);;
  mret {| key := safeKey;
          url := getPublicUrl this safeKey;
          size := N.of_nat (length buffer);
          etag := Some (pretty (now w) +:+ "-"
                        +:+ pretty (length buffer)) |}.

Definition deleteFile (this : t) (w : World) (key : string) : IO bool :=
  try_catch
    (let filePath := Path.join [uploadsDir this; key] in
     fs w (Unlink filePath);;
     mret true)
    (λ error,
       console_error ("Failed to delete file " +:+ key +:+ ":") (shown error);;
       mret false).

Fixpoint deleteFiles_from (this : t) (w : World) (keys : list string)
    (deletedCount : nat) : IO nat :=
  match keys with
  | [] => mret deletedCount
  | key :: keys' =>
      success ← deleteFile this w key;
      deleteFiles_from this w keys'
        (if success : bool then S deletedCount else deletedCount)
  end.

Definition deleteFiles (this : t) (w : World) (keys : list string)
    : IO nat :=
  deleteFiles_from this w keys 0.

Definition getSignedUrl (this : t) (key : string) : IO string :=
  console_warn
    "Signed URLs not supported for local storage, returning public URL";;
  mret (getPublicUrl this key).

Definition healthCheck (this : t) (w : World) : IO bool :=
  try_catch
    (ensureDirectory this w;;
     let testFile := Path.join [uploadsDir this; ".health-check"] in
     fs w (WriteFile testFile [Byte.x6f; Byte.x6b]);;
     fs w (Unlink testFile);;
     mret true)
    (λ error,
       console_error "Local storage health check failed:" (shown error);;
       mret false).

Definition purgeCdnCache (this : t) (w : World) (keys : list string)
    : IO bool :=
  mret true.

Definition getAbsolutePath (this : t) (key : string) : string :=
  Path.join [uploadsDir this; key].

(** The object as seen through the interface. *)
Definition adapter (this : t) (ref : nat) : StorageAdapter.t :=
  {| StorageAdapter.ref := ref;
     StorageAdapter.type := local;
     StorageAdapter.cdnEnabled := false;
     StorageAdapter.getPublicUrl := getPublicUrl this;
     StorageAdapter.healthCheck := healthCheck this;
     StorageAdapter.purgeCdnCache := purgeCdnCache this |}.

End LocalStorageAdapter.

(** ** [CloudFlareR2Adapter.ts] *)

Module CloudFlareR2Adapter.

Record t : Type := {
  accountId : string;
  accessKeyId : string;
  secretAccessKey : string;
  bucketName : string;
  cdnDomain : string;
  region : string;
}.

Definition new (accountId accessKeyId secretAccessKey bucketName
    cdnDomain : string) (region : option string) : t :=
  {| accountId := accountId;
     accessKeyId := accessKeyId;
     secretAccessKey := secretAccessKey;
     bucketName := bucketName;
     cdnDomain := cdnDomain;
     region := JS.or_else region "auto" |}.

Definition getS3Client (this : t) (w : World) : IO unit :=
  import w "@aws-sdk/client-s3".

Definition getPublicUrl (this : t) (key : string) : string :=
  "https://" +:+ cdnDomain this +:+ "/" +:+ key.

Definition healthCheck (this : t) (w : World) : IO bool :=
  try_catch
    (import w "@aws-sdk/client-s3";;
     getS3Client this w;;
     emit (Net (HeadBucket (bucketName this)));;
     match headBucketError w with
     | Some e => throw e
     | None => mret true
     end)
    (λ error,
       console_error "CloudFlare R2 health check failed:" (shown error);;
       mret false).

Definition purgeCdnCache (this : t) (w : World) (keys : list string)
    : IO bool :=
  try_catch
    (let zoneId := env w !! "CLOUDFLARE_ZONE_ID" in
     let apiToken := env w !! "CLOUDFLARE_API_TOKEN" in
     if negb (JS.truthy zoneId) || negb (JS.truthy apiToken) then
       console_warn
         "CloudFlare Zone ID or API Token not configured, skipping cache purge";;
       mret false
     else
       let urls := map (getPublicUrl this) keys in
       emit (Net (ZonePurge (default "" zoneId) urls));;
       match zonePurge w with
       | FetchRejects e => throw e
       | FetchResponds ok text =>
           if negb ok then
             body ← match text with
                    | Returned body => mret body
                    | Thrown e => throw e
                    end;
             console_error "CloudFlare cache purge failed:" (Some body);;
             mret false
           else
             console_log ("Successfully purged " +:+ pretty (length urls)
                          +:+ " files from CloudFlare CDN cache");;
             mret true
       end)
    (λ error,
       console_error "Failed to purge CloudFlare CDN cache:" (shown error);;
       mret false).

Definition adapter (this : t) (ref : nat) : StorageAdapter.t :=
  {| StorageAdapter.ref := ref;
     StorageAdapter.type := cloudflare_r2;
     StorageAdapter.cdnEnabled := true;
     StorageAdapter.getPublicUrl := getPublicUrl this;
     StorageAdapter.healthCheck := healthCheck this;
     StorageAdapter.purgeCdnCache := purgeCdnCache this |}.

End CloudFlareR2Adapter.

(** ** [S3CloudFrontAdapter.ts] *)

Module S3CloudFrontAdapter.

Record t : Type := {
  region : string;
  accessKeyId : string;
  secretAccessKey : string;
  bucketName : string;
  cloudFrontDomain : string;
  cloudFrontDistributionId : option string;
}.

Definition getS3Client (this : t) (w : World) : IO unit :=
  import w "@aws-sdk/client-s3".

Definition getCloudFrontClient (this : t) (w : World) : IO unit :=
  import w "@aws-sdk/client-cloudfront".

Definition getPublicUrl (this : t) (key : string) : string :=
  "https://" +:+ cloudFrontDomain this +:+ "/" +:+ key.

Definition healthCheck (this : t) (w : World) : IO bool :=
  try_catch
    (import w "@aws-sdk/client-s3";;
     getS3Client this w;;
     emit (Net (HeadBucket (bucketName this)));;
     match headBucketError w with
     | Some e => throw e
     | None => mret true
     end)
    (λ error,
       console_error "AWS S3 health check failed:" (shown error);;
       mret false).

Definition purgeCdnCache (this : t) (w : World) (keys : list string)
    : IO bool :=
  try_catch
    (if negb (JS.truthy (cloudFrontDistributionId this)) then
       console_warn
         "CloudFront Distribution ID not configured, skipping cache purge";;
       mret false
     else
       import w "@aws-sdk/client-cloudfront";;
       getCloudFrontClient this w;;
       let paths := map (λ key, "/" +:+ key) keys in
       emit (Net (CreateInvalidation
                    (default "" (cloudFrontDistributionId this)) paths));;
       match invalidationError w with
       | Some e => throw e
       | None =>
           console_log ("Successfully created CloudFront invalidation for "
                        +:+ pretty (length paths) +:+ " paths");;
           mret true
       end)
    (λ error,
       console_error "Failed to create CloudFront invalidation:" (shown error);;
       mret false).

Definition adapter (this : t) (ref : nat) : StorageAdapter.t :=
  {| StorageAdapter.ref := ref;
     StorageAdapter.type := s3_cloudfront;
     StorageAdapter.cdnEnabled := true;
     StorageAdapter.getPublicUrl := getPublicUrl this;
     StorageAdapter.healthCheck := healthCheck this;
     StorageAdapter.purgeCdnCache := purgeCdnCache this |}.

End S3CloudFrontAdapter.

(** ** [StorageFactory.ts] *)

Module StorageFactory.

(** A promise returned by [createAdapter()]: its number and what it
    settles to.  Whether it has settled yet is kept in the process state,
    since every holder of the promise sees the same answer. *)
Record Promise : Type := {
  number : nat;
  result : Outcome StorageAdapter.t;
}.

(** The process: the two static fields of the class, the number of
    promises made by [createAdapter()], those that have settled, the
    number of objects allocated and the events performed so far. *)
Record State : Type := {
  instance : option StorageAdapter.t;
  initializationPromise : option Promise;
  created : nat;
  settled : gset nat;
  allocated : nat;
  events : list Event;
}.

Definition initial : State :=
  {| instance := None; initializationPromise := None; created := 0;
     settled := ∅; allocated := 0; events := [] |}.

(** Run a computation in the process. *)
Definition runIO {A} (m : IO A) (st : State) : Outcome A * State :=
  match m (allocated st) with
  | (o, evs, n) =>
      (o, {| instance := instance st;
             initializationPromise := initializationPromise st;
             created := created st;
             settled := settled st;
             allocated := n;
             events := events st ++ evs |})
  end.

(** [new LocalStorageAdapter(uploadsDir, baseUrl)]: the object is made,
    then the constructor runs, and may throw. *)
Definition createLocalAdapter (w : World) : IO StorageAdapter.t :=
  let uploadsDir := env w !! "UPLOADS_DIR" in
  let baseUrl := env w !! "PUBLIC_DOMAIN" in
  ref ← alloc local;
  this ← LocalStorageAdapter.new w uploadsDir baseUrl;
  let adapter := LocalStorageAdapter.adapter this ref in
  console_log "✓ Local storage adapter initialized";;
  mret adapter.

(** [Object.entries(config).filter(([_, value]) => !value)
      .map(([key]) => key)]. *)
Definition missingConfig (config : list (string * option string))
    : list string :=
  (filter (λ entry, ¬ JS.truthy entry.2) config).*1.

Definition r2Config (w : World) : list (string * option string) :=
  [ ("accountId", env w !! "CLOUDFLARE_ACCOUNT_ID");
    ("accessKeyId", env w !! "CLOUDFLARE_R2_ACCESS_KEY_ID");
    ("secretAccessKey", env w !! "CLOUDFLARE_R2_SECRET_ACCESS_KEY");
    ("bucketName", env w !! "CLOUDFLARE_R2_BUCKET_NAME");
    ("cdnDomain", env w !! "CLOUDFLARE_R2_CDN_DOMAIN") ].

Definition createCloudFlareR2Adapter (w : World) : IO StorageAdapter.t :=
  let config := r2Config w in
  let missingConfig := missingConfig config in
  if Nat.ltb 0 (length missingConfig) then
    throw (Error ("Missing CloudFlare R2 configuration: "
                  +:+ JS.join ", " missingConfig +:+ ". "
                  +:+ "Please set the required environment variables."))
  else
    ref ← alloc cloudflare_r2;
    let adapter :=
      CloudFlareR2Adapter.adapter
        (CloudFlareR2Adapter.new
           (default "" (env w !! "CLOUDFLARE_ACCOUNT_ID"))
           (default "" (env w !! "CLOUDFLARE_R2_ACCESS_KEY_ID"))
           (default "" (env w !! "CLOUDFLARE_R2_SECRET_ACCESS_KEY"))
           (default "" (env w !! "CLOUDFLARE_R2_BUCKET_NAME"))
           (default "" (env w !! "CLOUDFLARE_R2_CDN_DOMAIN"))
           None) ref in
    isHealthy ← StorageAdapter.healthCheck adapter w;
    if negb isHealthy then
      throw (Error "CloudFlare R2 adapter health check failed")
    else
      console_log "✓ CloudFlare R2 adapter initialized successfully";;
      mret adapter.

(** The distribution identifier is read but not required. *)
Definition s3RequiredConfig (w : World) : list (string * option string) :=
  [ ("region", env w !! "AWS_REGION");
    ("accessKeyId", env w !! "AWS_ACCESS_KEY_ID");
    ("secretAccessKey", env w !! "AWS_SECRET_ACCESS_KEY");
    ("bucketName", env w !! "AWS_S3_BUCKET_NAME");
    ("cloudFrontDomain", env w !! "AWS_CLOUDFRONT_DOMAIN") ].

Definition createS3CloudFrontAdapter (w : World) : IO StorageAdapter.t :=
  let requiredConfig := s3RequiredConfig w in
  let missingConfig := missingConfig requiredConfig in
  if Nat.ltb 0 (length missingConfig) then
    throw (Error ("Missing AWS S3/CloudFront configuration: "
                  +:+ JS.join ", " missingConfig +:+ ". "
                  +:+ "Please set the required environment variables."))
  else
    ref ← alloc s3_cloudfront;
    let adapter :=
      S3CloudFrontAdapter.adapter
        {| S3CloudFrontAdapter.region :=
             default "" (env w !! "AWS_REGION");
           S3CloudFrontAdapter.accessKeyId :=
             default "" (env w !! "AWS_ACCESS_KEY_ID");
           S3CloudFrontAdapter.secretAccessKey :=
             default "" (env w !! "AWS_SECRET_ACCESS_KEY");
           S3CloudFrontAdapter.bucketName :=
             default "" (env w !! "AWS_S3_BUCKET_NAME");
           S3CloudFrontAdapter.cloudFrontDomain :=
             default "" (env w !! "AWS_CLOUDFRONT_DOMAIN");
           S3CloudFrontAdapter.cloudFrontDistributionId :=
             env w !! "AWS_CLOUDFRONT_DISTRIBUTION_ID" |} ref in
    isHealthy ← StorageAdapter.healthCheck adapter w;
    if negb isHealthy then
      throw (Error "AWS S3 adapter health check failed")
    else
      console_log "✓ AWS S3 + CloudFront adapter initialized successfully";;
      mret adapter.

(** [process.env.STORAGE_PROVIDER || 'local']. *)
Definition getConfiguredProvider (w : World) : string :=
  JS.or_else (env w !! "STORAGE_PROVIDER") "local".

(** The [switch (provider)] of [createAdapter]. *)
Definition createByProvider (provider : string) (w : World)
    : IO StorageAdapter.t :=
  if String.eqb provider "cloudflare-r2" then
    createCloudFlareR2Adapter w
  else if String.eqb provider "s3-cloudfront" then
    createS3CloudFrontAdapter w
  else
    createLocalAdapter w.

Definition createAdapter (w : World) : IO StorageAdapter.t :=
  let provider := getConfiguredProvider w in
  console_log ("Initializing storage provider: " +:+ provider);;
  try_catch
    (createByProvider provider w)
    (λ error,
       console_error
         ("Failed to initialize " +:+ provider +:+ " storage adapter:")
         (shown error);;
       console_warn "Falling back to local storage adapter";;
       createLocalAdapter w).

(** *** [getAdapter]

    [getAdapter] is an [async] function with one suspension point, the
    [await] of line 32.  The code before it runs without interruption
    when the function is called ([enter]); the code after it runs when
    the awaited promise has settled ([afterAwait]).  Nothing but
    [createAdapter] itself depends on what [createAdapter] does between
    its own suspension points, so its events are recorded in one piece
    when it is called, and its outcome is what the promise settles to. *)

Inductive Suspension : Type :=
  | ReturnsInstance (a : StorageAdapter.t)  (* return this.instance *)
  | ReturnsPromise (p : Promise)   (* return this.initializationPromise *)
  | Awaits (p : Promise).          (* await this.initializationPromise *)

Definition enter (w : World) (st : State) : Suspension * State :=
  match instance st with
  | Some a => (ReturnsInstance a, st)
  | None =>
      match initializationPromise st with
      | Some p => (ReturnsPromise p, st)
      | None =>
          match createAdapter w (allocated st) with
          | (o, evs, n) =>
              let p := {| number := created st; result := o |} in
              (Awaits p,
               {| instance := None;
                  initializationPromise := Some p;
                  created := S (created st);
                  settled := settled st;
                  allocated := n;
                  events := events st ++ evs |})
          end
      end
  end.

(** [this.instance = <the awaited value>;
    this.initializationPromise = null; return this.instance]: the value
    returned is the one stored on the line before. *)
Definition afterAwait (a : StorageAdapter.t) (st : State)
    : StorageAdapter.t * State :=
  (a, {| instance := Some a;
         initializationPromise := None;
         created := created st;
         settled := settled st;
         allocated := allocated st;
         events := events st |}).

Definition reset (st : State) : State :=
  {| instance := None;
     initializationPromise := None;
     created := created st;
     settled := settled st;
     allocated := allocated st;
     events := events st |}.

(** The promise numbered [p] settles, if it has been made. *)
Definition settle (p : nat) (st : State) : State :=
  {| instance := instance st;
     initializationPromise := initializationPromise st;
     created := created st;
     settled :=
       if bool_decide (p < created st) then {[p]} ∪ settled st
       else settled st;
     allocated := allocated st;
     events := events st |}.

(** The promises made and not settled yet. *)
Definition inFlight (st : State) : list nat :=
  filter (λ p, p ∉ settled st) (seq 0 (created st)).

(** *** One caller at a time

    [await StorageFactory.getAdapter()] when nothing else runs in
    between: the promise the call waits for settles, and the call
    continues. *)
Definition getAdapter (w : World) (st : State)
    : Outcome StorageAdapter.t * State :=
  match enter w st with
  | (ReturnsInstance a, st1) => (Returned a, st1)
  | (ReturnsPromise p, st1) => (result p, settle (number p) st1)
  | (Awaits p, st1) =>
      match result p with
      | Returned a =>
          let '(a', st2) := afterAwait a (settle (number p) st1) in
          (Returned a', st2)
      | Thrown e => (Thrown e, settle (number p) st1)
      end
  end.

(** *** Concurrent callers

    Node runs one piece of code at a time; what varies is the order in
    which callers arrive, promises settle and suspended callers are
    resumed.  A schedule is a list of such actions; an action that is
    not enabled does nothing. *)

Inductive Caller : Type :=
  | Suspended (p : Promise)        (* at the [await] of line 32 *)
  | Following (p : Promise)        (* returned the promise of line 27 *)
  | Fulfilled (a : StorageAdapter.t)
  | Rejected (e : Exn).

Record Machine : Type := {
  process : State;
  callers : list Caller;
}.

Inductive Action : Type :=
  | Call (w : World)       (* somebody calls [getAdapter()] *)
  | Settle (p : nat)       (* the promise numbered [p] settles *)
  | Resume (i : nat)       (* the [i]-th caller gets its answer *)
  | Reset.                 (* somebody calls [reset()] *)

Definition start : Machine := {| process := initial; callers := [] |}.

Definition resume (c : Caller) (st : State) : Caller * State :=
  match c with
  | Suspended p =>
      if bool_decide (number p ∈ settled st) then
        match result p with
        | Returned a =>
            let '(a', st') := afterAwait a st in (Fulfilled a', st')
        | Thrown e => (Rejected e, st)
        end
      else (c, st)
  | Following p =>
      if bool_decide (number p ∈ settled st) then
        match result p with
        | Returned a => (Fulfilled a, st)
        | Thrown e => (Rejected e, st)
        end
      else (c, st)
  | Fulfilled _ | Rejected _ => (c, st)
  end.

Definition step (m : Machine) (act : Action) : Machine :=
  match act with
  | Call w =>
      match enter w (process m) with
      | (ReturnsInstance a, st) =>
          {| process := st; callers := callers m ++ [Fulfilled a] |}
      | (ReturnsPromise p, st) =>
          {| process := st; callers := callers m ++ [Following p] |}
      | (Awaits p, st) =>
          {| process := st; callers := callers m ++ [Suspended p] |}
      end
  | Settle p =>
      {| process := settle p (process m); callers := callers m |}
  | Resume i =>
      match callers m !! i with
      | Some c =>
          let '(c', st) := resume c (process m) in
          {| process := st; callers := <[i := c']> (callers m) |}
      | None => m
      end
  | Reset =>
      {| process := reset (process m); callers := callers m |}
  end.

Definition run (acts : list Action) (m : Machine) : Machine :=
  fold_left step acts m.

Definition isCall (act : Action) : bool :=
  match act with Call _ => true | _ => false end.

Definition isReset (act : Action) : bool :=
  match act with Reset => true | _ => false end.

(** Let everything pending finish: every promise settles and every
    caller is resumed. *)
Definition drain (m : Machine) : list Action :=
  map Settle (seq 0 (created (process m)))
  ++ map Resume (seq 0 (length (callers m))).

Definition isHeadBucket (ev : Event) : bool :=
  match ev with Net (HeadBucket _) => true | _ => false end.

(** How many health probes went out to a bucket. *)
Fixpoint healthChecks (evs : list Event) : nat :=
  match evs with
  | [] => 0
  | ev :: evs' => (if isHeadBucket ev then 1 else 0) + healthChecks evs'
  end.

End StorageFactory.

(** ** [assetService.ts]: how the service gets at the adapter *)

Module AssetService.

(** The one field of the object. *)
Record t : Type := { storageAdapter : option StorageAdapter.t }.

Definition new : t := {| storageAdapter := None |}.

(** [getStorage]: the adapter is asked of the factory when the field is
    still empty, and the field is used from then on. *)
Definition getStorage (this : t) (w : World) (st : StorageFactory.State)
    : Outcome StorageAdapter.t * t * StorageFactory.State :=
  match storageAdapter this with
  | Some a => (Returned a, this, st)
  | None =>
      match StorageFactory.getAdapter w st with
      | (Returned a, st') =>
          (Returned a, {| storageAdapter := Some a |}, st')
      | (Thrown e, st') => (Thrown e, this, st')
      end
  end.

(** [getCourseAssetUrl(storageKey)]. *)
Definition getCourseAssetUrl (this : t) (w : World)
    (st : StorageFactory.State) (storageKey : string)
    : Outcome string * t * StorageFactory.State :=
  match getStorage this w st with
  | (Returned storage, this', st') =>
      (Returned (StorageAdapter.getPublicUrl storage storageKey), this', st')
  | (Thrown e, this', st') => (Thrown e, this', st')
  end.

(** [purgeCdnCache(storageKeys)]. *)
Definition purgeCdnCache (this : t) (w : World)
    (st : StorageFactory.State) (storageKeys : list string)
    : Outcome bool * t * StorageFactory.State :=
  match getStorage this w st with
  | (Returned storage, this', st') =>
      if negb (StorageAdapter.cdnEnabled storage) then
        let '(o, st'') :=
          StorageFactory.runIO
            (console_log "CDN not enabled, skipping cache purge";;
             mret true) st' in
        (o, this', st'')
      else
        let '(o, st'') :=
          StorageFactory.runIO
            (emit (Invoke_purgeCdnCache (StorageAdapter.ref storage)
                     storageKeys);;
             StorageAdapter.purgeCdnCache storage w storageKeys) st' in
        (o, this', st'')
  | (Thrown e, this', st') => (Thrown e, this', st')
  end.

(** The object literal [contentTypes] of [getContentType]. *)
Definition contentTypes : gmap string string :=
  list_to_map
    [ (".html", "text/html"); (".htm", "text/html"); (".css", "text/css");
      (".js", "application/javascript"); (".json", "application/json");
      (".xml", "application/xml"); (".png", "image/png");
      (".jpg", "image/jpeg"); (".jpeg", "image/jpeg"); (".gif", "image/gif");
      (".svg", "image/svg+xml"); (".webp", "image/webp");
      (".mp4", "video/mp4"); (".webm", "video/webm"); (".mp3", "audio/mpeg");
      (".wav", "audio/wav"); (".ogg", "audio/ogg");
      (".pdf", "application/pdf"); (".zip", "application/zip");
      (".txt", "text/plain") ].

Definition getContentType (fileName : string) : string :=
  let ext := JS.toLowerCase (Path.extname fileName) in
  JS.or_else (contentTypes !! ext) "application/octet-stream".

Definition getCacheControl (fileName : string) : string :=
  let ext := JS.toLowerCase (Path.extname fileName) in
  if String.eqb ext ".html" || String.eqb ext ".htm" then
    "public, max-age=3600"
  else
    "public, max-age=31536000, immutable".

(** The answer of [getStorageInfo]. *)
Record StorageInfo : Type := {
  info_type : ProviderType;
  info_cdnEnabled : bool;
  info_healthy : bool;
}.

Definition getStorageInfo (this : t) (w : World) (st : StorageFactory.State)
    : Outcome StorageInfo * t * StorageFactory.State :=
  match getStorage this w st with
  | (Returned storage, this', st') =>
      let '(o, st'') :=
        StorageFactory.runIO
          (healthy ← StorageAdapter.healthCheck storage w;
           mret {| info_type := StorageAdapter.type storage;
                   info_cdnEnabled := StorageAdapter.cdnEnabled storage;
                   info_healthy := healthy |}) st' in
      (o, this', st'')
  | (Thrown e, this', st') => (Thrown e, this', st')
  end.

End AssetService.

(** ** [cdnService.ts] *)

Module CdnService.

Record CdnPurgeOptions : Type := {
  purgeAll : option bool;
  keys : option (list string);
  courseId : option string;
  pattern : option string;
}.

Record CdnPurgeResult : Type := {
  success : bool;
  purgedKeys : list string;
  message : string;
  cdnProvider : option ProviderType;
}.

(** [options.purgeAll] as a condition. *)
Definition flagSet (flag : option bool) : bool :=
  match flag with
  | Some true => true
  | Some false | None => false
  end.

(** [options.keys && options.keys.length > 0]. *)
Definition keysGiven (keys : option (list string)) : bool :=
  match keys with
  | Some ks => Nat.ltb 0 (length ks)
  | None => false
  end.

Definition getCourseAssetKeys (w : World) (courseId : string)
    : IO (list string) :=
  try_catch
    (course ← match getCourse w courseId with
              | Returned course => mret course
              | Thrown e => throw e
              end;
     match course with
     | None =>
         console_warn ("Course " +:+ courseId +:+ " not found");;
         mret []
     | Some course =>
         if JS.truthy (storageKey course) then
           mret [default "" (storageKey course)]
         else
           mret ["courses/" +:+ courseId +:+ "/*"]
     end)
    (λ error,
       console_error
         ("Error getting asset keys for course " +:+ courseId +:+ ":")
         (shown error);;
       mret []).

Definition getKeysByPattern (pattern : string) : IO (list string) :=
  mret [pattern].

(** Lines 72 to 108 of [purgeCache]: what is done with the keys once they
    are known. *)
Definition execute (storageAdapter : StorageAdapter.t) (w : World)
    (keysToPurge : list string) : IO CdnPurgeResult :=
  if Nat.eqb (length keysToPurge) 0 then
    mret {| success := true; purgedKeys := [];
            message := "No keys found to purge"; cdnProvider := None |}
  else
    try_catch
      (emit (Invoke_purgeCdnCache (StorageAdapter.ref storageAdapter)
               keysToPurge);;
       success ← StorageAdapter.purgeCdnCache storageAdapter w keysToPurge;
       if success : bool then
         console_log ("✓ Purged " +:+ pretty (length keysToPurge)
                      +:+ " keys from CDN cache");;
         mret {| success := true;
                 purgedKeys := keysToPurge;
                 message := "Successfully purged "
                            +:+ pretty (length keysToPurge)
                            +:+ " items from CDN cache";
                 cdnProvider := Some (StorageAdapter.type storageAdapter) |}
       else
         mret {| success := false;
                 purgedKeys := [];
                 message := "CDN cache purge failed";
                 cdnProvider := Some (StorageAdapter.type storageAdapter) |})
      (λ error,
         console_error "CDN cache purge error:" (shown error);;
         mret {| success := false;
                 purgedKeys := [];
                 message := match error with
                            | Error message => message
                            | NonError _ =>
                                "Unknown error during cache purge"
                            end;
                 cdnProvider := Some (StorageAdapter.type storageAdapter) |}).

(** [purgeCache] from line 40 on, the adapter in hand. *)
Definition purgeCacheWith (storageAdapter : StorageAdapter.t) (w : World)
    (options : CdnPurgeOptions) : IO CdnPurgeResult :=
  if negb (StorageAdapter.cdnEnabled storageAdapter) then
    mret {| success := true; purgedKeys := [];
            message := "CDN not enabled, no cache to purge";
            cdnProvider := None |}
  else if flagSet (purgeAll options) then
    execute storageAdapter w ["*"]
  else if JS.truthy (courseId options) then
    keysToPurge ← getCourseAssetKeys w (default "" (courseId options));
    execute storageAdapter w keysToPurge
  else if JS.truthy (pattern options) then
    keysToPurge ← getKeysByPattern (default "" (pattern options));
    execute storageAdapter w keysToPurge
  else if keysGiven (keys options) then
    execute storageAdapter w (default [] (keys options))
  else
    mret {| success := false; purgedKeys := [];
            message := "No purge target specified"; cdnProvider := None |}.

Definition purgeCache (w : World) (options : CdnPurgeOptions)
    (st : StorageFactory.State)
    : Outcome CdnPurgeResult * StorageFactory.State :=
  match StorageFactory.getAdapter w st with
  | (Returned storageAdapter, st') =>
      StorageFactory.runIO (purgeCacheWith storageAdapter w options) st'
  | (Thrown e, st') => (Thrown e, st')
  end.

Definition purgeCourseCache (w : World) (courseId : string)
    (st : StorageFactory.State)
    : Outcome CdnPurgeResult * StorageFactory.State :=
  purgeCache w {| purgeAll := None; keys := None;
                  courseId := Some courseId; pattern := None |} st.

(** The calls of the adapter's [purgeCdnCache] among some events, with
    the keys each one received. *)
Definition purgeCalls (evs : list Event) : list (list string) :=
  omap (λ ev, match ev with
              | Invoke_purgeCdnCache _ keys => Some keys
              | _ => None
              end) evs.

(** [urlToStorageKey(url)]: [pathnameOf] stands for [new URL(url).pathname],
    which throws ([None]) when the text is not a URL. *)
Definition urlToStorageKey (pathnameOf : string → option string)
    (url : string) : IO (option string) :=
  match pathnameOf url with
  | Some pathname => mret (Some (JS.stripLeadingSlashes pathname))
  | None =>
      console_error "Invalid URL:" (Some url);;
      mret None
  end.

(** [urls.map(url => this.urlToStorageKey(url))]. *)
Fixpoint urlsToStorageKeys (pathnameOf : string → option string)
    (urls : list string) : IO (list (option string)) :=
  match urls with
  | [] => mret []
  | url :: urls' =>
      key ← urlToStorageKey pathnameOf url;
      keys ← urlsToStorageKeys pathnameOf urls';
      mret (key :: keys)
  end.

(** [.filter(Boolean)]: [null] and the empty string are dropped. *)
Definition filterBoolean (keys : list (option string)) : list string :=
  omap (λ key, match key with
               | Some (String c k) => Some (String c k)
               | Some EmptyString | None => None
               end) keys.

Definition purgeUrls (pathnameOf : string → option string) (w : World)
    (urls : list string) (st : StorageFactory.State)
    : Outcome CdnPurgeResult * StorageFactory.State :=
  match StorageFactory.runIO (urlsToStorageKeys pathnameOf urls) st with
  | (Returned converted, st') =>
      let keys := filterBoolean converted in
      if Nat.eqb (length keys) 0 then
        (Returned {| success := false; purgedKeys := [];
                     message := "No valid URLs provided";
                     cdnProvider := None |}, st')
      else
        purgeCache w {| purgeAll := None; keys := Some keys;
                        courseId := None; pattern := None |} st'
  | (Thrown e, st') => (Thrown e, st')
  end.

(** The answer of [getCdnStatus]. *)
Record CdnStatus : Type := {
  enabled : bool;
  provider : ProviderType;
  healthy : bool;
}.

Definition getCdnStatus (w : World) (st : StorageFactory.State)
    : Outcome CdnStatus * StorageFactory.State :=
  match StorageFactory.getAdapter w st with
  | (Returned storageAdapter, st') =>
      StorageFactory.runIO
        (healthy ← StorageAdapter.healthCheck storageAdapter w;
         mret {| enabled := StorageAdapter.cdnEnabled storageAdapter;
                 provider := StorageAdapter.type storageAdapter;
                 healthy := healthy |}) st'
  | (Thrown e, st') => (Thrown e, st')
  end.

End CdnService.

(** Unfolding the effect combinators in a goal. *)

Ltac io_unfold :=
  cbv [mbind mret IO_bind IO_ret try_catch throw emit alloc fs import
       console_log console_warn console_error].

(** ** Worlds and objects used in examples *)

(** A world in which nothing fails and no course is known. *)
Definition calm (e : gmap string string) : World :=
  {| env := e;
     cwd := Returned "/srv/app";
     now := 0%N;
     fsError := λ _, None;
     statSize := λ _, 0%N;
     statMtime := λ _, 0%N;
     importError := λ _, None;
     headBucketError := None;
     zonePurge := FetchResponds true (Returned "");
     invalidationError := None;
     getCourse := λ _, Returned None |}.

(** The error of [process.cwd()] in a process whose working directory has
    been removed. *)
Definition uv_cwd : Exn :=
  Error "ENOENT: no such file or directory, uv_cwd".

(** The world [calm e] of a process whose working directory is gone. *)
Definition adrift (e : gmap string string) : World :=
  {| env := e;
     cwd := Thrown uv_cwd;
     now := 0%N;
     fsError := λ _, None;
     statSize := λ _, 0%N;
     statMtime := λ _, 0%N;
     importError := λ _, None;
     headBucketError := None;
     zonePurge := FetchResponds true (Returned "");
     invalidationError := None;
     getCourse := λ _, Returned None |}.

(** A complete configuration of the R2 provider. *)
Definition r2Env : gmap string string :=
  list_to_map
    [ ("STORAGE_PROVIDER", "cloudflare-r2");
      ("CLOUDFLARE_ACCOUNT_ID", "acc");
      ("CLOUDFLARE_R2_ACCESS_KEY_ID", "key");
      ("CLOUDFLARE_R2_SECRET_ACCESS_KEY", "secret");
      ("CLOUDFLARE_R2_BUCKET_NAME", "bucket");
      ("CLOUDFLARE_R2_CDN_DOMAIN", "cdn.example.com") ].

(** The same world with another environment. *)
Definition withEnv (e : gmap string string) (w : World) : World :=
  {| env := e;
     cwd := cwd w;
     now := now w;
     fsError := fsError w;
     statSize := statSize w;
     statMtime := statMtime w;
     importError := importError w;
     headBucketError := headBucketError w;
     zonePurge := zonePurge w;
     invalidationError := invalidationError w;
     getCourse := getCourse w |}.

(** An adapter in the style of a test double: its purge throws. *)
Definition throwingAdapter (e : Exn) : StorageAdapter.t :=
  {| StorageAdapter.ref := 0;
     StorageAdapter.type := cloudflare_r2;
     StorageAdapter.cdnEnabled := true;
     StorageAdapter.getPublicUrl := λ key, key;
     StorageAdapter.healthCheck := λ _, mret true;
     StorageAdapter.purgeCdnCache := λ _ _, throw e |}.

(** ** Vocabulary of the statements *)

(** What a remote provider requires of the environment: for each of the
    two selectors, the name of the provider in error messages and the
    environment variables that must be set and not empty (credentials,
    bucket name, CDN domain and, for S3, the region), each with the name
    of its field in the error message. *)
Definition requiredVariables (provider : string)
    : option (string * list (string * string)) :=
  if String.eqb provider "cloudflare-r2" then
    Some ("CloudFlare R2",
          [ ("accountId", "CLOUDFLARE_ACCOUNT_ID");
            ("accessKeyId", "CLOUDFLARE_R2_ACCESS_KEY_ID");
            ("secretAccessKey", "CLOUDFLARE_R2_SECRET_ACCESS_KEY");
            ("bucketName", "CLOUDFLARE_R2_BUCKET_NAME");
            ("cdnDomain", "CLOUDFLARE_R2_CDN_DOMAIN") ])
  else if String.eqb provider "s3-cloudfront" then
    Some ("AWS S3/CloudFront",
          [ ("region", "AWS_REGION");
            ("accessKeyId", "AWS_ACCESS_KEY_ID");
            ("secretAccessKey", "AWS_SECRET_ACCESS_KEY");
            ("bucketName", "AWS_S3_BUCKET_NAME");
            ("cloudFrontDomain", "AWS_CLOUDFRONT_DOMAIN") ])
  else None.

(** The fields whose environment variable is unset or empty in [w]. *)
Definition missingFields (w : World) (required : list (string * string))
    : list string :=
  omap (λ entry : string * string,
          if JS.truthy (env w !! entry.2) then None else Some entry.1)
    required.

(** The root of the local adapter of world [w] when the working directory
    is [dir]: [UPLOADS_DIR] when it is set and not empty, and otherwise
    [uploads/courses] below [dir]. *)
Definition localRootOf (w : World) (dir : string) : string :=
  JS.or_else (env w !! "UPLOADS_DIR") (Path.join [dir; "uploads"; "courses"]).

(** The local adapter the factory builds in world [w] at address [ref],
    when the working directory is [dir]. *)
Definition localAdapterOf (w : World) (dir : string) (ref : nat)
    : StorageAdapter.t :=
  LocalStorageAdapter.adapter
    {| LocalStorageAdapter.uploadsDir := localRootOf w dir;
       LocalStorageAdapter.baseUrl :=
         JS.or_else (env w !! "PUBLIC_DOMAIN")
           (JS.or_else (env w !! "PUBLIC_DOMAIN") "") |} ref.

(** The local adapter can be constructed in [w]: its root is configured, or
    the working directory can be read, and is [dir]. *)
Definition localRootKnown (w : World) (dir : string) : Prop :=
  JS.truthy (env w !! "UPLOADS_DIR") = true ∨ cwd w = Returned dir.

(** The local adapter cannot be constructed in [w]: no root is configured
    and reading the working directory throws [e]. *)
Definition localRootLost (w : World) (e : Exn) : Prop :=
  JS.truthy (env w !! "UPLOADS_DIR") = false ∧ cwd w = Thrown e.

Section FactoryVocabulary.

Import StorageFactory.

(** What the factory logs when it builds the local adapter. *)
Definition localInitLog (n : nat) : list Event :=
  [New local n; Console LogLevel "✓ Local storage adapter initialized" None].

(** The error of a remote constructor that lacks configuration. *)
Definition missingConfigError (label : string) (missing : list string)
    : string :=
  "Missing " +:+ label +:+ " configuration: " +:+ JS.join ", " missing
  +:+ ". Please set the required environment variables.".

(** What the factory logs when a remote provider fails with [message]. *)
Definition fallbackLog (provider message : string) (n : nat) : list Event :=
  [Console LogLevel ("Initializing storage provider: " +:+ provider) None;
   Console ErrorLevel
     ("Failed to initialize " +:+ provider +:+ " storage adapter:")
     (Some ("Error: " +:+ message));
   Console WarnLevel "Falling back to local storage adapter" None]
  ++ localInitLog n.

Definition isNet (ev : Event) : bool :=
  match ev with Net _ => true | _ => false end.

(** A fresh call of [getAdapter]: nothing cached, nothing in flight. *)
Definition afterConstruction (a : StorageAdapter.t) (evs : list Event)
    (n : nat) (st : State) : State :=
  {| instance := Some a;
     initializationPromise := None;
     created := S (created st);
     settled := {[created st]} ∪ settled st;
     allocated := n;
     events := events st ++ evs |}.

(** A fresh call of [getAdapter] whose construction throws [e]: the
    caller is rejected, nothing is cached, and the rejected promise stays
    in the field, since the two assignments after the [await] are
    skipped. *)
Definition afterRejection (e : Exn) (evs : list Event) (n : nat)
    (st : State) : State :=
  {| instance := None;
     initializationPromise :=
       Some {| number := created st; result := Thrown e |};
     created := S (created st);
     settled := {[created st]} ∪ settled st;
     allocated := n;
     events := events st ++ evs |}.

End FactoryVocabulary.

(** ** Vocabulary of the path statements *)

(** A segment as [split] produces them: without a slash. *)
Definition slashFree (s : string) : Prop := JS.includes "/" s = false.

(** A stack of [normalizeString], last segment first, is in normal form:
    its segments are proper names, except that it may start (at the
    bottom) with a run of [..] when the path is relative. *)
Fixpoint normalForm (allowAboveRoot : bool) (stack : list string) : Prop :=
  match stack with
  | [] => True
  | top :: below =>
      top ≠ "" ∧ top ≠ "." ∧ slashFree top
      ∧ (top = ".." → allowAboveRoot = true ∧ Forall (eq "..") below)
      ∧ normalForm allowAboveRoot below
  end.

(** The segments of a path that are kept when none of them is [..]. *)
Definition names (segs : list string) : list string :=
  filter (λ seg, seg ≠ "" ∧ seg ≠ ".") segs.

(** ** Vocabulary of the purge statements *)

Section PurgeVocabulary.
Import StorageFactory CdnService.

(** The keys [getCourseAssetKeys] answers for a course. *)
Definition courseKeys (w : World) (courseId : string) : list string :=
  match getCourse w courseId with
  | Returned (Some course) =>
      match storageKey course with
      | Some (String c k) => [String c k]
      | Some EmptyString | None => ["courses/" +:+ courseId +:+ "/*"]
      end
  | Returned None | Thrown _ => []
  end.

(** The keys a request resolves to by the precedence of the
    specification: the global flag, then the course, then the pattern,
    then the explicit keys; [None] when the request names no target. *)
Definition keysByPrecedence (w : World) (options : CdnPurgeOptions)
    : option (list string) :=
  match purgeAll options, courseId options, pattern options, keys options with
  | Some true, _, _, _ => Some ["*"]
  | _, Some (String c id), _, _ => Some (courseKeys w (String c id))
  | _, _, Some (String c pat), _ => Some [String c pat]
  | _, _, _, Some (k :: ks) => Some (k :: ks)
  | _, _, _, _ => None
  end.

(** The events performed since the state [before]. *)
Definition since (before after : State) : list Event :=
  drop (length (events before)) (events after).

(** Among [evs], the adapter's [purgeCdnCache] is called exactly once, with
    [keysGiven]: some events that are not such a call, the call, what the
    adapter itself does in it, and again events that are not such a
    call. *)
Definition calledOnceWith (a : StorageAdapter.t) (w : World)
    (keysGiven : list string) (n : nat) (evs : list Event) : Prop :=
  ∃ pre post,
    evs = pre
          ++ Invoke_purgeCdnCache (StorageAdapter.ref a) keysGiven
             :: (StorageAdapter.purgeCdnCache a w keysGiven n).1.2 ++ post
    ∧ purgeCalls pre = []
    ∧ purgeCalls post = [].

(** What [purgeCache] does with a request, for an adapter with a CDN. *)
Definition purges (w : World) (options : CdnPurgeOptions) (st : State)
    (a : StorageAdapter.t) (st' : State) (keysGiven : list string) : Prop :=
  ∃ r st'',
    purgeCache w options st = (Returned r, st'')
    ∧ calledOnceWith a w keysGiven (allocated st') (since st' st'').

(** Whether a purge through the S3 adapter goes through: the distribution
    is configured, the SDK loads and the invalidation is accepted. *)
Definition s3PurgeSucceeds (this : S3CloudFrontAdapter.t) (w : World) : bool :=
  JS.truthy (S3CloudFrontAdapter.cloudFrontDistributionId this)
  && bool_decide (importError w "@aws-sdk/client-cloudfront" = None)
  && bool_decide (invalidationError w = None).

(** Whether a purge through the R2 adapter goes through: zone and token
    are configured and the zone API answers with success. *)
Definition r2PurgeSucceeds (w : World) : bool :=
  JS.truthy (env w !! "CLOUDFLARE_ZONE_ID")
  && JS.truthy (env w !! "CLOUDFLARE_API_TOKEN")
  && match zonePurge w with
     | FetchResponds true _ => true
     | FetchResponds false _ | FetchRejects _ => false
     end.

(** The message [purgeCache] reports for a thrown value. *)
Definition purgeErrorMessage (e : Exn) : string :=
  match e with
  | Error message => message
  | NonError _ => "Unknown error during cache purge"
  end.

(** A process in which the factory already holds [a]. *)
Definition holding (a : StorageAdapter.t) : State :=
  {| instance := Some a; initializationPromise := None; created := 1;
     settled := {[0]}; allocated := 1; events := [] |}.

End PurgeVocabulary.

(** ** Requests and processes used in examples *)

Section Samples.
Import StorageFactory CdnService.

(** The adapter the factory builds from [r2Env], and the process after. *)
Definition r2Adapter : StorageAdapter.t :=
  CloudFlareR2Adapter.adapter
    (CloudFlareR2Adapter.new "acc" "key" "secret" "bucket" "cdn.example.com"
       None) 0.

Definition r2Ready : State := (getAdapter (calm r2Env) initial).2.

(** The process after the factory has built the local adapter. *)
Definition localReady : State := (getAdapter (calm ∅) initial).2.

(** A request that gives nothing but a list of keys. *)
Definition onlyKeys (ks : list string) : CdnPurgeOptions :=
  {| purgeAll := None; keys := Some ks; courseId := None; pattern := None |}.

End Samples.

Section Scenario.
Import StorageFactory.

(** A local adapter rooted at [/srv/app/uploads/courses]. *)
Definition sampleLocal : LocalStorageAdapter.t :=
  {| LocalStorageAdapter.uploadsDir := "/srv/app/uploads/courses";
     LocalStorageAdapter.baseUrl := "" |}.

(** The local adapter the factory builds first in the world [calm ∅]. *)
Definition firstLocal : StorageAdapter.t :=
  localAdapterOf (calm ∅) "/srv/app" 0.

(** The adapter the factory builds from [r2Env] after one other object. *)
Definition secondR2 : StorageAdapter.t :=
  CloudFlareR2Adapter.adapter
    (CloudFlareR2Adapter.new "acc" "key" "secret" "bucket" "cdn.example.com"
       None) 1.

(** A test run: the asset service is used with local storage; then the
    factory is reset and asked again, now with R2 configured. *)
Definition reinitialised : AssetService.t * State :=
  let '(_, service, st1) :=
    AssetService.getStorage AssetService.new (calm ∅) initial in
  let '(_, st2) := getAdapter (calm r2Env) (reset st1) in
  (service, st2).

End Scenario.

(** ** Schedules of concurrent callers *)

Section Schedules.

Import StorageFactory.

(** The world of the first call of a schedule. *)
Definition firstCall (acts : list Action) : option World :=
  head (omap (λ act, match act with Call w => Some w | _ => None end) acts).

Definition numberOfCalls (acts : list Action) : nat :=
  length (List.filter isCall acts).

Definition noReset (acts : list Action) : bool :=
  forallb (λ act, negb (isReset act)) acts.

(** The promise of the one construction, which settles to [o]. *)
Definition thePromise (o : Outcome StorageAdapter.t) : Promise :=
  {| number := 0; result := o |}.

(** A caller that has received the outcome [o]. *)
Definition answeredWith (o : Outcome StorageAdapter.t) : Caller :=
  match o with
  | Returned a => Fulfilled a
  | Thrown e => Rejected e
  end.

(** What is cached once a construction with outcome [o] has been
    consumed. *)
Definition cachedAfter (o : Outcome StorageAdapter.t)
    : option StorageAdapter.t :=
  match o with
  | Returned a => Some a
  | Thrown _ => None
  end.

(** The state of the process once [getAdapter] has been called and as long
    as [reset] has not: one construction was started, it had the outcome
    [o] and performed the events [evs0].  Either nothing is cached and its
    promise is in the field (the first caller still awaits it, or it was
    rejected and stays there), or it returned the adapter that is now the
    cached instance. *)
Record SingleFlight (o : Outcome StorageAdapter.t) (evs0 : list Event)
    (n0 : nat) (m : Machine) : Prop := {
  sf_created : created (process m) = 1;
  sf_allocated : allocated (process m) = n0;
  sf_events : events (process m) = evs0;
  sf_fields :
    (instance (process m) = None
     ∧ initializationPromise (process m) = Some (thePromise o)
     ∧ (callers m !! 0 = Some (Suspended (thePromise o))
        ∨ cachedAfter o = None))
    ∨ (∃ a, o = Returned a
            ∧ instance (process m) = Some a
            ∧ initializationPromise (process m) = None
            ∧ 0 ∈ settled (process m));
  sf_callers :
    Forall (λ c, c = Suspended (thePromise o) ∨ c = Following (thePromise o)
                 ∨ c = answeredWith o) (callers m);
}.

End Schedules.

(** ** Vocabulary of the further properties *)

(** A change of characters that [path.extname] cannot see: slashes and dots
    are kept, and nothing else becomes one. *)
Definition keepsSeparators (f : ascii → ascii) : Prop :=
  ∀ c, Ascii.eqb (f c) "/" = Ascii.eqb c "/"
       ∧ Ascii.eqb (f c) "." = Ascii.eqb c ".".

(** The filesystem calls among some events, in order. *)
Definition fsCalls (evs : list Event) : list FsCall :=
  omap (λ ev, match ev with Fs c => Some c | _ => None end) evs.

(** Whether the unlink that [deleteFile] issues for [key] goes through. *)
Definition unlinkSucceeds (this : LocalStorageAdapter.t) (w : World)
    (key : string) : bool :=
  bool_decide
    (fsError w (Unlink (LocalStorageAdapter.getAbsolutePath this key)) = None).

(** Issuing filesystem calls one after the other until one fails: the calls
    issued, and the error of the failing one. *)
Fixpoint attempt (w : World) (calls : list FsCall)
    : list FsCall * option Exn :=
  match calls with
  | [] => ([], None)
  | c :: calls' =>
      match fsError w c with
      | Some e => ([c], Some e)
      | None => let (issued, failure) := attempt w calls' in
                (c :: issued, failure)
      end
  end.

(** The filesystem calls of [uploadBuffer] and [uploadFile] for a key, and
    of the health probe. *)
Definition destinationOf (this : LocalStorageAdapter.t) (key : string)
    : string :=
  Path.join [LocalStorageAdapter.uploadsDir this;
             LocalStorageAdapter.safeKey key].

Definition uploadBufferCalls (this : LocalStorageAdapter.t)
    (buffer : Buffer) (key : string) : list FsCall :=
  [Mkdir (LocalStorageAdapter.uploadsDir this);
   Mkdir (Path.dirname (destinationOf this key));
   WriteFile (destinationOf this key) buffer].

Definition uploadFileCalls (this : LocalStorageAdapter.t)
    (filePath key : string) : list FsCall :=
  [Mkdir (LocalStorageAdapter.uploadsDir this);
   Mkdir (Path.dirname (destinationOf this key));
   CopyFile filePath (destinationOf this key);
   Stat (destinationOf this key)].

Definition probeCalls (this : LocalStorageAdapter.t) : list FsCall :=
  [Mkdir (LocalStorageAdapter.uploadsDir this);
   WriteFile (Path.join [LocalStorageAdapter.uploadsDir this; ".health-check"])
     [Byte.x6f; Byte.x6b];
   Unlink (Path.join [LocalStorageAdapter.uploadsDir this; ".health-check"])].

(** Whether the bucket probe of a remote adapter goes through: the SDK
    loads and the bucket answers. *)
Definition probeSucceeds (w : World) : bool :=
  bool_decide (importError w "@aws-sdk/client-s3" = None)
  && bool_decide (headBucketError w = None).

(** Whether the remote provider [provider] can be used in world [w]: every
    environment variable it requires is set and not empty, and its bucket
    answers the probe. *)
Definition remoteReady (w : World) (provider : string) : bool :=
  match requiredVariables provider with
  | Some (_, required) =>
      bool_decide (missingFields w required = []) && probeSucceeds w
  | None => false
  end.

(** What a construction ends with: an adapter of some kind, or an error. *)
Inductive Decision : Type :=
  | Builds (type : ProviderType)
  | Fails (e : Exn).

(** What a construction must end with in world [w]: the remote provider
    that [STORAGE_PROVIDER] selects when it can be used; in every other
    case the local adapter, when its root is configured or the working
    directory can be read; and the error of [process.cwd()] when it
    cannot. *)
Definition expected (w : World) : Decision :=
  let provider := JS.or_else (env w !! "STORAGE_PROVIDER") "local" in
  if String.eqb provider "cloudflare-r2" && remoteReady w provider then
    Builds cloudflare_r2
  else if String.eqb provider "s3-cloudfront" && remoteReady w provider then
    Builds s3_cloudfront
  else if JS.truthy (env w !! "UPLOADS_DIR") then Builds local
  else match cwd w with
       | Returned _ => Builds local
       | Thrown e => Fails e
       end.

(** The construction returns in world [w]. *)
Definition constructs (w : World) : Prop := ∃ type, expected w = Builds type.

(** An adapter object of one of the three classes of the repository. *)
Definition factoryBuilt (a : StorageAdapter.t) : Prop :=
  (∃ this ref, a = LocalStorageAdapter.adapter this ref)
  ∨ (∃ this ref, a = CloudFlareR2Adapter.adapter this ref)
  ∨ (∃ this ref, a = S3CloudFrontAdapter.adapter this ref).

(** The network calls among some events, in order. *)
Definition netCalls (evs : list Event) : list NetCall :=
  omap (λ ev, match ev with Net c => Some c | _ => None end) evs.

Section SoundVocabulary.
Import StorageFactory.

(** A promise among the first [made] of the factory that resolves, with an
    adapter of the repository. *)
Definition resolvesBuilt (made : nat) (p : Promise) : Prop :=
  number p < made ∧ ∃ a, result p = Returned a ∧ factoryBuilt a.

(** A caller that has not been rejected, and that holds or waits for an
    adapter of the repository. *)
Definition soundCaller (made : nat) (c : Caller) : Prop :=
  match c with
  | Suspended p | Following p => resolvesBuilt made p
  | Fulfilled a => factoryBuilt a
  | Rejected _ => False
  end.

(** What holds of the process under every schedule, [reset] included. *)
Record Sound (m : Machine) : Prop := {
  sound_instance :
    ∀ a, instance (process m) = Some a → factoryBuilt a;
  sound_promise :
    ∀ p, initializationPromise (process m) = Some p →
         resolvesBuilt (created (process m)) p;
  sound_callers :
    Forall (soundCaller (created (process m))) (callers m);
}.

(** The caller has its adapter. *)
Definition answered (c : Caller) : Prop :=
  ∃ a, c = Fulfilled a ∧ factoryBuilt a.

(** All promises made have settled. *)
Definition allSettled (m : Machine) : Prop :=
  ∀ p, p < created (process m) → p ∈ settled (process m).

(** The worlds in which the callers of a schedule call. *)
Definition worldsOf (acts : list Action) : list World :=
  omap (λ act, match act with Call w => Some w | _ => None end) acts.

End SoundVocabulary.

Section UrlVocabulary.
Import StorageFactory CdnService.

(** The storage keys [purgeUrls] keeps of a list of URLs: the path of every
    text that is a URL, without its leading slashes, unless nothing is
    left. *)
Definition keysOfUrls (pathnameOf : string → option string)
    (urls : list string) : list string :=
  omap (λ url,
          match pathnameOf url with
          | Some pathname =>
              match JS.stripLeadingSlashes pathname with
              | EmptyString => None
              | String c k => Some (String c k)
              end
          | None => None
          end) urls.

(** The texts that are not URLs. *)
Definition invalidUrls (pathnameOf : string → option string)
    (urls : list string) : list string :=
  List.filter (λ url, bool_decide (pathnameOf url = None)) urls.

(** The state after some console output. *)
Definition afterLogging (evs : list Event) (st : State) : State :=
  {| instance := instance st;
     initializationPromise := initializationPromise st;
     created := created st;
     settled := settled st;
     allocated := allocated st;
     events := events st ++ evs |}.

(** A request for one course. *)
Definition onlyCourse (id : string) : CdnPurgeOptions :=
  {| purgeAll := None; keys := None; courseId := Some id; pattern := None |}.

End UrlVocabulary.

Section StatusVocabulary.
Import StorageFactory.

(** A process in which [getAdapter] can be called by one caller at a time:
    nothing is in flight, and the cached adapter, if any, is one of the
    repository. *)
Definition quiescent (st : State) : Prop :=
  initializationPromise st = None
  ∧ ∀ a, instance st = Some a → factoryBuilt a.

End StatusVocabulary.

(** * Properties

    ** Key sanitisation *)

Section StringFacts.

Lemma string_pair_ind (P : string → Prop) :
  P "" →
  (∀ c, P (String c "")) →
  (∀ c d rest, P rest → P (String d rest) → P (String c (String d rest))) →
  ∀ s, P s.
Proof.
  intros Hnil Hone Hstep.
  assert (H : ∀ s, P s ∧ ∀ c, P (String c s)).
  { induction s as [|d s [IHs IHc]]; split; auto. }
  intros s. apply H.
Qed.

Lemma startsWith_dotdot c d rest :
  JS.startsWith ".." (String c (String d rest))
  = Ascii.eqb c "." && Ascii.eqb d ".".
Proof.
  cbn [JS.startsWith]. rewrite andb_true_r.
  by rewrite (Ascii.eqb_sym "." c), (Ascii.eqb_sym "." d).
Qed.

Lemma startsWith_slash c rest :
  JS.startsWith "/" (String c rest) = Ascii.eqb c "/".
Proof.
  cbn [JS.startsWith]. by rewrite andb_true_r, (Ascii.eqb_sym "/" c).
Qed.

Lemma removeDotDot_keep c d rest :
  Ascii.eqb c "." && Ascii.eqb d "." = false →
  JS.removeDotDot (String c (String d rest))
  = String c (JS.removeDotDot (String d rest)).
Proof. intros H. simpl. by rewrite H. Qed.

(** The first character of the output is a dot only if that of the input is. *)
Lemma removeDotDot_head d rest :
  Ascii.eqb d "." = false →
  ∃ out, JS.removeDotDot (String d rest) = String d out.
Proof.
  intros Hd. destruct rest as [|e rest]; [by eexists|].
  rewrite removeDotDot_keep; [by eexists|]. by rewrite Hd.
Qed.

Lemma includes_cons sub c s :
  JS.includes sub (String c s)
  = JS.startsWith sub (String c s) || JS.includes sub s.
Proof. done. Qed.

Lemma removeDotDot_no_dotdot s :
  JS.includes ".." (JS.removeDotDot s) = false.
Proof.
  induction s as [|c|c d rest IH1 IH2] using string_pair_ind; [done| |].
  { cbn [JS.removeDotDot JS.includes JS.startsWith].
    by rewrite andb_false_r. }
  destruct (Ascii.eqb c "." && Ascii.eqb d ".") eqn:Hcd.
  - simpl. by rewrite Hcd.
  - rewrite removeDotDot_keep by done.
    rewrite includes_cons, IH2, orb_false_r.
    destruct (Ascii.eqb d ".") eqn:Hd.
    + rewrite andb_true_r in Hcd.
      destruct (JS.removeDotDot (String d rest)) as [|e out].
      * cbn [JS.startsWith]. apply andb_false_r.
      * rewrite startsWith_dotdot. by rewrite Hcd.
    + destruct (removeDotDot_head d rest Hd) as [out ->].
      rewrite startsWith_dotdot. by rewrite Hd, andb_false_r.
Qed.

Lemma removeDotDot_fixed s :
  JS.includes ".." s = false → JS.removeDotDot s = s.
Proof.
  induction s as [|c|c d rest IH1 IH2] using string_pair_ind; [done..|].
  rewrite includes_cons, startsWith_dotdot.
  intros [Hcd Hrest]%orb_false_iff.
  rewrite removeDotDot_keep by done. by rewrite IH2.
Qed.

Lemma stripLeadingSlashes_no_slash s :
  JS.startsWith "/" (JS.stripLeadingSlashes s) = false.
Proof.
  induction s as [|c s IH]; [done|].
  simpl JS.stripLeadingSlashes. destruct (Ascii.eqb c "/") eqn:Hc; [done|].
  by rewrite startsWith_slash.
Qed.

Lemma stripLeadingSlashes_fixed s :
  JS.startsWith "/" s = false → JS.stripLeadingSlashes s = s.
Proof.
  destruct s as [|c s]; [done|].
  rewrite startsWith_slash. simpl. by intros ->.
Qed.

Lemma includes_tail sub c s :
  JS.includes sub (String c s) = false → JS.includes sub s = false.
Proof. rewrite includes_cons. by intros [_ ?]%orb_false_iff. Qed.

Lemma stripLeadingSlashes_includes sub s :
  JS.includes sub s = false →
  JS.includes sub (JS.stripLeadingSlashes s) = false.
Proof.
  induction s as [|c s IH]; [done|]. intros H. simpl JS.stripLeadingSlashes.
  destruct (Ascii.eqb c "/"); [|done]. eauto using includes_tail.
Qed.

End StringFacts.

(** C2: the sanitisation of the local adapter, which removes every [..]
    and then strips the leading slashes, is idempotent, and for every key
    its result neither begins with a slash nor contains [..]. *)
Theorem safeKey_idempotent_clean (k : string) :
  LocalStorageAdapter.safeKey (LocalStorageAdapter.safeKey k)
  = LocalStorageAdapter.safeKey k
  ∧ JS.startsWith "/" (LocalStorageAdapter.safeKey k) = false
  ∧ JS.includes ".." (LocalStorageAdapter.safeKey k) = false.
Proof.
  assert (Hdots : JS.includes ".." (LocalStorageAdapter.safeKey k) = false).
  { apply stripLeadingSlashes_includes, removeDotDot_no_dotdot. }
  assert (Hslash : JS.startsWith "/" (LocalStorageAdapter.safeKey k) = false).
  { apply stripLeadingSlashes_no_slash. }
  split_and!; [|done..].
  unfold LocalStorageAdapter.safeKey at 1.
  rewrite removeDotDot_fixed by done. by apply stripLeadingSlashes_fixed.
Qed.

(** ** Paths below the root *)

Section PathFacts.

Lemma app_String c s t : String c s +:+ t = String c (s +:+ t).
Proof. done. Qed.

Lemma app_empty_r s : s +:+ "" = s.
Proof. induction s as [|c s IH]; [done|]. by rewrite app_String, IH. Qed.

Lemma app_assoc_string s t u : (s +:+ t) +:+ u = s +:+ t +:+ u.
Proof. induction s as [|c s IH]; [done|]. by rewrite !app_String, IH. Qed.

Lemma splitSlash_cons c s :
  JS.splitSlash (String c s)
  = if Ascii.eqb c "/" then "" :: JS.splitSlash s
    else match JS.splitSlash s with
         | seg :: segs => String c seg :: segs
         | [] => [String c ""]
         end.
Proof. done. Qed.

Lemma splitSlash_nonempty s : JS.splitSlash s ≠ [].
Proof.
  destruct s as [|c s]; [done|]. rewrite splitSlash_cons.
  destruct (Ascii.eqb c "/"); [done|]. by destruct (JS.splitSlash s).
Qed.

Lemma slashFree_cons c s :
  slashFree (String c s) ↔ Ascii.eqb c "/" = false ∧ slashFree s.
Proof.
  unfold slashFree. rewrite includes_cons, startsWith_slash.
  by rewrite orb_false_iff.
Qed.

Lemma splitSlash_slashFree s : Forall slashFree (JS.splitSlash s).
Proof.
  induction s as [|c s IH]; [by repeat constructor|].
  rewrite splitSlash_cons. destruct (Ascii.eqb c "/") eqn:Hc.
  - by constructor.
  - destruct (JS.splitSlash s) as [|seg segs];
      [by repeat constructor; apply slashFree_cons|].
    apply Forall_cons in IH as [Hseg Hsegs].
    constructor; [by apply slashFree_cons|done].
Qed.

Lemma splitSlash_of_slashFree s : slashFree s → JS.splitSlash s = [s].
Proof.
  induction s as [|c s IH]; [done|].
  intros [Hc Hs]%slashFree_cons. by rewrite splitSlash_cons, Hc, IH.
Qed.

(** Splitting what was glued with a slash gives the parts back. *)
Lemma splitSlash_glue s t :
  JS.splitSlash (s +:+ "/" +:+ t) = JS.splitSlash s ++ JS.splitSlash t.
Proof.
  induction s as [|c s IH]; [done|].
  rewrite app_String, !splitSlash_cons, IH.
  destruct (Ascii.eqb c "/"); [done|].
  pose proof (splitSlash_nonempty s). by destruct (JS.splitSlash s).
Qed.

Lemma splitSlash_trailing s :
  JS.splitSlash (s +:+ "/") = JS.splitSlash s ++ [""].
Proof.
  rewrite <-(app_empty_r (s +:+ "/")), app_assoc_string.
  apply splitSlash_glue.
Qed.

Lemma splitSlash_concat segs :
  segs ≠ [] → Forall slashFree segs →
  JS.splitSlash (JS.join "/" segs) = segs.
Proof.
  unfold JS.join. induction segs as [|seg segs IH]; [done|]. intros _ Hall.
  apply Forall_cons in Hall as [Hseg Hsegs].
  destruct segs as [|seg' segs]; [by apply splitSlash_of_slashFree|].
  change (String.concat "/" (seg :: seg' :: segs))
    with (seg +:+ "/" +:+ String.concat "/" (seg' :: segs)).
  rewrite splitSlash_glue, splitSlash_of_slashFree by done.
  by rewrite IH.
Qed.

(** The first segment is the start of the string. *)
Lemma splitSlash_head s seg segs :
  JS.splitSlash s = seg :: segs → ∃ tail, s = seg +:+ tail.
Proof.
  revert seg segs. induction s as [|c s IH]; intros seg segs.
  { intros [= <- <-]. by exists "". }
  rewrite splitSlash_cons. destruct (Ascii.eqb c "/").
  { intros [= <- <-]. by eexists. }
  destruct (JS.splitSlash s) as [|seg' segs'] eqn:Hs.
  { by destruct (splitSlash_nonempty s). }
  intros [= <- <-]. destruct (IH _ _ eq_refl) as [tail ->].
  by exists tail.
Qed.

(** A key without [..] has no [..] segment. *)
Lemma splitSlash_no_dotdot s :
  JS.includes ".." s = false → ".." ∉ JS.splitSlash s.
Proof.
  induction s as [|c s IH]; [by intros _ [= ]%list_elem_of_singleton|].
  rewrite includes_cons. intros [Hstart Hrest]%orb_false_iff.
  rewrite splitSlash_cons. destruct (Ascii.eqb c "/").
  { intros [[=]|Hin]%elem_of_cons. by apply IH. }
  destruct (JS.splitSlash s) as [|seg segs] eqn:Hs.
  { by destruct (splitSlash_nonempty s). }
  intros [Heq|Hin]%elem_of_cons.
  - injection Heq as <- <-.
    destruct (splitSlash_head _ _ _ Hs) as [tail ->].
    by rewrite app_String, startsWith_dotdot in Hstart.
  - apply (IH Hrest). by right.
Qed.


Lemma eqb_string_false s t : s ≠ t → String.eqb s t = false.
Proof. by intros ?%String.eqb_neq. Qed.

Lemma pushSegment_skip allow stack seg :
  seg = "" ∨ seg = "." → Path.pushSegment allow stack seg = stack.
Proof. by intros [-> | ->]. Qed.

Lemma pushSegment_name allow stack seg :
  seg ≠ "" → seg ≠ "." → seg ≠ ".." →
  Path.pushSegment allow stack seg = seg :: stack.
Proof.
  intros H1 H2 H3. unfold Path.pushSegment.
  by rewrite !eqb_string_false.
Qed.

Lemma pushSegment_normalForm allow stack seg :
  slashFree seg → normalForm allow stack →
  normalForm allow (Path.pushSegment allow stack seg).
Proof.
  intros Hseg Hstack.
  destruct (decide (seg = "")) as [->|H1]; [done|].
  destruct (decide (seg = ".")) as [->|H2]; [done|].
  destruct (decide (seg = "..")) as [->|H3].
  - destruct stack as [|top below]; cbn.
    + destruct allow; cbn; [|done]. split_and!; done.
    + destruct Hstack as (Ht1 & Ht2 & Ht3 & Ht4 & Hbelow).
      destruct (String.eqb_spec top "..") as [->|Hne]; [|done].
      destruct (Ht4 eq_refl) as [-> Hall].
      cbn. split_and!; try done. intros _. split; [done|]. by constructor.
  - rewrite pushSegment_name by done. cbn. by split_and!.
Qed.

Lemma fold_normalForm allow segs stack :
  Forall slashFree segs → normalForm allow stack →
  normalForm allow (fold_left (Path.pushSegment allow) segs stack).
Proof.
  revert stack. induction segs as [|seg segs IH]; intros stack Hsegs Hstack;
    [done|].
  apply Forall_cons in Hsegs as [Hseg Hsegs]. cbn.
  by apply IH, pushSegment_normalForm.
Qed.

Lemma fold_names allow segs stack :
  ".." ∉ segs →
  fold_left (Path.pushSegment allow) segs stack = rev (names segs) ++ stack.
Proof.
  revert stack. induction segs as [|seg segs IH]; intros stack Hsegs; [done|].
  apply not_elem_of_cons in Hsegs as [Hseg Hsegs]. cbn [fold_left].
  rewrite IH by done. unfold names. rewrite filter_cons.
  destruct (decide (seg ≠ "" ∧ seg ≠ ".")) as [[H1 H2]|Hskip].
  - rewrite pushSegment_name by done. cbn [rev]. by rewrite <-app_assoc.
  - rewrite pushSegment_skip; [done|].
    destruct (decide (seg = "")); [by left|].
    destruct (decide (seg = ".")); [by right|]. by destruct Hskip.
Qed.

(** Normalising a normal form changes nothing. *)
Lemma fold_fixed allow stack :
  normalForm allow stack →
  fold_left (Path.pushSegment allow) (rev stack) [] = stack.
Proof.
  induction stack as [|top below IH]; [done|].
  intros (H1 & H2 & H3 & H4 & Hbelow). cbn [rev].
  rewrite fold_left_app, IH by done. cbn [fold_left].
  destruct (decide (top = "..")) as [->|Hne];
    [|by apply pushSegment_name].
  destruct (H4 eq_refl) as [-> Hall].
  destruct below as [|top' below]; [done|].
  apply Forall_cons in Hall as [<- _]. done.
Qed.

Lemma fold_slashes allow segs (abs trailing : bool) :
  fold_left (Path.pushSegment allow)
    ((if abs then [""] else []) ++ segs ++ (if trailing then [""] else [])) []
  = fold_left (Path.pushSegment allow) segs [].
Proof.
  rewrite !fold_left_app. by destruct abs, trailing.
Qed.

Lemma isAbsolute_String c s : Path.isAbsolute (String c s) = Ascii.eqb c "/".
Proof. apply startsWith_slash. Qed.

Lemma resolved_normalForm p :
  normalForm (negb (Path.isAbsolute p))
    (fold_left (Path.pushSegment (negb (Path.isAbsolute p)))
       (JS.splitSlash p) []).
Proof. apply fold_normalForm; [apply splitSlash_slashFree|done]. Qed.

Lemma resolved_fixed p :
  Forall (λ seg, seg ≠ "" ∧ slashFree seg) (Path.resolved p)
  ∧ fold_left (Path.pushSegment (negb (Path.isAbsolute p)))
      (Path.resolved p) []
    = rev (Path.resolved p).
Proof.
  pose proof (resolved_normalForm p) as Hnf.
  unfold Path.resolved, Path.normalizeSegments.
  set (stack := fold_left _ (JS.splitSlash p) []) in *.
  rewrite rev_involutive. split; [|by apply fold_fixed].
  apply Forall_rev. clear -Hnf.
  induction stack as [|top below IH]; [done|].
  destruct Hnf as (H1 & _ & H3 & _ & Hbelow). constructor; auto.
Qed.

(** The segments of a path whose text is [segs] glued with slashes, with
    a slash in front when [abs] and one behind when [trailing]. *)
Lemma resolved_rendered allow segs c body (trailing : bool) :
  Forall (λ seg, seg ≠ "" ∧ slashFree seg) segs →
  JS.join "/" segs = String c body →
  fold_left (Path.pushSegment allow) segs [] = rev segs →
  Ascii.eqb c "/" = false
  ∧ fold_left (Path.pushSegment allow)
      (JS.splitSlash (if trailing then String c body +:+ "/"
                      else String c body)) []
    = rev segs.
Proof.
  intros Hall Hbody Hfix.
  assert (Hne : segs ≠ []) by by intros ->.
  assert (Hfree : Forall slashFree segs).
  { eapply Forall_impl; [exact Hall|]. by intros ? [_ ?]. }
  split.
  - destruct segs as [|seg segs]; [done|].
    apply Forall_cons in Hall as [[Hseg Hslash] _].
    destruct seg as [|c' seg]; [done|].
    apply slashFree_cons in Hslash as [Hc _].
    unfold JS.join in Hbody.
    destruct segs; cbn [String.concat] in Hbody;
      rewrite ?app_String in Hbody; by simplify_eq.
  - rewrite <-Hbody. destruct trailing.
    + rewrite splitSlash_trailing, splitSlash_concat by done.
      rewrite fold_left_app, Hfix. done.
    + by rewrite splitSlash_concat.
Qed.

Lemma normalize_String c0 p0 :
  Path.normalize (String c0 p0)
  = match JS.join "/" (Path.resolved (String c0 p0)) with
    | "" =>
        if Path.isAbsolute (String c0 p0) then "/"
        else if Path.endsWithSlash (String c0 p0) then "./" else "."
    | String c body =>
        if Path.isAbsolute (String c0 p0) then
          "/" +:+ (if Path.endsWithSlash (String c0 p0)
                   then String c body +:+ "/" else String c body)
        else if Path.endsWithSlash (String c0 p0)
             then String c body +:+ "/" else String c body
    end.
Proof.
  unfold Path.normalize.
  by destruct (JS.join "/" (Path.resolved (String c0 p0))).
Qed.

(** [path.normalize] keeps what a path denotes: whether it is absolute,
    and the segments it resolves to. *)
Lemma normalize_denotes p :
  Path.isAbsolute (Path.normalize p) = Path.isAbsolute p
  ∧ Path.resolved (Path.normalize p) = Path.resolved p.
Proof.
  destruct p as [|c0 p0]; [done|]. rewrite normalize_String.
  destruct (resolved_fixed (String c0 p0)) as [Hall Hfix].
  set (p := String c0 p0) in *.
  destruct (JS.join "/" (Path.resolved p)) as [|c body] eqn:Hbody.
  { assert (Path.resolved p = []) as Hnil.
    { destruct (Path.resolved p) as [|seg segs]; [done|].
      apply Forall_cons in Hall as [[Hseg _] _].
      destruct seg; [done|]. unfold JS.join in Hbody.
      by destruct segs. }
    rewrite Hnil. destruct (Path.isAbsolute p) eqn:Habs; [done|].
    by destruct (Path.endsWithSlash p). }
  destruct (resolved_rendered _ _ _ _ (Path.endsWithSlash p) Hall Hbody Hfix)
    as [Hc Hsegs].
  destruct (Path.isAbsolute p) eqn:Habs.
  - split; [done|]. unfold Path.resolved at 1, Path.normalizeSegments.
    assert (Path.isAbsolute
              ("/" +:+ (if Path.endsWithSlash p then String c body +:+ "/"
                        else String c body)) = true) as -> by done.
    change (JS.splitSlash ("/" +:+ ?s)) with ("" :: JS.splitSlash s).
    cbn [fold_left negb] in *.
    rewrite pushSegment_skip by by left.
    by rewrite Hsegs, rev_involutive.
  - assert (Habs' : Path.isAbsolute
                      (if Path.endsWithSlash p then String c body +:+ "/"
                       else String c body) = false).
    { destruct (Path.endsWithSlash p);
        by rewrite ?app_String, isAbsolute_String. }
    split; [done|]. unfold Path.resolved at 1, Path.normalizeSegments.
    rewrite Habs'. by rewrite Hsegs, rev_involutive.
Qed.

Lemma inside_normalize root p :
  Path.isAbsolute p = Path.isAbsolute root →
  Path.resolved root `prefix_of` Path.resolved p →
  Path.inside root (Path.normalize p) = true.
Proof.
  intros Habs Hpre. destruct (normalize_denotes p) as [Ha Hr].
  unfold Path.inside. rewrite Ha, Hr, Habs, Bool.eqb_reflx.
  by rewrite bool_decide_eq_true_2.
Qed.

(** Below a root, a key without [..] segments resolves to the segments of
    the root followed by the names of the key. *)
Lemma resolved_below root key :
  root ≠ "" →
  ".." ∉ JS.splitSlash key →
  Path.isAbsolute (root +:+ "/" +:+ key) = Path.isAbsolute root
  ∧ Path.resolved (root +:+ "/" +:+ key)
    = Path.resolved root ++ names (JS.splitSlash key).
Proof.
  intros Hroot Hkey. destruct root as [|c root]; [done|].
  assert (Habs : Path.isAbsolute (String c root +:+ "/" +:+ key)
                 = Path.isAbsolute (String c root)).
  { by rewrite app_String, !isAbsolute_String. }
  split; [done|]. unfold Path.resolved, Path.normalizeSegments.
  rewrite Habs, splitSlash_glue, fold_left_app, fold_names by done.
  by rewrite rev_app_distr, rev_involutive.
Qed.

(** X1: the sibling of C1 for the write paths: whatever the key, the file
    that [uploadFile] and [uploadBuffer] write lies inside the root. *)
Theorem upload_destination_inside_root (this : LocalStorageAdapter.t)
    (destinationKey : string) :
  Path.inside (LocalStorageAdapter.uploadsDir this)
    (Path.join [LocalStorageAdapter.uploadsDir this;
                LocalStorageAdapter.safeKey destinationKey]) = true.
Proof.
  assert (Hdots : JS.includes ".." (LocalStorageAdapter.safeKey destinationKey)
                  = false).
  { apply stripLeadingSlashes_includes, removeDotDot_no_dotdot. }
  assert (Hslash : JS.startsWith "/"
                     (LocalStorageAdapter.safeKey destinationKey) = false).
  { apply stripLeadingSlashes_no_slash. }
  set (root := LocalStorageAdapter.uploadsDir this).
  set (key := LocalStorageAdapter.safeKey destinationKey) in *.
  unfold Path.join. rewrite !filter_cons, filter_nil.
  destruct (decide (root ≠ "")) as [Hroot|Hroot],
           (decide (key ≠ "")) as [Hkey|Hkey].
  - destruct (resolved_below root key Hroot) as [Habs Hres];
      [by apply splitSlash_no_dotdot|].
    change (JS.join "/" [root; key]) with (root +:+ "/" +:+ key).
    apply inside_normalize; [done|]. rewrite Hres. by apply prefix_app_r.
  - by apply inside_normalize.
  - apply dec_stable in Hroot as ->. apply inside_normalize; [done|].
    apply prefix_nil.
  - by apply dec_stable in Hroot as ->.
Qed.

End PathFacts.

(** ** Running the effects *)

Section IOFacts.

Context {A B : Type}.

Lemma bind_returned (m : IO A) (k : A → IO B) n a evs n' :
  m n = (Returned a, evs, n') →
  (m ≫= k) n
  = (let '(o, evs', n'') := k a n' in (o, evs ++ evs', n'')).
Proof. intros H. unfold mbind, IO_bind. by rewrite H. Qed.

Lemma bind_thrown (m : IO A) (k : A → IO B) n e evs n' :
  m n = (Thrown e, evs, n') → (m ≫= k) n = (Thrown e, evs, n').
Proof. intros H. unfold mbind, IO_bind. by rewrite H. Qed.

Lemma try_catch_returned (m : IO A) (h : Exn → IO A) n a evs n' :
  m n = (Returned a, evs, n') → try_catch m h n = (Returned a, evs, n').
Proof. intros H. unfold try_catch. by rewrite H. Qed.

Lemma try_catch_thrown (m : IO A) (h : Exn → IO A) n e evs n' :
  m n = (Thrown e, evs, n') →
  try_catch m h n
  = (let '(o, evs', n'') := h e n' in (o, evs ++ evs', n'')).
Proof. intros H. unfold try_catch. by rewrite H. Qed.

End IOFacts.


(** ** The factory's constructors *)

Section FactoryFacts.

Import StorageFactory.

Lemma healthChecks_app evs1 evs2 :
  healthChecks (evs1 ++ evs2) = healthChecks evs1 + healthChecks evs2.
Proof. induction evs1 as [|ev evs1 IH]; [done|]. cbn. rewrite IH. lia. Qed.

(** The local constructor returns when the root is configured or the
    working directory can be read, and throws the error of [process.cwd()]
    otherwise, after the object has been made. *)
Lemma createLocalAdapter_run w dir n :
  localRootKnown w dir →
  createLocalAdapter w n
  = (Returned (localAdapterOf w dir n), localInitLog n, S n).
Proof.
  unfold localRootKnown, createLocalAdapter, LocalStorageAdapter.new,
    localAdapterOf, localRootOf, process_cwd.
  destruct (env w !! "UPLOADS_DIR") as [[|c s]|]; cbn [JS.truthy];
    intros [H|H]; try done; by rewrite ?H.
Qed.

Lemma createLocalAdapter_lost w e n :
  localRootLost w e →
  createLocalAdapter w n = (Thrown e, [New local n], S n).
Proof.
  unfold localRootLost, createLocalAdapter, LocalStorageAdapter.new,
    process_cwd.
  destruct (env w !! "UPLOADS_DIR") as [[|c s]|]; cbn [JS.truthy];
    intros [H1 H2]; try done; by rewrite H2.
Qed.

Lemma localRoot_cases w :
  (∃ dir, localRootKnown w dir) ∨ (∃ e, localRootLost w e).
Proof.
  unfold localRootKnown, localRootLost.
  destruct (JS.truthy (env w !! "UPLOADS_DIR")); [left; exists ""; by left|].
  destruct (cwd w) as [dir|e]; [left; exists dir; by right|right; by exists e].
Qed.

Lemma createLocalAdapter_quiet w n :
  ∃ o evs, createLocalAdapter w n = (o, evs, S n) ∧ healthChecks evs = 0.
Proof.
  destruct (localRoot_cases w) as [[dir H]|[e H]].
  - rewrite (createLocalAdapter_run w dir n H). by eexists _, _.
  - rewrite (createLocalAdapter_lost w e n H). by eexists _, _.
Qed.

(** A health check of a remote adapter answers, and probes the bucket at
    most once. *)
Lemma r2_healthCheck_run this w n :
  ∃ b evs, CloudFlareR2Adapter.healthCheck this w n = (Returned b, evs, n)
    ∧ (healthChecks evs ≤ 1)%nat.
Proof.
  unfold CloudFlareR2Adapter.healthCheck, CloudFlareR2Adapter.getS3Client.
  io_unfold.
  destruct (importError w "@aws-sdk/client-s3");
    [by eexists _, _; split; [reflexivity|cbv; lia]|].
  destruct (headBucketError w);
    by eexists _, _; split; [reflexivity|cbv; lia].
Qed.

Lemma s3_healthCheck_run this w n :
  ∃ b evs, S3CloudFrontAdapter.healthCheck this w n = (Returned b, evs, n)
    ∧ (healthChecks evs ≤ 1)%nat.
Proof.
  unfold S3CloudFrontAdapter.healthCheck, S3CloudFrontAdapter.getS3Client.
  io_unfold.
  destruct (importError w "@aws-sdk/client-s3");
    [by eexists _, _; split; [reflexivity|cbv; lia]|].
  destruct (headBucketError w);
    by eexists _, _; split; [reflexivity|cbv; lia].
Qed.

(** The two constructors of remote adapters return or throw after at most
    one probe. *)
Lemma createCloudFlareR2Adapter_run w n :
  ∃ o evs n', createCloudFlareR2Adapter w n = (o, evs, n')
    ∧ (healthChecks evs ≤ 1)%nat.
Proof.
  unfold createCloudFlareR2Adapter.
  destruct (Nat.ltb _ _); [by eexists _, _, _; split; [reflexivity|cbv; lia]|].
  set (this := CloudFlareR2Adapter.new _ _ _ _ _ _).
  destruct (r2_healthCheck_run this w (S n)) as (b & evs & Hrun & Hevs).
  unfold alloc, mbind, IO_bind. cbn [StorageAdapter.healthCheck
    CloudFlareR2Adapter.adapter]. fold this. rewrite Hrun.
  destruct b; cbn; eexists _, _, _; (split; [reflexivity|]);
    cbn; rewrite healthChecks_app; cbn; lia.
Qed.

Lemma createS3CloudFrontAdapter_run w n :
  ∃ o evs n', createS3CloudFrontAdapter w n = (o, evs, n')
    ∧ (healthChecks evs ≤ 1)%nat.
Proof.
  unfold createS3CloudFrontAdapter.
  destruct (Nat.ltb _ _); [by eexists _, _, _; split; [reflexivity|cbv; lia]|].
  match goal with |- context [S3CloudFrontAdapter.adapter ?t] => set (this := t) end.
  destruct (s3_healthCheck_run this w (S n)) as (b & evs & Hrun & Hevs).
  unfold alloc, mbind, IO_bind. cbn [StorageAdapter.healthCheck
    S3CloudFrontAdapter.adapter]. rewrite Hrun.
  destruct b; cbn; eexists _, _, _; (split; [reflexivity|]);
    cbn; rewrite healthChecks_app; cbn; lia.
Qed.

(** Whatever its outcome, [createAdapter] sends at most one probe. *)
Lemma createAdapter_runs w n :
  ∃ o evs n', createAdapter w n = (o, evs, n')
    ∧ (healthChecks evs ≤ 1)%nat.
Proof.
  unfold createAdapter.
  set (body := createByProvider _ w).
  assert (Hbody : ∃ o evs n', body n = (o, evs, n')
                    ∧ (healthChecks evs ≤ 1)%nat).
  { subst body. unfold createByProvider.
    destruct (String.eqb _ "cloudflare-r2");
      [apply createCloudFlareR2Adapter_run|].
    destruct (String.eqb _ "s3-cloudfront");
      [apply createS3CloudFrontAdapter_run|].
    destruct (createLocalAdapter_quiet w n) as (o & evs & -> & Hq).
    eexists _, _, _. split; [done|lia]. }
  destruct Hbody as (o & evs & n' & Hbody & Hevs).
  unfold console_log, emit, mbind, IO_bind, try_catch. rewrite Hbody.
  destruct o as [a|e].
  - eexists _, _, _. split; [reflexivity|]. cbn. lia.
  - unfold console_error, console_warn, emit.
    destruct (createLocalAdapter_quiet w n') as (o & evs' & -> & Hq).
    eexists _, _, _. split; [reflexivity|].
    rewrite !healthChecks_app, Hq. cbn. lia.
Qed.

(** When the local adapter can be constructed, [createAdapter] cannot
    fail: whatever else the environment and the network answer, it returns
    an adapter, after at most one probe. *)
Lemma createAdapter_returns w dir n :
  localRootKnown w dir →
  ∃ a evs n', createAdapter w n = (Returned a, evs, n')
    ∧ (healthChecks evs ≤ 1)%nat.
Proof.
  intros Hroot.
  destruct (createAdapter_runs w n) as (o & evs & n' & Hrun & Hevs).
  destruct o as [a|e]; [by eexists _, _, _|]. exfalso.
  unfold createAdapter, console_log, emit, mbind, IO_bind, try_catch in Hrun.
  destruct (createByProvider _ w n) as [[[a|e'] evs1] n1]; [done|].
  unfold console_error, console_warn, emit in Hrun.
  by rewrite (createLocalAdapter_run w dir n1 Hroot) in Hrun.
Qed.

End FactoryFacts.

(** ** Provider selection and fallback *)

Section Fallback.

Import StorageFactory.

Lemma getAdapter_fresh w st a evs n :
  instance st = None →
  initializationPromise st = None →
  createAdapter w (allocated st) = (Returned a, evs, n) →
  getAdapter w st = (Returned a, afterConstruction a evs n st).
Proof.
  intros Hi Hp Hc. unfold getAdapter, enter. rewrite Hi, Hp, Hc. cbn.
  unfold afterConstruction. rewrite bool_decide_eq_true_2 by lia. done.
Qed.

Lemma getAdapter_fresh_rejected w st e evs n :
  instance st = None →
  initializationPromise st = None →
  createAdapter w (allocated st) = (Thrown e, evs, n) →
  getAdapter w st = (Thrown e, afterRejection e evs n st).
Proof.
  intros Hi Hp Hc. unfold getAdapter, enter. rewrite Hi, Hp, Hc. cbn.
  unfold afterRejection, settle. cbn.
  rewrite bool_decide_eq_true_2 by lia. done.
Qed.

(** A rejected promise that is left in the field answers every later
    call, in every world. *)
Lemma getAdapter_stuck w st p :
  instance st = None →
  initializationPromise st = Some p →
  number p ∈ settled st →
  getAdapter w st = (result p, st).
Proof.
  intros Hi Hp Hs. unfold getAdapter, enter. rewrite Hi, Hp.
  f_equal. destruct st as [i ip cr se al ev]. unfold settle. cbn in *.
  f_equal. case_bool_decide; [|done].
  by apply subseteq_union_1_L, singleton_subseteq_l.
Qed.

Lemma afterRejection_stuck w e evs n st :
  getAdapter w (afterRejection e evs n st)
  = (Thrown e, afterRejection e evs n st).
Proof.
  apply (getAdapter_stuck w _ {| number := created st; result := Thrown e |});
    [done..|]. cbn. apply elem_of_union_l. by apply elem_of_singleton.
Qed.

Lemma missingFields_spec w required field :
  field ∈ missingFields w required
  ↔ ∃ variable, (field, variable) ∈ required
                ∧ JS.truthy (env w !! variable) = false.
Proof.
  unfold missingFields. rewrite list_elem_of_omap. split.
  - intros ([f v] & Hin & Hv). cbn in Hv.
    destruct (JS.truthy (env w !! v)) eqn:Ht; [done|]. simplify_eq.
    by exists v.
  - intros (v & Hin & Hv). exists (field, v). split; [done|]. cbn.
    by rewrite Hv.
Qed.

(** The list the constructors compute from their configuration object is
    the list of the fields whose variable is missing. *)
Lemma missingConfig_variables w required :
  missingConfig (map (λ entry : string * string,
                        (entry.1, env w !! entry.2)) required)
  = missingFields w required.
Proof.
  unfold missingConfig, missingFields.
  induction required as [|[field variable] required IH]; [done|].
  cbn [map omap list_omap fst snd]. rewrite filter_cons. cbn [snd].
  destruct (JS.truthy (env w !! variable)).
  - rewrite decide_False by (intros H; by apply H). done.
  - rewrite decide_True by (by intros H). cbn. by rewrite IH.
Qed.

Lemma length_pos_ltb {A} (l : list A) : l ≠ [] → Nat.ltb 0 (length l) = true.
Proof. destruct l; [done|]. intros _. done. Qed.

Lemma createByProvider_missing w provider label required n :
  requiredVariables provider = Some (label, required) →
  missingFields w required ≠ [] →
  createByProvider provider w n
  = (Thrown (Error (missingConfigError label (missingFields w required))),
     [], n).
Proof.
  unfold requiredVariables, createByProvider. intros Hsel Hmiss.
  destruct (String.eqb provider "cloudflare-r2").
  - simplify_eq. unfold createCloudFlareR2Adapter.
    rewrite <- missingConfig_variables in Hmiss |- *.
    change (map _ _) with (r2Config w) in Hmiss |- *.
    by rewrite length_pos_ltb.
  - destruct (String.eqb provider "s3-cloudfront"); [|done].
    simplify_eq. unfold createS3CloudFrontAdapter.
    rewrite <- missingConfig_variables in Hmiss |- *.
    change (map _ _) with (s3RequiredConfig w) in Hmiss |- *.
    by rewrite length_pos_ltb.
Qed.

Lemma requiredVariables_provider provider label required w :
  requiredVariables provider = Some (label, required) →
  env w !! "STORAGE_PROVIDER" = Some provider →
  getConfiguredProvider w = provider.
Proof.
  unfold requiredVariables, getConfiguredProvider. intros Hreq ->.
  by destruct provider.
Qed.

(** X28: when [STORAGE_PROVIDER] selects a remote provider and one of the
    environment variables that provider requires (for R2 the account id,
    the two access keys, the bucket name and the CDN domain; for S3 the
    region, the two access keys, the bucket name and the CloudFront
    domain) is unset or empty, the constructor of that provider throws at
    once, before any object is made or any network call attempted, an
    error that names exactly the fields whose variable is missing; and,
    when the local adapter can be constructed (its root is configured or
    the working directory can be read), a fresh [getAdapter()] does not
    raise but returns the local adapter, after logging the failure and the
    fallback. *)
Theorem cdn_misconfigured_falls_back (w : World) (st : State)
    (provider label : string) (required : list (string * string))
    (dir : string) :
  env w !! "STORAGE_PROVIDER" = Some provider →
  requiredVariables provider = Some (label, required) →
  missingFields w required ≠ [] →
  localRootKnown w dir →
  instance st = None →
  initializationPromise st = None →
  let message := missingConfigError label (missingFields w required) in
  (∀ n, createByProvider provider w n = (Thrown (Error message), [], n))
  ∧ (∀ field, field ∈ missingFields w required
        ↔ ∃ variable, (field, variable) ∈ required
                      ∧ JS.truthy (env w !! variable) = false)
  ∧ ∃ a st',
      getAdapter w st = (Returned a, st')
      ∧ a = localAdapterOf w dir (allocated st)
      ∧ StorageAdapter.type a = local
      ∧ instance st' = Some a
      ∧ events st' = events st ++ fallbackLog provider message (allocated st)
      ∧ forallb (λ ev, negb (isNet ev))
          (fallbackLog provider message (allocated st)) = true.
Proof.
  intros Hprov Hsel Hmiss Hroot Hi Hp message. split_and!.
  - intros n. by apply createByProvider_missing.
  - apply missingFields_spec.
  - eexists _, _. split_and!.
    + apply getAdapter_fresh; [done..|].
      unfold createAdapter, console_log, mbind, IO_bind, try_catch, emit.
      rewrite (requiredVariables_provider _ _ _ _ Hsel Hprov).
      rewrite (createByProvider_missing w provider label required _ Hsel Hmiss).
      unfold console_error, console_warn, emit.
      rewrite (createLocalAdapter_run w dir _ Hroot). reflexivity.
    + done.
    + done.
    + done.
    + done.
    + done.
Qed.

Lemma cdn_misconfigured_falls_back_witness :
  (let w := calm {[ "STORAGE_PROVIDER" := "s3-cloudfront";
                    "AWS_REGION" := "eu-west-1";
                    "AWS_S3_BUCKET_NAME" := "" ]} in
   let message :=
     "Missing AWS S3/CloudFront configuration: accessKeyId, secretAccessKey, bucketName, cloudFrontDomain. Please set the required environment variables." in
   (∀ n, createByProvider "s3-cloudfront" w n
         = (Thrown (Error message), [], n))
   ∧ ∃ a st',
       getAdapter w initial = (Returned a, st')
       ∧ a = localAdapterOf w "/srv/app" 0
       ∧ StorageAdapter.type a = local
       ∧ instance st' = Some a
       ∧ events st' = fallbackLog "s3-cloudfront" message 0)
  ∧ (let w := calm {[ "STORAGE_PROVIDER" := "cloudflare-r2";
                      "CLOUDFLARE_ACCOUNT_ID" := "acc";
                      "CLOUDFLARE_R2_ACCESS_KEY_ID" := "key";
                      "CLOUDFLARE_R2_SECRET_ACCESS_KEY" := "secret";
                      "CLOUDFLARE_R2_BUCKET_NAME" := "bucket" ]} in
     let message :=
       "Missing CloudFlare R2 configuration: cdnDomain. Please set the required environment variables." in
     (∀ n, createByProvider "cloudflare-r2" w n
           = (Thrown (Error message), [], n))
     ∧ ∃ a st',
         getAdapter w initial = (Returned a, st')
         ∧ a = localAdapterOf w "/srv/app" 0
         ∧ StorageAdapter.type a = local
         ∧ instance st' = Some a
         ∧ events st' = fallbackLog "cloudflare-r2" message 0).
Proof.
  split.
  - destruct (cdn_misconfigured_falls_back
                (calm {[ "STORAGE_PROVIDER" := "s3-cloudfront";
                         "AWS_REGION" := "eu-west-1";
                         "AWS_S3_BUCKET_NAME" := "" ]})
                initial "s3-cloudfront" "AWS S3/CloudFront"
                [ ("region", "AWS_REGION");
                  ("accessKeyId", "AWS_ACCESS_KEY_ID");
                  ("secretAccessKey", "AWS_SECRET_ACCESS_KEY");
                  ("bucketName", "AWS_S3_BUCKET_NAME");
                  ("cloudFrontDomain", "AWS_CLOUDFRONT_DOMAIN") ]
                "/srv/app")
      as (Hthrow & _ & a & st' & Hget & Ha & Htype & Hinst & Hev & _);
      [reflexivity | reflexivity | vm_compute; discriminate
       | right; reflexivity | reflexivity | reflexivity |].
    split; [exact Hthrow|]. exists a, st'. split_and!; done.
  - destruct (cdn_misconfigured_falls_back
                (calm {[ "STORAGE_PROVIDER" := "cloudflare-r2";
                         "CLOUDFLARE_ACCOUNT_ID" := "acc";
                         "CLOUDFLARE_R2_ACCESS_KEY_ID" := "key";
                         "CLOUDFLARE_R2_SECRET_ACCESS_KEY" := "secret";
                         "CLOUDFLARE_R2_BUCKET_NAME" := "bucket" ]})
                initial "cloudflare-r2" "CloudFlare R2"
                [ ("accountId", "CLOUDFLARE_ACCOUNT_ID");
                  ("accessKeyId", "CLOUDFLARE_R2_ACCESS_KEY_ID");
                  ("secretAccessKey", "CLOUDFLARE_R2_SECRET_ACCESS_KEY");
                  ("bucketName", "CLOUDFLARE_R2_BUCKET_NAME");
                  ("cdnDomain", "CLOUDFLARE_R2_CDN_DOMAIN") ]
                "/srv/app")
      as (Hthrow & _ & a & st' & Hget & Ha & Htype & Hinst & Hev & _);
      [reflexivity | reflexivity | vm_compute; discriminate
       | right; reflexivity | reflexivity | reflexivity |].
    split; [exact Hthrow|]. exists a, st'. split_and!; done.
Defined.

(** C4, as stated, fails when the local adapter cannot be constructed
    either.  R2 is selected and none of its variables is set, no
    [UPLOADS_DIR] is set and the working directory of the process has been
    removed: the R2 constructor throws for the missing configuration, the
    [catch] block logs and calls [createLocalAdapter()] unprotected, its
    constructor calls [process.cwd()], which throws; [getAdapter()]
    rejects, nothing is cached, and the rejected promise stays in the
    field, so that every later call is rejected too. *)
Lemma misconfigured_cdn_fallback_rejects :
  let w := adrift {[ "STORAGE_PROVIDER" := "cloudflare-r2" ]} in
  let evs :=
    [Console LogLevel "Initializing storage provider: cloudflare-r2" None;
     Console ErrorLevel
       "Failed to initialize cloudflare-r2 storage adapter:"
       (Some "Error: Missing CloudFlare R2 configuration: accountId, accessKeyId, secretAccessKey, bucketName, cdnDomain. Please set the required environment variables.");
     Console WarnLevel "Falling back to local storage adapter" None;
     New local 0] in
  let rejected := afterRejection uv_cwd evs 1 initial in
  createAdapter w 0 = (Thrown uv_cwd, evs, 1)
  ∧ getAdapter w initial = (Thrown uv_cwd, rejected)
  ∧ (¬ ∃ a st', getAdapter w initial = (Returned a, st'))
  ∧ instance rejected = None
  ∧ ∀ w', getAdapter w' rejected = (Thrown uv_cwd, rejected).
Proof.
  cbn zeta.
  assert (Hc : createAdapter (adrift {[ "STORAGE_PROVIDER" := "cloudflare-r2" ]})
                 0
               = (Thrown uv_cwd,
                  [Console LogLevel
                     "Initializing storage provider: cloudflare-r2" None;
                   Console ErrorLevel
                     "Failed to initialize cloudflare-r2 storage adapter:"
                     (Some "Error: Missing CloudFlare R2 configuration: accountId, accessKeyId, secretAccessKey, bucketName, cdnDomain. Please set the required environment variables.");
                   Console WarnLevel "Falling back to local storage adapter"
                     None;
                   New local 0], 1)) by reflexivity.
  assert (Hg := getAdapter_fresh_rejected _ initial _ _ _ eq_refl eq_refl Hc).
  split_and!; [done|done| |done|].
  - intros (a & st' & H). rewrite Hg in H. discriminate H.
  - intros w'. apply afterRejection_stuck.
Qed.

Lemma createAdapter_local w dir n :
  getConfiguredProvider w ≠ "cloudflare-r2" →
  getConfiguredProvider w ≠ "s3-cloudfront" →
  localRootKnown w dir →
  createAdapter w n
  = (Returned (localAdapterOf w dir n),
     Console LogLevel
       ("Initializing storage provider: " +:+ getConfiguredProvider w) None
     :: localInitLog n,
     S n).
Proof.
  intros H1%String.eqb_neq H2%String.eqb_neq Hroot.
  unfold createAdapter, createByProvider. rewrite H1, H2.
  unfold console_log, emit, mbind, IO_bind, try_catch.
  by rewrite (createLocalAdapter_run w dir n Hroot).
Qed.

Lemma localAdapterOf_provider w provider dir n :
  localAdapterOf (withEnv (<["STORAGE_PROVIDER" := provider]> (env w)) w) dir n
  = localAdapterOf w dir n.
Proof.
  unfold localAdapterOf, localRootOf. cbn [env withEnv].
  by rewrite !lookup_insert_ne.
Qed.

Lemma localRootKnown_provider w provider dir :
  localRootKnown w dir →
  localRootKnown (withEnv (<["STORAGE_PROVIDER" := provider]> (env w)) w) dir.
Proof.
  unfold localRootKnown. cbn [env cwd withEnv].
  by rewrite lookup_insert_ne.
Qed.

Lemma getConfiguredProvider_local w :
  getConfiguredProvider (withEnv (<["STORAGE_PROVIDER" := "local"]> (env w)) w)
  = "local".
Proof.
  unfold getConfiguredProvider. cbn [env withEnv].
  by rewrite lookup_insert_eq.
Qed.

(** X29: when [STORAGE_PROVIDER] is neither [cloudflare-r2] nor
    [s3-cloudfront] (unset and empty included) and the local adapter can be
    constructed (its root is configured or the working directory can be
    read), a fresh [getAdapter()] returns the local adapter with no error,
    no warning, no remote constructor and no network call; the adapter and
    the resulting state are those obtained with [STORAGE_PROVIDER=local],
    the echo of the provider name in the first log line apart. *)
Theorem unrecognised_provider_is_local (w : World) (st : State)
    (dir : string) :
  JS.or_else (env w !! "STORAGE_PROVIDER") "local" ≠ "cloudflare-r2" →
  JS.or_else (env w !! "STORAGE_PROVIDER") "local" ≠ "s3-cloudfront" →
  localRootKnown w dir →
  instance st = None →
  initializationPromise st = None →
  let a := localAdapterOf w dir (allocated st) in
  let asLocal := withEnv (<["STORAGE_PROVIDER" := "local"]> (env w)) w in
  let logged provider :=
    Console LogLevel ("Initializing storage provider: " +:+ provider) None
    :: localInitLog (allocated st) in
  getAdapter w st
  = (Returned a,
     afterConstruction a
       (logged (JS.or_else (env w !! "STORAGE_PROVIDER") "local"))
       (S (allocated st)) st)
  ∧ getAdapter asLocal st
    = (Returned a,
       afterConstruction a (logged "local") (S (allocated st)) st)
  ∧ StorageAdapter.type a = local.
Proof.
  intros H1 H2 Hroot Hi Hp a asLocal logged. split_and!; [| |done].
  - apply getAdapter_fresh; [done..|]. by apply createAdapter_local.
  - subst a asLocal logged. apply getAdapter_fresh; [done..|].
    rewrite (createAdapter_local _ dir);
      rewrite ?getConfiguredProvider_local;
      [|done..|by apply localRootKnown_provider].
    by rewrite localAdapterOf_provider.
Qed.

Lemma unrecognised_provider_is_local_witness :
  let w := calm {[ "STORAGE_PROVIDER" := "cloudflare_r2" ]} in
  let a := localAdapterOf w "/srv/app" 0 in
  let asLocal := withEnv (<["STORAGE_PROVIDER" := "local"]> (env w)) w in
  let logged provider :=
    Console LogLevel ("Initializing storage provider: " +:+ provider) None
    :: localInitLog 0 in
  getAdapter w initial
  = (Returned a, afterConstruction a (logged "cloudflare_r2") 1 initial)
  ∧ getAdapter asLocal initial
    = (Returned a, afterConstruction a (logged "local") 1 initial)
  ∧ StorageAdapter.type a = local.
Proof.
  intros w.
  apply (unrecognised_provider_is_local w initial "/srv/app");
    [vm_compute; discriminate | vm_compute; discriminate
     | right; reflexivity | reflexivity | reflexivity].
Defined.

(** C10, as stated, fails when the local adapter cannot be constructed.
    With a misspelt provider, no [UPLOADS_DIR] and the working directory
    of the process removed, the constructor of the local adapter throws in
    the [switch]; the failure is logged with a warning, the constructor is
    called again from the [catch] block and throws again; [getAdapter()]
    rejects, and so does every later call, in a sound process as well. *)
Lemma unrecognised_provider_rejects :
  let w := adrift {[ "STORAGE_PROVIDER" := "cloudflare_r2" ]} in
  let evs :=
    [Console LogLevel "Initializing storage provider: cloudflare_r2" None;
     New local 0;
     Console ErrorLevel
       "Failed to initialize cloudflare_r2 storage adapter:"
       (Some "Error: ENOENT: no such file or directory, uv_cwd");
     Console WarnLevel "Falling back to local storage adapter" None;
     New local 1] in
  let rejected := afterRejection uv_cwd evs 2 initial in
  createAdapter w 0 = (Thrown uv_cwd, evs, 2)
  ∧ getAdapter w initial = (Thrown uv_cwd, rejected)
  ∧ (¬ ∃ a st', getAdapter w initial = (Returned a, st'))
  ∧ instance rejected = None
  ∧ ∀ w', getAdapter w' rejected = (Thrown uv_cwd, rejected).
Proof.
  cbn zeta.
  assert (Hc : createAdapter (adrift {[ "STORAGE_PROVIDER" := "cloudflare_r2" ]})
                 0
               = (Thrown uv_cwd,
                  [Console LogLevel
                     "Initializing storage provider: cloudflare_r2" None;
                   New local 0;
                   Console ErrorLevel
                     "Failed to initialize cloudflare_r2 storage adapter:"
                     (Some "Error: ENOENT: no such file or directory, uv_cwd");
                   Console WarnLevel "Falling back to local storage adapter"
                     None;
                   New local 1], 2)) by reflexivity.
  assert (Hg := getAdapter_fresh_rejected _ initial _ _ _ eq_refl eq_refl Hc).
  split_and!; [done|done| |done|].
  - intros (a & st' & H). rewrite Hg in H. discriminate H.
  - intros w'. apply afterRejection_stuck.
Qed.

End Fallback.

(** ** Concurrent callers of the factory *)

Section ScheduleFacts.

Import StorageFactory.

Lemma run_snoc acts act m : run (acts ++ [act]) m = step (run acts m) act.
Proof. unfold run. by rewrite fold_left_app. Qed.

Lemma run_app acts1 acts2 m : run (acts1 ++ acts2) m = run acts2 (run acts1 m).
Proof. unfold run. by rewrite fold_left_app. Qed.

Lemma step_first_call w o evs0 n0 :
  createAdapter w 0 = (o, evs0, n0) →
  SingleFlight o evs0 n0 (step start (Call w))
  ∧ length (callers (step start (Call w))) = 1.
Proof.
  intros Hc. unfold step, enter, start, initial; cbn. rewrite Hc; cbn.
  split; [|done]. split; cbn; auto.
Qed.

Lemma step_idle act :
  isCall act = false → step start act = start.
Proof.
  destruct act as [w|p|i|]; [done| | |]; intros _; cbn; done.
Qed.

Lemma step_single_flight o evs0 n0 m act :
  isReset act = false →
  SingleFlight o evs0 n0 m →
  SingleFlight o evs0 n0 (step m act)
  ∧ length (callers (step m act))
    = length (callers m) + (if isCall act then 1 else 0).
Proof.
  intros Hact [Hcr Hal Hev Hf Hcs].
  destruct m as [[inst ip cr st al ev] cs]. cbn in *.
  destruct act as [w|p|i|]; [| | |done].
  - (* a call *)
    unfold step, enter; cbn.
    destruct Hf as [(-> & -> & H0)|(a & -> & -> & -> & H0)]; cbn.
    + split; [|rewrite length_app; cbn; lia].
      split; cbn; auto.
      * left. split_and!; try done.
        destruct H0 as [H0|H0]; [left|by right].
        apply lookup_app_l_Some. done.
      * apply Forall_app. split; [done|]. apply Forall_singleton. auto.
    + split; [|rewrite length_app; cbn; lia].
      split; cbn; eauto 10.
      apply Forall_app. split; [done|]. apply Forall_singleton. auto.
  - (* a promise settles *)
    cbn. split; [|lia]. split; cbn; auto.
    destruct Hf as [?|(a & -> & -> & -> & H0)]; [by left|right].
    exists a. split_and!; try done. case_bool_decide; set_solver.
  - (* a caller is resumed *)
    cbn. destruct (cs !! i) as [c|] eqn:Hi; cbn; [|split; [by split|lia]].
    assert (Hc : c = Suspended (thePromise o) ∨ c = Following (thePromise o)
                 ∨ c = answeredWith o).
    { eapply Forall_lookup_1 in Hcs; eauto. }
    assert (Hsame : <[i:=c]> cs = cs) by by apply list_insert_id.
    destruct Hc as [-> | [-> | ->]]; cbn.
    + case_bool_decide as Hs; cbn.
      * destruct o as [a|e]; cbn.
        -- rewrite length_insert. split; [|lia]. split; cbn; eauto 10.
           apply Forall_insert; auto.
        -- rewrite length_insert. split; [|lia]. split; cbn; auto.
           ++ destruct Hf as [(-> & -> & H0)|(a & ? & _)]; [|done].
              left. split_and!; try done. by right.
           ++ apply Forall_insert; auto.
      * rewrite Hsame. split; [by split|lia].
    + case_bool_decide as Hs; cbn.
      * destruct o as [a|e]; cbn.
        -- rewrite length_insert. split; [|lia]. split; cbn; auto.
           ++ destruct Hf as [(-> & -> & H0)|?]; [left|by right].
              split_and!; try done. destruct H0 as [H0|H0]; [left|by right].
              destruct (decide (i = 0)) as [->|]; [congruence|].
              by rewrite list_lookup_insert_ne.
           ++ apply Forall_insert; auto.
        -- rewrite length_insert. split; [|lia]. split; cbn; auto.
           ++ destruct Hf as [(-> & -> & H0)|(a & ? & _)]; [|done].
              left. split_and!; try done. by right.
           ++ apply Forall_insert; auto.
      * rewrite Hsame. split; [by split|lia].
    + assert (resume (answeredWith o)
                {| instance := inst; initializationPromise := ip;
                   created := cr; settled := st; allocated := al;
                   events := ev |}
              = (answeredWith o,
                 {| instance := inst; initializationPromise := ip;
                    created := cr; settled := st; allocated := al;
                    events := ev |})) as -> by by destruct o.
      cbn. rewrite Hsame. split; [by split|lia].
Qed.

Lemma noReset_snoc acts act :
  noReset (acts ++ [act]) = noReset acts && negb (isReset act).
Proof. unfold noReset. rewrite forallb_app. cbn. by rewrite andb_true_r. Qed.

Lemma numberOfCalls_snoc acts act :
  numberOfCalls (acts ++ [act])
  = numberOfCalls acts + (if isCall act then 1 else 0).
Proof.
  unfold numberOfCalls. rewrite List.filter_app, length_app. cbn.
  by destruct (isCall act).
Qed.

Lemma firstCall_snoc acts act :
  firstCall (acts ++ [act])
  = match firstCall acts with
    | Some w => Some w
    | None => match act with Call w => Some w | _ => None end
    end.
Proof.
  unfold firstCall. rewrite omap_app.
  destruct (omap _ acts) as [|w ws]; [|done]. by destruct act.
Qed.

Lemma firstCall_none acts : numberOfCalls acts = 0 → firstCall acts = None.
Proof.
  induction acts as [|act acts IH] using rev_ind; [done|].
  rewrite numberOfCalls_snoc, firstCall_snoc. intros H.
  rewrite IH by lia. destruct act; cbn in *; [lia|done..].
Qed.

(** Every schedule without [reset] leaves the process untouched, as long
    as nobody has called, or in single flight from the first call on. *)
Lemma schedule_single_flight acts :
  noReset acts = true →
  (numberOfCalls acts = 0 ∧ run acts start = start)
  ∨ (∃ w0 o evs0 n0,
       firstCall acts = Some w0
       ∧ createAdapter w0 0 = (o, evs0, n0)
       ∧ SingleFlight o evs0 n0 (run acts start)
       ∧ length (callers (run acts start)) = numberOfCalls acts).
Proof.
  induction acts as [|act acts IH] using rev_ind; [by left|].
  rewrite noReset_snoc. intros [Hacts Hact%negb_true_iff]%andb_true_iff.
  rewrite run_snoc, numberOfCalls_snoc, firstCall_snoc.
  destruct (IH Hacts) as [[Hn ->]|(w0 & o & evs0 & n0 & Hw & Hc & Hsf & Hlen)].
  - rewrite (firstCall_none acts Hn), Hn.
    destruct (isCall act) eqn:Hcall.
    + right. destruct act as [w| | |]; try done.
      destruct (createAdapter_runs w 0) as (o & evs0 & n0 & Hc & _).
      destruct (step_first_call w o evs0 n0 Hc) as [Hsf Hlen].
      by exists w, o, evs0, n0.
    + left. split; [lia|]. by apply step_idle.
  - right. exists w0, o, evs0, n0. rewrite Hw.
    destruct (step_single_flight o evs0 n0 _ act Hact Hsf) as [Hsf' Hlen'].
    split_and!; try done. by rewrite Hlen', Hlen.
Qed.

Lemma resume_settled o evs0 n0 k m :
  SingleFlight o evs0 n0 m →
  0 ∈ settled (process m) →
  k ≤ length (callers m) →
  SingleFlight o evs0 n0 (run (map Resume (seq 0 k)) m)
  ∧ 0 ∈ settled (process (run (map Resume (seq 0 k)) m))
  ∧ length (callers (run (map Resume (seq 0 k)) m)) = length (callers m)
  ∧ ∀ i, i < k →
      callers (run (map Resume (seq 0 k)) m) !! i = Some (answeredWith o).
Proof.
  intros Hsf Hs. induction k as [|k IH]; intros Hk.
  { split_and!; try done. intros; lia. }
  rewrite seq_S, map_app, run_app. cbn [map run fold_left Nat.add].
  destruct IH as (Hsf' & Hs' & Hlen & Hdone); [lia|].
  set (m' := run _ m) in *.
  destruct (step_single_flight o evs0 n0 m' (Resume k) eq_refl Hsf')
    as [Hsf'' Hlen''].
  cbn [isCall] in Hlen''. rewrite Nat.add_0_r in Hlen''.
  split_and!; try done; try lia.
  - clear -Hs'. cbn. destruct (callers m' !! k) as [c|]; [|done].
    destruct c as [p|p| |]; cbn; try done;
      case_bool_decide; try done; by destruct (result p).
  - intros i Hi.
    destruct (lookup_lt_is_Some_2 (callers m') k) as [c Hc]; [lia|].
    assert (Hcase := Forall_lookup_1 _ _ _ _ (sf_callers _ _ _ _ Hsf') Hc).
    cbn. rewrite Hc.
    destruct (resume c (process m')) as [c' st'] eqn:Hres. cbn.
    destruct (decide (i = k)) as [->|Hne].
    + rewrite list_lookup_insert_eq by lia. f_equal.
      destruct Hcase as [-> | [-> | ->]]; destruct o; cbn in Hres;
        rewrite ?bool_decide_eq_true_2 in Hres by done;
        by simplify_eq.
    + rewrite list_lookup_insert_ne by done. apply Hdone. lia.
Qed.

(** Once everything pending has finished, every caller has received the
    outcome of the one construction, and its adapter, if any, is the
    cached instance. *)
Lemma drain_fulfils o evs0 n0 m :
  SingleFlight o evs0 n0 m →
  SingleFlight o evs0 n0 (run (drain m) m)
  ∧ callers (run (drain m) m)
    = replicate (length (callers m)) (answeredWith o)
  ∧ instance (process (run (drain m) m)) = cachedAfter o.
Proof.
  intros Hsf. unfold drain. rewrite (sf_created _ _ _ _ Hsf). cbn [seq map].
  rewrite run_app. change (run [Settle 0] m) with (step m (Settle 0)).
  destruct (step_single_flight o evs0 n0 m (Settle 0) eq_refl Hsf)
    as [Hsf1 Hlen1].
  cbn [isCall] in Hlen1. rewrite Nat.add_0_r in Hlen1.
  assert (Hs1 : 0 ∈ settled (process (step m (Settle 0)))).
  { cbn. rewrite (sf_created _ _ _ _ Hsf).
    rewrite bool_decide_eq_true_2 by lia. set_solver. }
  destruct (resume_settled o evs0 n0 (length (callers m))
              _ Hsf1 Hs1) as (Hsf2 & Hs2 & Hlen2 & Hdone); [by rewrite Hlen1|].
  assert (Hall : callers (run (map Resume (seq 0 (length (callers m))))
                            (step m (Settle 0)))
                 = replicate (length (callers m)) (answeredWith o)).
  { eapply list_eq_same_length; [done| |].
    - by rewrite length_replicate, Hlen2, Hlen1.
    - intros i x y Hi Hx Hy. rewrite length_replicate in Hi.
      rewrite Hdone in Hx by done.
      apply lookup_replicate in Hy as [-> _]. congruence. }
  split_and!; try done.
  destruct (sf_fields _ _ _ _ Hsf2)
    as [(Hi & _ & [H0|H0])|(a & -> & Hi & _)]; [| |done].
  - rewrite Hall in H0. apply lookup_replicate in H0 as [H0 _].
    by destruct o.
  - by rewrite Hi, H0.
Qed.

Lemma inFlight_bound st : length (inFlight st) ≤ created st.
Proof.
  unfold inFlight. etrans; [apply length_filter|]. by rewrite length_seq.
Qed.

Lemma noReset_prefix acts' acts :
  acts' `prefix_of` acts → noReset acts = true → noReset acts' = true.
Proof.
  intros [rest ->]. unfold noReset. rewrite forallb_app.
  by intros [? _]%andb_true_iff.
Qed.

(** X27: for every number N >= 2 of calls of [getAdapter()] and every
    order in which the callers arrive, the promise settles and the callers
    are resumed ([reset] apart, which is for tests): the construction
    routine has run exactly once, in the world of the first call, with at
    most one health probe; at no moment is more than one construction in
    flight; every caller either has the outcome of that one construction
    or waits for the promise that settles to it; once everything pending
    has finished, all N callers have that outcome; and when the local
    adapter can be constructed in the world of the first call, the outcome
    is an adapter [a]: all N callers hold [a], which is the cached
    instance. *)
Theorem getAdapter_single_flight (acts : list Action) (N : nat) :
  noReset acts = true →
  2 ≤ N →
  numberOfCalls acts = N →
  ∃ w0 o evs0 n0,
    firstCall acts = Some w0
    ∧ createAdapter w0 0 = (o, evs0, n0)
    ∧ created (process (run acts start)) = 1
    ∧ events (process (run acts start)) = evs0
    ∧ healthChecks (events (process (run acts start))) ≤ 1
    ∧ (∀ acts', acts' `prefix_of` acts →
         length (inFlight (process (run acts' start))) ≤ 1)
    ∧ length (callers (run acts start)) = N
    ∧ Forall (λ c, c = Suspended (thePromise o)
                   ∨ c = Following (thePromise o) ∨ c = answeredWith o)
        (callers (run acts start))
    ∧ callers (run (drain (run acts start)) (run acts start))
      = replicate N (answeredWith o)
    ∧ instance (process (run (drain (run acts start)) (run acts start)))
      = cachedAfter o
    ∧ created (process (run (drain (run acts start)) (run acts start))) = 1
    ∧ events (process (run (drain (run acts start)) (run acts start)))
      = evs0
    ∧ ∀ dir, localRootKnown w0 dir →
        ∃ a, o = Returned a
             ∧ callers (run (drain (run acts start)) (run acts start))
               = replicate N (Fulfilled a)
             ∧ instance
                 (process (run (drain (run acts start)) (run acts start)))
               = Some a.
Proof.
  intros Hacts HN Hcalls.
  destruct (schedule_single_flight acts Hacts)
    as [[Hn _]|(w0 & o & evs0 & n0 & Hw & Hc & Hsf & Hlen)]; [lia|].
  exists w0, o, evs0, n0.
  destruct (drain_fulfils o evs0 n0 _ Hsf) as (Hsf' & Hall & Hinst).
  destruct (createAdapter_runs w0 0) as (o' & evs' & n' & Hc' & Hhc).
  assert (evs' = evs0) as -> by congruence.
  split_and!; try done.
  - apply (sf_created _ _ _ _ Hsf).
  - apply (sf_events _ _ _ _ Hsf).
  - by rewrite (sf_events _ _ _ _ Hsf).
  - intros acts' Hpre. etrans; [apply inFlight_bound|].
    destruct (schedule_single_flight acts' (noReset_prefix _ _ Hpre Hacts))
      as [[_ ->]|(? & ? & ? & ? & _ & _ & Hsf0 & _)]; [cbn; lia|].
    by rewrite (sf_created _ _ _ _ Hsf0).
  - lia.
  - apply (sf_callers _ _ _ _ Hsf).
  - by rewrite Hall, Hlen, Hcalls.
  - apply (sf_created _ _ _ _ Hsf').
  - apply (sf_events _ _ _ _ Hsf').
  - intros dir Hroot.
    destruct (createAdapter_returns w0 dir 0 Hroot) as (a & ? & ? & Ha & _).
    exists a. assert (o = Returned a) as -> by congruence.
    split_and!; [done| |done]. by rewrite Hall, Hlen, Hcalls.
Qed.

Lemma getAdapter_single_flight_witness :
  ∃ w0 o evs0 n0,
    let acts := [Call (calm r2Env); Call (calm ∅); Settle 0; Resume 1;
                 Call (calm ∅)] in
    firstCall acts = Some w0
    ∧ createAdapter w0 0 = (o, evs0, n0)
    ∧ created (process (run acts start)) = 1
    ∧ events (process (run acts start)) = evs0
    ∧ healthChecks (events (process (run acts start))) ≤ 1
    ∧ (∀ acts', acts' `prefix_of` acts →
         length (inFlight (process (run acts' start))) ≤ 1)
    ∧ length (callers (run acts start)) = 3
    ∧ Forall (λ c, c = Suspended (thePromise o)
                   ∨ c = Following (thePromise o) ∨ c = answeredWith o)
        (callers (run acts start))
    ∧ callers (run (drain (run acts start)) (run acts start))
      = replicate 3 (answeredWith o)
    ∧ instance (process (run (drain (run acts start)) (run acts start)))
      = cachedAfter o
    ∧ created (process (run (drain (run acts start)) (run acts start))) = 1
    ∧ events (process (run (drain (run acts start)) (run acts start)))
      = evs0
    ∧ ∀ dir, localRootKnown w0 dir →
        ∃ a, o = Returned a
             ∧ callers (run (drain (run acts start)) (run acts start))
               = replicate 3 (Fulfilled a)
             ∧ instance
                 (process (run (drain (run acts start)) (run acts start)))
               = Some a.
Proof.
  apply (getAdapter_single_flight
           [Call (calm r2Env); Call (calm ∅); Settle 0; Resume 1;
            Call (calm ∅)] 3); [reflexivity|lia|reflexivity].
Defined.

(** C3, as stated, fails when the construction fails.  Two callers arrive
    in a process whose working directory has been removed and that has no
    [UPLOADS_DIR]: the one construction rejects, both callers are rejected
    and none holds an adapter; nothing is cached, the rejected promise
    stays in the field, and a caller that arrives later, in a sound world,
    is handed that promise and rejected as well, without a second
    construction. *)
Lemma concurrent_callers_all_rejected :
  let m := run [Call (adrift ∅); Call (adrift ∅); Settle 0; Resume 0;
                Resume 1] start in
  let m' := run [Call (calm ∅); Resume 2] m in
  callers m = [Rejected uv_cwd; Rejected uv_cwd]
  ∧ instance (process m) = None
  ∧ created (process m) = 1
  ∧ callers m' = [Rejected uv_cwd; Rejected uv_cwd; Rejected uv_cwd]
  ∧ instance (process m') = None
  ∧ created (process m') = 1.
Proof. by vm_compute. Qed.

(** A single caller that is left alone sees what [getAdapter] computes:
    the call, the settlement of the promise and the resumption. *)
Lemma getAdapter_as_schedule w m :
  instance (process m) = None →
  initializationPromise (process m) = None →
  ∃ o,
    getAdapter w (process m)
    = (o,
       process (run [Call w; Settle (created (process m));
                     Resume (length (callers m))] m))
    ∧ callers (run [Call w; Settle (created (process m));
                    Resume (length (callers m))] m)
      = callers m ++ [answeredWith o].
Proof.
  intros Hi Hp.
  destruct (createAdapter_runs w (allocated (process m)))
    as (o & evs & n & Hc & _).
  exists o. destruct m as [[inst ip cr st al ev] cs]. cbn in *. subst.
  unfold getAdapter, enter. cbn. rewrite Hc. cbn.
  assert (Hlook : (cs ++ [Suspended {| number := cr; result := o |}])
                    !! length cs
                  = Some (Suspended {| number := cr; result := o |})).
  { by rewrite lookup_app_r, Nat.sub_diag. }
  rewrite Hlook. unfold settle, resume. cbn.
  rewrite (bool_decide_eq_true_2 (cr < S cr)) by lia. cbn.
  rewrite (bool_decide_eq_true_2 (cr ∈ _)) by set_solver.
  destruct o as [a|e]; cbn.
  - split; [done|]. by rewrite insert_app_r_alt, Nat.sub_diag.
  - split; [done|]. by rewrite insert_app_r_alt, Nat.sub_diag.
Qed.

(** Why the schedules of C3 leave [reset] out: a [reset] while the
    construction is in flight lets the next caller start a second one. *)
Example reset_in_flight_restarts :
  let m := run [Call (calm ∅); Reset; Call (calm ∅)] start in
  created (process m) = 2 ∧ inFlight (process m) = [0; 1].
Proof. by vm_compute. Qed.

End ScheduleFacts.

(** ** Cache purges *)

Section PurgeFacts.
Import StorageFactory CdnService.

Lemma getCourseAssetKeys_run w courseId n :
  ∃ evs, getCourseAssetKeys w courseId n
         = (Returned (courseKeys w courseId), evs, n)
    ∧ purgeCalls evs = [].
Proof.
  unfold getCourseAssetKeys, courseKeys. io_unfold.
  destruct (getCourse w courseId) as [[[[[|c k]|]]|]|e]; cbn;
    by eexists.
Qed.

Lemma execute_run a w ks n :
  execute a w ks n
  = match ks with
    | [] =>
        (Returned {| success := true; purgedKeys := [];
                     message := "No keys found to purge";
                     cdnProvider := None |}, [], n)
    | _ :: _ =>
        match StorageAdapter.purgeCdnCache a w ks n with
        | (Returned true, evs, n') =>
            (Returned {| success := true; purgedKeys := ks;
                         message := "Successfully purged "
                                    +:+ pretty (length ks)
                                    +:+ " items from CDN cache";
                         cdnProvider := Some (StorageAdapter.type a) |},
             Invoke_purgeCdnCache (StorageAdapter.ref a) ks
             :: evs ++ [Console LogLevel
                          ("✓ Purged " +:+ pretty (length ks)
                           +:+ " keys from CDN cache") None],
             n')
        | (Returned false, evs, n') =>
            (Returned {| success := false; purgedKeys := [];
                         message := "CDN cache purge failed";
                         cdnProvider := Some (StorageAdapter.type a) |},
             Invoke_purgeCdnCache (StorageAdapter.ref a) ks :: evs ++ [],
             n')
        | (Thrown e, evs, n') =>
            (Returned {| success := false; purgedKeys := [];
                         message := match e with
                                    | Error message => message
                                    | NonError _ =>
                                        "Unknown error during cache purge"
                                    end;
                         cdnProvider := Some (StorageAdapter.type a) |},
             Invoke_purgeCdnCache (StorageAdapter.ref a) ks
             :: evs ++ [Console ErrorLevel "CDN cache purge error:"
                          (shown e)],
             n')
        end
    end.
Proof.
  unfold execute. destruct ks as [|k ks]; [done|]. cbn [length Nat.eqb].
  io_unfold.
  destruct (StorageAdapter.purgeCdnCache a w (k :: ks) n)
    as [[[[]|e] evs] n']; reflexivity.
Qed.

Lemma purgeCacheWith_resolved a w options n :
  StorageAdapter.cdnEnabled a = true →
  ∃ pre,
    purgeCalls pre = []
    ∧ purgeCacheWith a w options n
      = match keysByPrecedence w options with
        | None =>
            (Returned {| success := false; purgedKeys := [];
                         message := "No purge target specified";
                         cdnProvider := None |}, [], n)
        | Some ks =>
            let '(o, evs, n') := execute a w ks n in (o, pre ++ evs, n')
        end.
Proof.
  intros Hcdn. unfold purgeCacheWith, keysByPrecedence. rewrite Hcdn.
  cbn [negb].
  destruct options as [[[]|] ks cid pat]; cbn [purgeAll courseId pattern keys flagSet].
  1: { exists []. split; [done|]. by destruct (execute _ _ _ _) as [[??]?]. }
  all: destruct cid as [[|c cid]|]; cbn [JS.truthy from_option id].
  all: try (destruct (getCourseAssetKeys_run w (String c cid) n)
              as (pre & Hrun & Hpre);
            exists pre; split; [done|];
            unfold mbind, IO_bind; by rewrite Hrun).
  all: destruct pat as [[|p pat]|]; cbn [JS.truthy from_option id].
  all: try (exists []; split; [done|]; unfold getKeysByPattern;
            unfold mbind, mret, IO_bind, IO_ret;
            by destruct (execute _ _ _ _) as [[??]?]).
  all: destruct ks as [[|k ks]|]; cbn [keysGiven length Nat.ltb Nat.leb from_option id];
    try (by exists []).
  all: exists []; split; [done|]; by destruct (execute _ _ _ _) as [[??]?].
Qed.

Lemma runIO_events {A} (m : IO A) st o evs n :
  m (allocated st) = (o, evs, n) →
  ∃ st', runIO m st = (o, st') ∧ since st st' = evs ∧ allocated st' = n
    ∧ instance st' = instance st.
Proof.
  intros Hm. unfold runIO. rewrite Hm. eexists. split; [done|].
  unfold since. cbn. by rewrite drop_app_length.
Qed.

Lemma runIO_silent {A} (m : IO A) st o :
  m (allocated st) = (o, [], allocated st) → runIO m st = (o, st).
Proof.
  intros Hm. unfold runIO. rewrite Hm. destruct st. cbn.
  by rewrite app_nil_r.
Qed.

Lemma purgeCache_with w options st a st' :
  getAdapter w st = (Returned a, st') →
  purgeCache w options st = runIO (purgeCacheWith a w options) st'.
Proof. intros H. unfold purgeCache. by rewrite H. Qed.

Lemma purgeCalls_app evs1 evs2 :
  purgeCalls (evs1 ++ evs2) = purgeCalls evs1 ++ purgeCalls evs2.
Proof. apply omap_app. Qed.

Lemma calledOnceWith_head a w ks n evs :
  calledOnceWith a w ks n evs → head (purgeCalls evs) = Some ks.
Proof.
  intros (pre & post & -> & Hpre & _). rewrite purgeCalls_app, Hpre. done.
Qed.

(** The request resolves to the keys [ks], not empty: the adapter is
    called once, with [ks], and its answer is wrapped in the result. *)
Lemma purgeCache_delegates w options st a st' k ks :
  getAdapter w st = (Returned a, st') →
  StorageAdapter.cdnEnabled a = true →
  keysByPrecedence w options = Some (k :: ks) →
  ∃ r st'',
    purgeCache w options st = (Returned r, st'')
    ∧ calledOnceWith a w (k :: ks) (allocated st') (since st' st'')
    ∧ cdnProvider r = Some (StorageAdapter.type a)
    ∧ match (StorageAdapter.purgeCdnCache a w (k :: ks) (allocated st')).1.1
      with
      | Returned true => success r = true ∧ purgedKeys r = k :: ks
      | Returned false => success r = false ∧ purgedKeys r = []
      | Thrown e =>
          success r = false ∧ purgedKeys r = []
          ∧ message r = purgeErrorMessage e
      end.
Proof.
  intros Hget Hcdn Hkeys. rewrite (purgeCache_with _ _ _ _ _ Hget).
  destruct (purgeCacheWith_resolved a w options (allocated st') Hcdn)
    as (pre & Hpre & Hrun).
  rewrite Hkeys, execute_run in Hrun.
  destruct (StorageAdapter.purgeCdnCache a w (k :: ks) (allocated st'))
    as [[[[]|e] evs] n'] eqn:Hcall; cbn in Hrun;
    destruct (runIO_events _ _ _ _ _ Hrun) as (st'' & -> & Hsince & _);
    eexists _, st''; (split; [done|]); (split; [|by cbn]).
    all: unfold calledOnceWith; rewrite Hcall, Hsince; cbn [fst snd].
    all: eexists pre, _; split; [reflexivity|by split].
Qed.

(** The request resolves to no key or names no target: the adapter is
    not called. *)
Lemma purgeCache_idle w options st a st' :
  getAdapter w st = (Returned a, st') →
  StorageAdapter.cdnEnabled a = true →
  (keysByPrecedence w options = Some [] →
     ∃ st'',
       purgeCache w options st
       = (Returned {| success := true; purgedKeys := [];
                      message := "No keys found to purge";
                      cdnProvider := None |}, st'')
       ∧ purgeCalls (since st' st'') = [])
  ∧ (keysByPrecedence w options = None →
       purgeCache w options st
       = (Returned {| success := false; purgedKeys := [];
                      message := "No purge target specified";
                      cdnProvider := None |}, st')).
Proof.
  intros Hget Hcdn. rewrite (purgeCache_with _ _ _ _ _ Hget).
  destruct (purgeCacheWith_resolved a w options (allocated st') Hcdn)
    as (pre & Hpre & Hrun).
  split; intros Hkeys; rewrite Hkeys in Hrun.
  - rewrite execute_run in Hrun. cbn in Hrun.
    destruct (runIO_events _ _ _ _ _ Hrun) as (st'' & -> & Hsince & _).
    exists st''. split; [done|]. by rewrite Hsince, app_nil_r.
  - by apply runIO_silent.
Qed.

Lemma purgeCache_disabled w options st a st' :
  getAdapter w st = (Returned a, st') →
  StorageAdapter.cdnEnabled a = false →
  purgeCache w options st
  = (Returned {| success := true; purgedKeys := [];
                 message := "CDN not enabled, no cache to purge";
                 cdnProvider := None |}, st').
Proof.
  intros Hget Hcdn. rewrite (purgeCache_with _ _ _ _ _ Hget).
  apply runIO_silent. unfold purgeCacheWith. by rewrite Hcdn.
Qed.

(** C5: with a CDN-enabled adapter, [purgeCache] honours one strategy per
    request, by the precedence [purgeAll] > [courseId] > [pattern] >
    [keys]: the adapter's [purgeCdnCache] is called exactly once, with
    [['*']] when [purgeAll] is set (whatever else the request holds, an
    explicit key list included); else with the keys of the course when
    [courseId] is given and resolves to some; else with the pattern when
    one is given; else, when only a non-empty key list is given, with
    exactly those keys. *)
Theorem purge_precedence (w : World) (options : CdnPurgeOptions)
    (st : State) (a : StorageAdapter.t) (st' : State) :
  getAdapter w st = (Returned a, st') →
  StorageAdapter.cdnEnabled a = true →
  (flagSet (purgeAll options) = true → purges w options st a st' ["*"])
  ∧ (flagSet (purgeAll options) = false →
     ∀ c id, courseId options = Some (String c id) →
     courseKeys w (String c id) ≠ [] →
     purges w options st a st' (courseKeys w (String c id)))
  ∧ (flagSet (purgeAll options) = false →
     JS.truthy (courseId options) = false →
     ∀ c pat, pattern options = Some (String c pat) →
     purges w options st a st' [String c pat])
  ∧ (flagSet (purgeAll options) = false →
     JS.truthy (courseId options) = false →
     JS.truthy (pattern options) = false →
     ∀ k ks, keys options = Some (k :: ks) →
     purges w options st a st' (k :: ks)).
Proof.
  intros Hget Hcdn.
  assert (Hgen : ∀ k ks, keysByPrecedence w options = Some (k :: ks) →
                         purges w options st a st' (k :: ks)).
  { intros k ks Hkeys.
    destruct (purgeCache_delegates w options st a st' k ks Hget Hcdn Hkeys)
      as (r & st'' & Hrun & Hcall & _).
    by exists r, st''. }
  destruct options as [flag ks cid pat]. cbn [purgeAll keys courseId pattern].
  split_and!.
  - intros Hflag. apply Hgen. by destruct flag as [[]|].
  - intros Hflag c id -> Hne.
    destruct (courseKeys w (String c id)) as [|k ks'] eqn:Hck; [done|].
    apply Hgen. unfold keysByPrecedence. cbn. rewrite Hck.
    by destruct flag as [[]|].
  - intros Hflag Hcid c p ->. apply Hgen.
    by destruct flag as [[]|], cid as [[]|].
  - intros Hflag Hcid Hpat k ks' ->. apply Hgen.
    by destruct flag as [[]|], cid as [[]|], pat as [[]|].
Qed.

(** C6: when the adapter in use is the local adapter, [purgeCache] returns
    [{success: true, purgedKeys: []}] whatever the request holds, and
    leaves the process as it is: nothing is logged and the adapter's
    [purgeCdnCache] is not called. *)
Theorem purge_local_noop (w : World) (options : CdnPurgeOptions)
    (st : State) (this : LocalStorageAdapter.t) (ref : nat) (st' : State) :
  getAdapter w st = (Returned (LocalStorageAdapter.adapter this ref), st') →
  purgeCache w options st
  = (Returned {| success := true; purgedKeys := [];
                 message := "CDN not enabled, no cache to purge";
                 cdnProvider := None |}, st').
Proof. intros Hget. by eapply purgeCache_disabled. Qed.
End PurgeFacts.

Section PurgeResults.
Import StorageFactory CdnService.

Lemma r2_getAdapter :
  getAdapter (calm r2Env) initial = (Returned r2Adapter, r2Ready).
Proof. reflexivity. Qed.

Lemma purge_precedence_witness :
  purges (calm r2Env)
    {| purgeAll := Some true; keys := Some ["a"; "b"];
       courseId := None; pattern := None |}
    initial r2Adapter r2Ready ["*"]
  ∧ purges (calm r2Env) (onlyKeys ["a"; "b"]) initial r2Adapter r2Ready
      ["a"; "b"].
Proof.
  split.
  - destruct (purge_precedence (calm r2Env)
                {| purgeAll := Some true; keys := Some ["a"; "b"];
                   courseId := None; pattern := None |}
                initial r2Adapter r2Ready eq_refl eq_refl) as (Hall & _).
    exact (Hall eq_refl).
  - destruct (purge_precedence (calm r2Env) (onlyKeys ["a"; "b"])
                initial r2Adapter r2Ready eq_refl eq_refl)
      as (_ & _ & _ & Hkeys).
    exact (Hkeys eq_refl eq_refl eq_refl "a" ["b"] eq_refl).
Defined.

Lemma purge_local_noop_witness :
  purgeCache (calm ∅)
    {| purgeAll := Some true; keys := Some ["a"];
       courseId := Some "c1"; pattern := Some "courses/*" |} initial
  = (Returned {| success := true; purgedKeys := [];
                 message := "CDN not enabled, no cache to purge";
                 cdnProvider := None |}, localReady).
Proof.
  apply (purge_local_noop (calm ∅) _ initial
           sampleLocal 0 localReady).
  reflexivity.
Defined.

(** C7, as stated, fails: an explicit but empty key list, and nothing
    else, is answered with a failure. *)
Lemma purge_empty_key_list_fails :
  getAdapter (calm r2Env) initial = (Returned r2Adapter, r2Ready)
  ∧ StorageAdapter.cdnEnabled r2Adapter = true
  ∧ purgeCache (calm r2Env) (onlyKeys []) initial
    = (Returned {| success := false; purgedKeys := [];
                   message := "No purge target specified";
                   cdnProvider := None |}, r2Ready)
  ∧ ¬ ∃ r st, purgeCache (calm r2Env) (onlyKeys []) initial
              = (Returned r, st) ∧ success r = true.
Proof.
  split_and!; [reflexivity..|].
  intros (r & st & Hrun & Hr).
  assert (Hs : success r = false).
  { change (purgeCache (calm r2Env) (onlyKeys []) initial)
      with (Returned {| success := false; purgedKeys := [];
                        message := "No purge target specified";
                        cdnProvider := None |}, r2Ready) in Hrun.
    by simplify_eq. }
  congruence.
Qed.

(** C7, amended: with a CDN-enabled adapter and [purgeAll] not set, a
    [courseId] that resolves to no key (the course is unknown or its lookup
    fails) is answered with [{success: true, purgedKeys: []}], and a
    request with no [courseId], no [pattern] and an empty or absent key
    list is answered with [{success: false, purgedKeys: []}], "No purge
    target specified"; in neither case is the adapter's [purgeCdnCache]
    called. *)
Theorem purge_nothing_resolved (w : World) (options : CdnPurgeOptions)
    (st : State) (a : StorageAdapter.t) (st' : State) :
  getAdapter w st = (Returned a, st') →
  StorageAdapter.cdnEnabled a = true →
  flagSet (purgeAll options) = false →
  (∀ c id, courseId options = Some (String c id) →
     courseKeys w (String c id) = [] →
     ∃ st'',
       purgeCache w options st
       = (Returned {| success := true; purgedKeys := [];
                      message := "No keys found to purge";
                      cdnProvider := None |}, st'')
       ∧ purgeCalls (since st' st'') = [])
  ∧ (JS.truthy (courseId options) = false →
     JS.truthy (pattern options) = false →
     keysGiven (keys options) = false →
     purgeCache w options st
     = (Returned {| success := false; purgedKeys := [];
                    message := "No purge target specified";
                    cdnProvider := None |}, st')).
Proof.
  intros Hget Hcdn Hflag.
  destruct (purgeCache_idle w options st a st' Hget Hcdn) as [Hempty Hnone].
  destruct options as [flag ks cid pat].
  cbn [purgeAll keys courseId pattern] in *. split.
  - intros c id -> Hck. apply Hempty. unfold keysByPrecedence. cbn.
    rewrite Hck. by destruct flag as [[]|].
  - intros Hcid Hpat Hks. apply Hnone.
    by destruct flag as [[]|], cid as [[]|], pat as [[]|], ks as [[]|].
Qed.

Lemma purge_nothing_resolved_witness :
  (∃ st'',
     purgeCache (calm r2Env)
       {| purgeAll := None; keys := Some ["a"];
          courseId := Some "unknown-course"; pattern := None |} initial
     = (Returned {| success := true; purgedKeys := [];
                    message := "No keys found to purge";
                    cdnProvider := None |}, st'')
     ∧ purgeCalls (since r2Ready st'') = [])
  ∧ purgeCache (calm r2Env) (onlyKeys []) initial
    = (Returned {| success := false; purgedKeys := [];
                   message := "No purge target specified";
                   cdnProvider := None |}, r2Ready).
Proof.
  split.
  - destruct (purge_nothing_resolved (calm r2Env)
                {| purgeAll := None; keys := Some ["a"];
                   courseId := Some "unknown-course"; pattern := None |}
                initial r2Adapter r2Ready eq_refl eq_refl eq_refl)
      as (Hcourse & _).
    exact (Hcourse "u"%char "nknown-course" eq_refl eq_refl).
  - destruct (purge_nothing_resolved (calm r2Env) (onlyKeys [])
                initial r2Adapter r2Ready eq_refl eq_refl eq_refl)
      as (_ & Hnone).
    exact (Hnone eq_refl eq_refl eq_refl).
Defined.

Lemma s3_purgeCdnCache_run this w keys n :
  ∃ evs, S3CloudFrontAdapter.purgeCdnCache this w keys n
         = (Returned (s3PurgeSucceeds this w), evs, n).
Proof.
  unfold S3CloudFrontAdapter.purgeCdnCache, s3PurgeSucceeds,
    S3CloudFrontAdapter.getCloudFrontClient. io_unfold.
  destruct (JS.truthy _); cbn [negb andb]; [|by eexists].
  destruct (importError w "@aws-sdk/client-cloudfront") as [e|];
    [by eexists|].
  destruct (invalidationError w) as [e|]; by eexists.
Qed.

Lemma s3_purgeCdnCache_unconfigured this w keys n :
  JS.truthy (S3CloudFrontAdapter.cloudFrontDistributionId this) = false →
  S3CloudFrontAdapter.purgeCdnCache this w keys n
  = (Returned false,
     [Console WarnLevel
        "CloudFront Distribution ID not configured, skipping cache purge"
        None], n).
Proof.
  intros H. unfold S3CloudFrontAdapter.purgeCdnCache. io_unfold.
  by rewrite H.
Qed.

Lemma r2_purgeCdnCache_run this w keys n :
  ∃ evs, CloudFlareR2Adapter.purgeCdnCache this w keys n
         = (Returned (r2PurgeSucceeds w), evs, n).
Proof.
  unfold CloudFlareR2Adapter.purgeCdnCache, r2PurgeSucceeds. io_unfold.
  destruct (JS.truthy (env w !! "CLOUDFLARE_ZONE_ID")); cbn [negb andb orb];
    [|by eexists].
  destruct (JS.truthy (env w !! "CLOUDFLARE_API_TOKEN")); cbn [negb andb orb];
    [|by eexists].
  destruct (zonePurge w) as [e|[] [body|e]]; by eexists.
Qed.

(** [purgeCache] answers whenever [getAdapter] does. *)
Lemma purgeCache_returns w options st a st' :
  getAdapter w st = (Returned a, st') →
  ∃ r st'', purgeCache w options st = (Returned r, st'').
Proof.
  intros Hget.
  destruct (StorageAdapter.cdnEnabled a) eqn:Hcdn;
    [|by eexists _, _; eapply purgeCache_disabled].
  destruct (keysByPrecedence w options) as [[|k ks]|] eqn:Hkeys.
  - destruct (purgeCache_idle w options st a st' Hget Hcdn) as [H _].
    destruct (H Hkeys) as (st'' & Hrun & _). by eexists _, _.
  - destruct (purgeCache_delegates w options st a st' k ks Hget Hcdn Hkeys)
      as (r & st'' & Hrun & _). by eexists _, _.
  - destruct (purgeCache_idle w options st a st' Hget Hcdn) as [_ H].
    eexists _, _. by apply H.
Qed.

Lemma since_refl st : since st st = [].
Proof. unfold since. apply drop_all. Qed.

(** The first call of the adapter's purge, if any, is made with the keys
    the request resolves to. *)
Lemma purgeCache_first_call w options st a st' r st'' ks :
  getAdapter w st = (Returned a, st') →
  purgeCache w options st = (Returned r, st'') →
  head (purgeCalls (since st' st'')) = Some ks →
  StorageAdapter.cdnEnabled a = true
  ∧ ks ≠ []
  ∧ keysByPrecedence w options = Some ks.
Proof.
  intros Hget Hrun Hhead.
  destruct (StorageAdapter.cdnEnabled a) eqn:Hcdn.
  - destruct (keysByPrecedence w options) as [[|k ks']|] eqn:Hkeys.
    + destruct (purgeCache_idle w options st a st' Hget Hcdn) as [H _].
      destruct (H Hkeys) as (st3 & Hrun' & Hcalls).
      rewrite Hrun in Hrun'. simplify_eq. by rewrite Hcalls in Hhead.
    + destruct (purgeCache_delegates w options st a st' k ks' Hget Hcdn Hkeys)
        as (r' & st3 & Hrun' & Hcall & _).
      rewrite Hrun in Hrun'. simplify_eq.
      rewrite (calledOnceWith_head _ _ _ _ _ Hcall) in Hhead.
      by simplify_eq.
    + destruct (purgeCache_idle w options st a st' Hget Hcdn) as [_ H].
      rewrite (H Hkeys) in Hrun. simplify_eq.
      by rewrite since_refl in Hhead.
  - rewrite (purgeCache_disabled w options st a st' Hget Hcdn) in Hrun.
    simplify_eq. by rewrite since_refl in Hhead.
Qed.

(** C8: the [purgeCdnCache] of every adapter returns and never throws:
    that of the S3 adapter answers [true] only if the distribution is
    configured, the SDK loads and the invalidation is accepted, and answers
    [false] at once, with a warning, when no distribution identifier is
    configured; that of the R2 adapter answers [true] only if zone and
    token are configured and the zone API reports success; that of the
    local adapter answers [true].  And [purgeCache] returns whenever
    [getAdapter] does: if the adapter's purge was called and threw, the
    result is [{success: false, purgedKeys: []}] with the message of the
    error. *)
Theorem purge_failures_absorbed :
  (∀ this w keys n,
     ∃ evs, S3CloudFrontAdapter.purgeCdnCache this w keys n
            = (Returned (s3PurgeSucceeds this w), evs, n))
  ∧ (∀ this w keys n,
       JS.truthy (S3CloudFrontAdapter.cloudFrontDistributionId this) = false →
       S3CloudFrontAdapter.purgeCdnCache this w keys n
       = (Returned false,
          [Console WarnLevel
             "CloudFront Distribution ID not configured, skipping cache purge"
             None], n))
  ∧ (∀ this w keys n,
       ∃ evs, CloudFlareR2Adapter.purgeCdnCache this w keys n
              = (Returned (r2PurgeSucceeds w), evs, n))
  ∧ (∀ this w keys n,
       LocalStorageAdapter.purgeCdnCache this w keys n = (Returned true, [], n))
  ∧ (∀ w options st a st',
       getAdapter w st = (Returned a, st') →
       ∃ r st'',
         purgeCache w options st = (Returned r, st'')
         ∧ ∀ ks e evs n',
             head (purgeCalls (since st' st'')) = Some ks →
             StorageAdapter.purgeCdnCache a w ks (allocated st')
             = (Thrown e, evs, n') →
             success r = false
             ∧ purgedKeys r = []
             ∧ message r = purgeErrorMessage e).
Proof.
  split_and!.
  - apply s3_purgeCdnCache_run.
  - apply s3_purgeCdnCache_unconfigured.
  - apply r2_purgeCdnCache_run.
  - done.
  - intros w options st a st' Hget.
    destruct (purgeCache_returns w options st a st' Hget)
      as (r & st'' & Hrun).
    exists r, st''. split; [done|]. intros ks e evs n' Hhead Hthrow.
    destruct (purgeCache_first_call _ _ _ _ _ _ _ _ Hget Hrun Hhead)
      as (Hcdn & Hne & Hkeys).
    destruct ks as [|k ks]; [done|].
    destruct (purgeCache_delegates w options st a st' k ks Hget Hcdn Hkeys)
      as (r' & st3 & Hrun' & _ & _ & Hres).
    rewrite Hrun in Hrun'. simplify_eq. by rewrite Hthrow in Hres.
Qed.

Lemma purge_failures_absorbed_witness :
  S3CloudFrontAdapter.purgeCdnCache
    {| S3CloudFrontAdapter.region := "eu-west-1";
       S3CloudFrontAdapter.accessKeyId := "key";
       S3CloudFrontAdapter.secretAccessKey := "secret";
       S3CloudFrontAdapter.bucketName := "bucket";
       S3CloudFrontAdapter.cloudFrontDomain := "d.example.com";
       S3CloudFrontAdapter.cloudFrontDistributionId := None |}
    (calm ∅) ["a"] 0
  = (Returned false,
     [Console WarnLevel
        "CloudFront Distribution ID not configured, skipping cache purge"
        None], 0)
  ∧ ∃ r st'',
      purgeCache (calm ∅) (onlyKeys ["a"])
        (holding (throwingAdapter (Error "boom")))
      = (Returned r, st'')
      ∧ success r = false
      ∧ purgedKeys r = []
      ∧ message r = "boom".
Proof.
  destruct purge_failures_absorbed as (_ & Hs3 & _ & _ & Hpurge). split.
  - apply Hs3. reflexivity.
  - destruct (Hpurge (calm ∅) (onlyKeys ["a"])
                (holding (throwingAdapter (Error "boom")))
                (throwingAdapter (Error "boom"))
                (holding (throwingAdapter (Error "boom"))) eq_refl)
      as (r & st'' & Hrun & Habsorb).
    exists r, st''. split; [exact Hrun|].
    apply (Habsorb ["a"] (Error "boom") [] 1); [|reflexivity].
    vm_compute in Hrun. injection Hrun as _ <-. reflexivity.
Defined.
End PurgeResults.

(** ** Who holds the adapter, and where files go *)

Section Ownership.
Import StorageFactory CdnService.

(** C1: [deleteFile] joins the key to the root as it is.  With the root
    [/srv/app/uploads/courses] and the key [../../../etc/passwd] it unlinks
    [/srv/etc/passwd], outside the root; [uploadBuffer], given the same
    key, sanitises it and writes below the root. *)
Theorem deleteFile_escapes_root :
  LocalStorageAdapter.deleteFile sampleLocal (calm ∅) "../../../etc/passwd" 0
  = (Returned true, [Fs (Unlink "/srv/etc/passwd")], 0)
  ∧ Path.inside "/srv/app/uploads/courses" "/srv/etc/passwd" = false
  ∧ LocalStorageAdapter.uploadBuffer sampleLocal (calm ∅) []
      "../../../etc/passwd" 0
    = (Returned {| key := "etc/passwd";
                   url := "/uploads/courses/etc/passwd";
                   size := 0%N;
                   etag := Some "0-0" |},
       [Fs (Mkdir "/srv/app/uploads/courses");
        Fs (Mkdir "/srv/app/uploads/courses/etc");
        Fs (WriteFile "/srv/app/uploads/courses/etc/passwd" [])], 0)
  ∧ Path.inside "/srv/app/uploads/courses"
      "/srv/app/uploads/courses/etc/passwd" = true.
Proof. vm_compute. done. Qed.

(** C9, as stated, fails: after [reset()] and a new initialisation, the
    asset service still works with the adapter it asked for first. *)
Lemma assetService_keeps_first_adapter :
  let service := reinitialised.1 in
  let st := reinitialised.2 in
  getAdapter (calm r2Env) st = (Returned secondR2, st)
  ∧ AssetService.getStorage service (calm r2Env) st
    = (Returned firstLocal, service, st)
  ∧ AssetService.getCourseAssetUrl service (calm r2Env) st "courses/c1/a.zip"
    = (Returned "/uploads/courses/courses/c1/a.zip", service, st)
  ∧ StorageAdapter.getPublicUrl secondR2 "courses/c1/a.zip"
    = "https://cdn.example.com/courses/c1/a.zip"
  ∧ firstLocal ≠ secondR2.
Proof.
  cbv zeta. split_and!; [reflexivity..|].
  intros H. apply (f_equal StorageAdapter.ref) in H. discriminate H.
Qed.

(** C9, amended: the CDN service asks the factory on every operation, so
    whenever the factory holds [a], after a reset and a new initialisation
    too, [purgeCache] works with [a]; the asset service asks the factory
    only while its own field is empty, stores the adapter it gets, and from
    then on works with the stored adapter whatever the factory holds. *)
Theorem adapter_references (w : World) (st : State) (a : StorageAdapter.t) :
  (instance st = Some a →
     getAdapter w st = (Returned a, st)
     ∧ ∀ options,
         purgeCache w options st = runIO (purgeCacheWith a w options) st)
  ∧ (∀ st', getAdapter w st = (Returned a, st') →
       AssetService.getStorage AssetService.new w st
       = (Returned a, {| AssetService.storageAdapter := Some a |}, st'))
  ∧ AssetService.getStorage {| AssetService.storageAdapter := Some a |} w st
    = (Returned a, {| AssetService.storageAdapter := Some a |}, st)
  ∧ ∀ storageKey,
      AssetService.getCourseAssetUrl
        {| AssetService.storageAdapter := Some a |} w st storageKey
      = (Returned (StorageAdapter.getPublicUrl a storageKey),
         {| AssetService.storageAdapter := Some a |}, st).
Proof.
  split_and!.
  - intros Hinst.
    assert (Hget : getAdapter w st = (Returned a, st)).
    { unfold getAdapter, enter. by rewrite Hinst. }
    split; [done|]. intros options. by apply purgeCache_with.
  - intros st' Hget. unfold AssetService.getStorage. cbn. by rewrite Hget.
  - done.
  - done.
Qed.

Lemma adapter_references_witness :
  (getAdapter (calm r2Env) reinitialised.2 = (Returned secondR2, reinitialised.2)
   ∧ ∀ options,
       purgeCache (calm r2Env) options reinitialised.2
       = runIO (purgeCacheWith secondR2 (calm r2Env) options) reinitialised.2)
  ∧ AssetService.getStorage AssetService.new (calm ∅) initial
    = (Returned firstLocal,
       {| AssetService.storageAdapter := Some firstLocal |}, localReady).
Proof.
  split.
  - destruct (adapter_references (calm r2Env) reinitialised.2 secondR2)
      as (Hcdn & _).
    exact (Hcdn eq_refl).
  - destruct (adapter_references (calm ∅) initial firstLocal)
      as (_ & Hfirst & _).
    exact (Hfirst localReady eq_refl).
Defined.
End Ownership.

(** ** Further properties of the storage and CDN services *)

Section ContentTypeFacts.

Lemma lowerChar_keepsSeparators : keepsSeparators JS.lowerChar.
Proof. intros [[] [] [] [] [] [] [] []]; by vm_compute. Qed.

Lemma lowerChar_idemp c : JS.lowerChar (JS.lowerChar c) = JS.lowerChar c.
Proof. destruct c as [[] [] [] [] [] [] [] []]; by vm_compute. Qed.

Lemma mapChars_compose f g s :
  JS.mapChars f (JS.mapChars g s) = JS.mapChars (f ∘ g) s.
Proof. induction s as [|c s IH]; [done|]. cbn. by rewrite IH. Qed.

Lemma mapChars_ext f g s :
  (∀ c, f c = g c) → JS.mapChars f s = JS.mapChars g s.
Proof. intros H. induction s as [|c s IH]; [done|]. cbn. by rewrite H, IH. Qed.

Lemma toLowerCase_idemp s :
  JS.toLowerCase (JS.toLowerCase s) = JS.toLowerCase s.
Proof.
  unfold JS.toLowerCase. rewrite mapChars_compose.
  apply mapChars_ext, lowerChar_idemp.
Qed.

Lemma chars_mapChars f s :
  list_ascii_of_string (JS.mapChars f s) = map f (list_ascii_of_string s).
Proof. induction s as [|c s IH]; [done|]. cbn. by rewrite IH. Qed.

Lemma extScanStep_mapped f i c st :
  keepsSeparators f → Path.extScanStep i (f c) st = Path.extScanStep i c st.
Proof.
  intros Hf. destruct (Hf c) as [Hslash Hdot]. unfold Path.extScanStep.
  by rewrite Hslash, Hdot.
Qed.

Lemma extScan_mapped f chars st :
  keepsSeparators f → Path.extScan (map f chars) st = Path.extScan chars st.
Proof.
  intros Hf. revert st. induction chars as [|c chars IH]; intros st; [done|].
  cbn. by rewrite length_map, extScanStep_mapped, IH.
Qed.

Lemma substring_mapChars f n m s :
  String.substring n m (JS.mapChars f s)
  = JS.mapChars f (String.substring n m s).
Proof.
  revert n m. induction s as [|c s IH]; intros [|n] [|m]; cbn; try done.
  - by rewrite IH.
Qed.

(** [path.extname] commutes with a change of characters it cannot see. *)
Lemma extname_mapChars f p :
  keepsSeparators f →
  Path.extname (JS.mapChars f p) = JS.mapChars f (Path.extname p).
Proof.
  intros Hf. unfold Path.extname.
  rewrite chars_mapChars, <-map_rev, extScan_mapped by done.
  destruct (Path.startDot _) as [dot|]; [|done].
  destruct (Path.endAt _) as [stop|]; [|done].
  destruct (_ || _); [done|]. apply substring_mapChars.
Qed.

Lemma lowered_extname p :
  JS.toLowerCase (Path.extname p) = Path.extname (JS.toLowerCase p).
Proof.
  symmetry. apply extname_mapChars, lowerChar_keepsSeparators.
Qed.


(** X22: file names that differ only in the case of their letters get the
    same content type and the same cache policy. *)
Theorem content_policy_ignores_case (name1 name2 : string) :
  JS.toLowerCase name1 = JS.toLowerCase name2 →
  AssetService.getContentType name1 = AssetService.getContentType name2
  ∧ AssetService.getCacheControl name1 = AssetService.getCacheControl name2.
Proof.
  intros H. unfold AssetService.getContentType, AssetService.getCacheControl.
  by rewrite !lowered_extname, H.
Qed.

Lemma content_policy_ignores_case_witness :
  AssetService.getContentType "INDEX.HTML"
  = AssetService.getContentType "index.html"
  ∧ AssetService.getCacheControl "INDEX.HTML"
    = AssetService.getCacheControl "index.html".
Proof.
  apply (content_policy_ignores_case "INDEX.HTML" "index.html").
  reflexivity.
Defined.

Lemma contentTypes_lookup ext type :
  AssetService.contentTypes !! ext = Some type
  ↔ (ext, type)
    ∈ [ (".html", "text/html"); (".htm", "text/html"); (".css", "text/css");
        (".js", "application/javascript"); (".json", "application/json");
        (".xml", "application/xml"); (".png", "image/png");
        (".jpg", "image/jpeg"); (".jpeg", "image/jpeg");
        (".gif", "image/gif"); (".svg", "image/svg+xml");
        (".webp", "image/webp"); (".mp4", "video/mp4");
        (".webm", "video/webm"); (".mp3", "audio/mpeg");
        (".wav", "audio/wav"); (".ogg", "audio/ogg");
        (".pdf", "application/pdf"); (".zip", "application/zip");
        (".txt", "text/plain") ].
Proof.
  unfold AssetService.contentTypes. symmetry. apply elem_of_list_to_map.
  compute_done.
Qed.

(** For every extension, the table answers [text/html] for [.html] and
    [.htm] and for nothing else. *)
Lemma contentType_html ext :
  JS.or_else (AssetService.contentTypes !! ext) "application/octet-stream"
  = "text/html"
  ↔ ext = ".html" ∨ ext = ".htm".
Proof.
  split.
  - destruct (AssetService.contentTypes !! ext) as [type|] eqn:Hlook;
      [|by intros [=]].
    apply contentTypes_lookup in Hlook.
    repeat (apply elem_of_cons in Hlook as [Hlook|Hlook];
            [injection Hlook as -> ->; cbn; intros Heq;
             first [by left | by right | discriminate Heq]|]).
    by apply elem_of_nil in Hlook.
  - by intros [-> | ->].
Qed.

(** X23: the short cache policy goes to exactly the files served as
    [text/html]; every other file gets the long, immutable policy. *)
Theorem cache_policy_follows_content_type (fileName : string) :
  AssetService.getCacheControl fileName
  = if bool_decide (AssetService.getContentType fileName = "text/html")
    then "public, max-age=3600"
    else "public, max-age=31536000, immutable".
Proof.
  unfold AssetService.getCacheControl, AssetService.getContentType.
  set (ext := JS.toLowerCase (Path.extname fileName)).
  destruct (String.eqb_spec ext ".html") as [Hh|Hh];
    [by rewrite bool_decide_eq_true_2 by (apply contentType_html; by left)|].
  destruct (String.eqb_spec ext ".htm") as [Hm|Hm];
    [by rewrite bool_decide_eq_true_2 by (apply contentType_html; by right)|].
  rewrite bool_decide_eq_false_2; [done|].
  intros [?|?]%contentType_html; done.
Qed.

Lemma extScanStep_no_dot i c st :
  Ascii.eqb c "." = false → Path.startDot st = None →
  Path.startDot (Path.extScanStep i c st) = None.
Proof.
  intros Hc Hst. unfold Path.extScanStep. rewrite Hc.
  destruct (Path.broke st); [done|].
  destruct (Ascii.eqb c "/"); [by destruct (negb _)|].
  destruct (Path.endAt st); cbn; by rewrite Hst.
Qed.

Lemma extScan_no_dot chars st :
  Forall (λ c, Ascii.eqb c "." = false) chars → Path.startDot st = None →
  Path.startDot (Path.extScan chars st) = None.
Proof.
  intros Hall. revert st. induction Hall as [|c chars Hc Hall IH];
    intros st Hst; [done|].
  cbn. by apply IH, extScanStep_no_dot.
Qed.

Lemma chars_no_dot s :
  JS.includes "." s = false →
  Forall (λ c, Ascii.eqb c "." = false) (list_ascii_of_string s).
Proof.
  induction s as [|c s IH]; [by constructor|].
  rewrite includes_cons. intros [Hc Hs]%orb_false_iff.
  cbn [JS.startsWith] in Hc. rewrite andb_true_r, Ascii.eqb_sym in Hc.
  constructor; auto.
Qed.

(** X24: a file name without any dot has no extension for the service: it is
    served as [application/octet-stream], with the long cache policy. *)
Theorem no_dot_is_octet_stream (fileName : string) :
  JS.includes "." fileName = false →
  AssetService.getContentType fileName = "application/octet-stream"
  ∧ AssetService.getCacheControl fileName
    = "public, max-age=31536000, immutable".
Proof.
  intros Hdot.
  assert (Hext : Path.extname fileName = "").
  { unfold Path.extname. rewrite extScan_no_dot; [done| |done].
    apply Forall_rev, chars_no_dot, Hdot. }
  unfold AssetService.getContentType, AssetService.getCacheControl.
  by rewrite Hext.
Qed.

Lemma no_dot_is_octet_stream_witness :
  AssetService.getContentType "courses/c1/README" = "application/octet-stream"
  ∧ AssetService.getCacheControl "courses/c1/README"
    = "public, max-age=31536000, immutable".
Proof. apply (no_dot_is_octet_stream "courses/c1/README"). reflexivity. Defined.

End ContentTypeFacts.

Section LocalFacts.

Lemma fsCalls_app evs1 evs2 : fsCalls (evs1 ++ evs2) = fsCalls evs1 ++ fsCalls evs2.
Proof. apply omap_app. Qed.

Lemma deleteFile_run this w key n :
  ∃ evs,
    LocalStorageAdapter.deleteFile this w key n
    = (Returned (unlinkSucceeds this w key), evs, n)
    ∧ fsCalls evs = [Unlink (LocalStorageAdapter.getAbsolutePath this key)].
Proof.
  unfold LocalStorageAdapter.deleteFile, unlinkSucceeds,
    LocalStorageAdapter.getAbsolutePath. io_unfold.
  destruct (fsError w _) as [e|]; by eexists.
Qed.

(** A key none of whose segments is [..] stays below the root, with or
    without sanitisation. *)
Lemma join_inside root key :
  ".." ∉ JS.splitSlash key →
  (root = "" → JS.startsWith "/" key = false) →
  Path.inside root (Path.join [root; key]) = true.
Proof.
  intros Hkey Hrel. unfold Path.join. rewrite !filter_cons, filter_nil.
  destruct (decide (root ≠ "")) as [Hroot|Hroot],
           (decide (key ≠ "")) as [Hk|Hk].
  - destruct (resolved_below root key Hroot Hkey) as [Habs Hres].
    change (JS.join "/" [root; key]) with (root +:+ "/" +:+ key).
    apply inside_normalize; [done|]. rewrite Hres. by apply prefix_app_r.
  - by apply inside_normalize.
  - apply dec_stable in Hroot as ->. apply inside_normalize; [by apply Hrel|].
    apply prefix_nil.
  - by apply dec_stable in Hroot as ->.
Qed.

(** X5: [deleteFile] never throws, for any key: it issues one unlink, of
    the key joined to the root as it is, and answers whether the unlink
    went through; and for a root that is not empty and a key none of whose
    segments is [..], the file unlinked lies inside the root. *)
Theorem deleteFile_best_effort (this : LocalStorageAdapter.t) (w : World)
    (key : string) (n : nat) :
  ∃ evs,
    LocalStorageAdapter.deleteFile this w key n
    = (Returned (unlinkSucceeds this w key), evs, n)
    ∧ fsCalls evs = [Unlink (LocalStorageAdapter.getAbsolutePath this key)]
    ∧ (LocalStorageAdapter.uploadsDir this ≠ "" →
       ".." ∉ JS.splitSlash key →
       Path.inside (LocalStorageAdapter.uploadsDir this)
         (LocalStorageAdapter.getAbsolutePath this key) = true).
Proof.
  destruct (deleteFile_run this w key n) as (evs & Hrun & Hfs).
  exists evs. split_and!; [done..|].
  intros Hroot Hkey. by apply join_inside.
Qed.

Lemma deleteFiles_from_run this w keys count n :
  ∃ evs,
    LocalStorageAdapter.deleteFiles_from this w keys count n
    = (Returned (count + length (List.filter (unlinkSucceeds this w) keys)),
       evs, n)
    ∧ fsCalls evs
      = map (λ key, Unlink (LocalStorageAdapter.getAbsolutePath this key)) keys.
Proof.
  revert count. induction keys as [|key keys IH]; intros count.
  { exists []. split; [|done]. cbn. by rewrite Nat.add_0_r. }
  destruct (deleteFile_run this w key n) as (evs1 & Hrun & Hfs1).
  cbn [LocalStorageAdapter.deleteFiles_from]. unfold mbind, IO_bind.
  rewrite Hrun. cbn [List.filter].
  destruct (unlinkSucceeds this w key).
  - destruct (IH (S count)) as (evs2 & -> & Hfs2). eexists. split.
    + f_equal. f_equal. f_equal. cbn. lia.
    + by rewrite fsCalls_app, Hfs1, Hfs2.
  - destruct (IH count) as (evs2 & -> & Hfs2). eexists. split; [done|].
    by rewrite fsCalls_app, Hfs1, Hfs2.
Qed.

(** X6: [deleteFiles] never throws; it unlinks every key once, in order,
    and answers how many of the unlinks went through. *)
Theorem deleteFiles_counts_successes (this : LocalStorageAdapter.t)
    (w : World) (keys : list string) (n : nat) :
  ∃ evs,
    LocalStorageAdapter.deleteFiles this w keys n
    = (Returned (length (List.filter (unlinkSucceeds this w) keys)), evs, n)
    ∧ fsCalls evs
      = map (λ key, Unlink (LocalStorageAdapter.getAbsolutePath this key)) keys
    ∧ length (List.filter (unlinkSucceeds this w) keys) ≤ length keys.
Proof.
  destruct (deleteFiles_from_run this w keys 0 n) as (evs & Hrun & Hfs).
  exists evs. split_and!; [done..|]. apply List.filter_length_le.
Qed.

End LocalFacts.

Section UploadFacts.

Lemma safeKey_safeKey key :
  LocalStorageAdapter.safeKey (LocalStorageAdapter.safeKey key)
  = LocalStorageAdapter.safeKey key.
Proof.
  unfold LocalStorageAdapter.safeKey.
  rewrite (removeDotDot_fixed (JS.stripLeadingSlashes _)).
  - apply stripLeadingSlashes_fixed, stripLeadingSlashes_no_slash.
  - apply stripLeadingSlashes_includes, removeDotDot_no_dotdot.
Qed.

(** X2: both uploads address a file by the sanitised key alone: uploading
    under the key a previous upload returned targets the same file. *)
Theorem upload_key_canonical (this : LocalStorageAdapter.t) (w : World)
    (buffer : Buffer) (filePath key : string) (n : nat) :
  LocalStorageAdapter.uploadBuffer this w buffer
    (LocalStorageAdapter.safeKey key) n
  = LocalStorageAdapter.uploadBuffer this w buffer key n
  ∧ LocalStorageAdapter.uploadFile this w filePath
      (LocalStorageAdapter.safeKey key) n
    = LocalStorageAdapter.uploadFile this w filePath key n.
Proof.
  unfold LocalStorageAdapter.uploadBuffer, LocalStorageAdapter.uploadFile.
  by rewrite safeKey_safeKey.
Qed.

(** X3: [uploadBuffer] issues its three filesystem calls in order until one
    fails; it rejects with that call's own error, and otherwise resolves
    with the sanitised key, its public URL and the buffer's length. *)
Theorem uploadBuffer_outcome (this : LocalStorageAdapter.t) (w : World)
    (buffer : Buffer) (destinationKey : string) (n : nat) :
  ∃ evs,
    LocalStorageAdapter.uploadBuffer this w buffer destinationKey n
    = (match (attempt w (uploadBufferCalls this buffer destinationKey)).2 with
       | Some e => Thrown e
       | None =>
           Returned
             {| key := LocalStorageAdapter.safeKey destinationKey;
                url := LocalStorageAdapter.getPublicUrl this
                         (LocalStorageAdapter.safeKey destinationKey);
                size := N.of_nat (length buffer);
                etag := Some (pretty (now w) +:+ "-"
                              +:+ pretty (length buffer)) |}
       end, evs, n)
    ∧ fsCalls evs
      = (attempt w (uploadBufferCalls this buffer destinationKey)).1.
Proof.
  unfold LocalStorageAdapter.uploadBuffer, LocalStorageAdapter.ensureDirectory,
    uploadBufferCalls, destinationOf.
  cbn [attempt]. io_unfold.
  destruct (fsError w (Mkdir _)) as [e|]; [by eexists|].
  destruct (fsError w (Mkdir _)) as [e|]; [by eexists|].
  destruct (fsError w (WriteFile _ _)) as [e|]; by eexists.
Qed.

(** X4: [uploadFile] issues its four filesystem calls (root directory,
    parent directory, copy, stat) in order until one fails; it rejects with
    that call's own error, and otherwise resolves with the sanitised key,
    its public URL and the size and modification time the stat reports. *)
Theorem uploadFile_outcome (this : LocalStorageAdapter.t) (w : World)
    (filePath destinationKey : string) (n : nat) :
  ∃ evs,
    LocalStorageAdapter.uploadFile this w filePath destinationKey n
    = (match (attempt w (uploadFileCalls this filePath destinationKey)).2 with
       | Some e => Thrown e
       | None =>
           Returned
             {| key := LocalStorageAdapter.safeKey destinationKey;
                url := LocalStorageAdapter.getPublicUrl this
                         (LocalStorageAdapter.safeKey destinationKey);
                size := statSize w (destinationOf this destinationKey);
                etag := Some (pretty (statMtime w (destinationOf this destinationKey))
                              +:+ "-"
                              +:+ pretty (statSize w (destinationOf this destinationKey)))
             |}
       end, evs, n)
    ∧ fsCalls evs = (attempt w (uploadFileCalls this filePath destinationKey)).1.
Proof.
  unfold LocalStorageAdapter.uploadFile, LocalStorageAdapter.ensureDirectory,
    uploadFileCalls, destinationOf.
  cbn [attempt]. io_unfold.
  destruct (fsError w (Mkdir _)) as [e|]; [by eexists|].
  destruct (fsError w (Mkdir _)) as [e|]; [by eexists|].
  destruct (fsError w (CopyFile _ _)) as [e|]; [by eexists|].
  destruct (fsError w (Stat _)) as [e|]; by eexists.
Qed.

(** X7: the local health probe never throws: it answers whether creating the
    root, writing the sentinel and removing it all went through, stops at
    the first failure, and its sentinel lies in the root. *)
Theorem local_healthCheck_probe (this : LocalStorageAdapter.t) (w : World)
    (n : nat) :
  ∃ evs,
    LocalStorageAdapter.healthCheck this w n
    = (Returned (bool_decide ((attempt w (probeCalls this)).2 = None)), evs, n)
    ∧ fsCalls evs = (attempt w (probeCalls this)).1
    ∧ Path.inside (LocalStorageAdapter.uploadsDir this)
        (Path.join [LocalStorageAdapter.uploadsDir this; ".health-check"])
      = true.
Proof.
  assert (Hin : Path.inside (LocalStorageAdapter.uploadsDir this)
        (Path.join [LocalStorageAdapter.uploadsDir this; ".health-check"])
      = true).
  { apply join_inside; [|done]. vm_compute. intros H.
    by repeat (apply elem_of_cons in H as [H|H]; [discriminate H|]);
      apply elem_of_nil in H. }
  unfold LocalStorageAdapter.healthCheck, LocalStorageAdapter.ensureDirectory,
    probeCalls.
  cbn [attempt]. io_unfold.
  destruct (fsError w (Mkdir _)) as [e|]; [by eexists|].
  destruct (fsError w (WriteFile _ _)) as [e|]; [by eexists|].
  destruct (fsError w (Unlink _)) as [e|]; by eexists.
Qed.

End UploadFacts.

Section AdapterFacts.
Import StorageFactory.

Lemma r2_healthCheck_answer this w n :
  ∃ evs, CloudFlareR2Adapter.healthCheck this w n
         = (Returned (probeSucceeds w), evs, n)
    ∧ netCalls evs
      = if bool_decide (importError w "@aws-sdk/client-s3" = None)
        then [HeadBucket (CloudFlareR2Adapter.bucketName this)] else [].
Proof.
  unfold CloudFlareR2Adapter.healthCheck, CloudFlareR2Adapter.getS3Client,
    probeSucceeds.
  io_unfold.
  destruct (importError w "@aws-sdk/client-s3"); [by eexists|].
  destruct (headBucketError w); by eexists.
Qed.

Lemma s3_healthCheck_answer this w n :
  ∃ evs, S3CloudFrontAdapter.healthCheck this w n
         = (Returned (probeSucceeds w), evs, n)
    ∧ netCalls evs
      = if bool_decide (importError w "@aws-sdk/client-s3" = None)
        then [HeadBucket (S3CloudFrontAdapter.bucketName this)] else [].
Proof.
  unfold S3CloudFrontAdapter.healthCheck, S3CloudFrontAdapter.getS3Client,
    probeSucceeds.
  io_unfold.
  destruct (importError w "@aws-sdk/client-s3"); [by eexists|].
  destruct (headBucketError w); by eexists.
Qed.

(** X8: the probe of both remote adapters never throws: it answers whether
    the SDK loads and the bucket answers, and asks the bucket once, or not
    at all when the SDK does not load. *)
Theorem remote_healthCheck_probe (w : World) (n : nat) :
  (∀ this, ∃ evs,
     CloudFlareR2Adapter.healthCheck this w n
     = (Returned (probeSucceeds w), evs, n)
     ∧ netCalls evs
       = if bool_decide (importError w "@aws-sdk/client-s3" = None)
         then [HeadBucket (CloudFlareR2Adapter.bucketName this)] else [])
  ∧ (∀ this, ∃ evs,
       S3CloudFrontAdapter.healthCheck this w n
       = (Returned (probeSucceeds w), evs, n)
       ∧ netCalls evs
         = if bool_decide (importError w "@aws-sdk/client-s3" = None)
           then [HeadBucket (S3CloudFrontAdapter.bucketName this)] else []).
Proof.
  split; intros this; [apply r2_healthCheck_answer|apply s3_healthCheck_answer].
Qed.

Lemma missingConfig_ltb config :
  Nat.ltb 0 (length (missingConfig config))
  = negb (bool_decide (missingConfig config = [])).
Proof. by destruct (missingConfig config). Qed.

Lemma createCloudFlareR2Adapter_decides w n :
  (∃ a evs,
     createCloudFlareR2Adapter w n = (Returned a, evs, S n)
     ∧ (∃ this, a = CloudFlareR2Adapter.adapter this n)
     ∧ bool_decide (missingConfig (r2Config w) = []) && probeSucceeds w = true)
  ∨ (∃ e evs n',
       createCloudFlareR2Adapter w n = (Thrown e, evs, n')
       ∧ n ≤ n' ≤ S n
       ∧ bool_decide (missingConfig (r2Config w) = []) && probeSucceeds w
         = false).
Proof.
  unfold createCloudFlareR2Adapter. rewrite missingConfig_ltb.
  destruct (bool_decide _); cbn [negb andb].
  2: { right. eexists _, _, _. split; [reflexivity|]. split; [lia|done]. }
  set (this := CloudFlareR2Adapter.new _ _ _ _ _ _).
  destruct (r2_healthCheck_answer this w (S n)) as (evs & Hrun & _).
  unfold alloc, mbind, IO_bind. cbn [StorageAdapter.healthCheck
    CloudFlareR2Adapter.adapter]. fold this. rewrite Hrun.
  destruct (probeSucceeds w); cbn.
  - left. eexists _, _. split; [reflexivity|]. split; [by exists this|done].
  - right. eexists _, _, _. split; [reflexivity|]. split; [lia|done].
Qed.

Lemma createS3CloudFrontAdapter_decides w n :
  (∃ a evs,
     createS3CloudFrontAdapter w n = (Returned a, evs, S n)
     ∧ (∃ this, a = S3CloudFrontAdapter.adapter this n)
     ∧ bool_decide (missingConfig (s3RequiredConfig w) = [])
       && probeSucceeds w = true)
  ∨ (∃ e evs n',
       createS3CloudFrontAdapter w n = (Thrown e, evs, n')
       ∧ n ≤ n' ≤ S n
       ∧ bool_decide (missingConfig (s3RequiredConfig w) = [])
         && probeSucceeds w = false).
Proof.
  unfold createS3CloudFrontAdapter. rewrite missingConfig_ltb.
  destruct (bool_decide _); cbn [negb andb].
  2: { right. eexists _, _, _. split; [reflexivity|]. split; [lia|done]. }
  match goal with |- context [S3CloudFrontAdapter.adapter ?t] => set (this := t) end.
  destruct (s3_healthCheck_answer this w (S n)) as (evs & Hrun & _).
  unfold alloc, mbind, IO_bind. cbn [StorageAdapter.healthCheck
    S3CloudFrontAdapter.adapter]. rewrite Hrun.
  destruct (probeSucceeds w); cbn.
  - left. eexists _, _. split; [reflexivity|]. split; [by exists this|done].
  - right. eexists _, _, _. split; [reflexivity|]. split; [lia|done].
Qed.

Lemma factoryBuilt_local this n : factoryBuilt (LocalStorageAdapter.adapter this n).
Proof. left. by exists this, n. Qed.
Lemma factoryBuilt_r2 this n : factoryBuilt (CloudFlareR2Adapter.adapter this n).
Proof. right. left. by exists this, n. Qed.
Lemma factoryBuilt_s3 this n : factoryBuilt (S3CloudFrontAdapter.adapter this n).
Proof. right. right. by exists this, n. Qed.

Lemma r2_ready w :
  remoteReady w "cloudflare-r2"
  = bool_decide (missingConfig (r2Config w) = []) && probeSucceeds w.
Proof.
  unfold remoteReady.
  assert (requiredVariables "cloudflare-r2"
          = Some ("CloudFlare R2",
                  [ ("accountId", "CLOUDFLARE_ACCOUNT_ID");
                    ("accessKeyId", "CLOUDFLARE_R2_ACCESS_KEY_ID");
                    ("secretAccessKey", "CLOUDFLARE_R2_SECRET_ACCESS_KEY");
                    ("bucketName", "CLOUDFLARE_R2_BUCKET_NAME");
                    ("cdnDomain", "CLOUDFLARE_R2_CDN_DOMAIN") ])) as ->
    by reflexivity.
  by rewrite <- missingConfig_variables.
Qed.

Lemma s3_ready w :
  remoteReady w "s3-cloudfront"
  = bool_decide (missingConfig (s3RequiredConfig w) = []) && probeSucceeds w.
Proof.
  unfold remoteReady.
  assert (requiredVariables "s3-cloudfront"
          = Some ("AWS S3/CloudFront",
                  [ ("region", "AWS_REGION");
                    ("accessKeyId", "AWS_ACCESS_KEY_ID");
                    ("secretAccessKey", "AWS_SECRET_ACCESS_KEY");
                    ("bucketName", "AWS_S3_BUCKET_NAME");
                    ("cloudFrontDomain", "AWS_CLOUDFRONT_DOMAIN") ])) as ->
    by reflexivity.
  by rewrite <- missingConfig_variables.
Qed.

(** What the local constructor gives, by the decision for the local
    adapter. *)
Lemma createLocalAdapter_decides w n :
  if JS.truthy (env w !! "UPLOADS_DIR") then
    ∃ a evs, createLocalAdapter w n = (Returned a, evs, S n)
             ∧ (∃ this, a = LocalStorageAdapter.adapter this n)
  else match cwd w with
       | Returned _ =>
           ∃ a evs, createLocalAdapter w n = (Returned a, evs, S n)
                    ∧ (∃ this, a = LocalStorageAdapter.adapter this n)
       | Thrown e => ∃ evs, createLocalAdapter w n = (Thrown e, evs, S n)
       end.
Proof.
  destruct (JS.truthy (env w !! "UPLOADS_DIR")) eqn:Hu.
  - rewrite (createLocalAdapter_run w "" n) by by left.
    eexists _, _. split; [done|]. by eexists.
  - destruct (cwd w) as [dir|e] eqn:Hcwd.
    + rewrite (createLocalAdapter_run w dir n) by by right.
      eexists _, _. split; [done|]. by eexists.
    + rewrite (createLocalAdapter_lost w e n) by done. by eexists.
Qed.

(** What a construction gives: an adapter of the expected kind, allocated
    by this construction, which makes one object or two; or the expected
    error. *)
Lemma createAdapter_decides w n :
  match expected w with
  | Builds type =>
      ∃ a evs n',
        createAdapter w n = (Returned a, evs, n')
        ∧ factoryBuilt a
        ∧ StorageAdapter.type a = type
        ∧ n ≤ StorageAdapter.ref a < n' ∧ n' ≤ n + 2
  | Fails e =>
      ∃ evs n', createAdapter w n = (Thrown e, evs, n') ∧ n < n' ≤ n + 2
  end.
Proof.
  assert (Hfallback : ∀ n1 pre, n ≤ n1 ≤ S n →
    match (if JS.truthy (env w !! "UPLOADS_DIR") then Builds local
           else match cwd w with
                | Returned _ => Builds local
                | Thrown e => Fails e
                end) with
    | Builds type =>
        ∃ a evs n',
          (let '(o, evs', n'') := createLocalAdapter w n1 in
           (o, pre ++ evs', n'')) = (Returned a, evs, n')
          ∧ factoryBuilt a
          ∧ StorageAdapter.type a = type
          ∧ n1 ≤ StorageAdapter.ref a < n' ∧ n' ≤ n + 2
    | Fails e =>
        ∃ evs n',
          (let '(o, evs', n'') := createLocalAdapter w n1 in
           (o, pre ++ evs', n'')) = (Thrown e, evs, n')
          ∧ n < n' ≤ n + 2
    end).
  { intros n1 pre Hn1. assert (Hl := createLocalAdapter_decides w n1).
    destruct (JS.truthy (env w !! "UPLOADS_DIR")).
    - destruct Hl as (a & evs & -> & this & ->). eexists _, _, _.
      split; [done|]. split; [apply factoryBuilt_local|]. cbn.
      split; [done|lia].
    - destruct (cwd w) as [dir|e].
      + destruct Hl as (a & evs & -> & this & ->). eexists _, _, _.
        split; [done|]. split; [apply factoryBuilt_local|]. cbn.
        split; [done|lia].
      + destruct Hl as (evs & ->). eexists _, _. split; [done|]. lia. }
  unfold expected. fold (getConfiguredProvider w).
  unfold createAdapter.
  set (provider := getConfiguredProvider w).
  unfold createByProvider, console_log, console_error, console_warn, emit,
    mbind, IO_bind, try_catch.
  destruct (String.eqb provider "cloudflare-r2") eqn:Hr2.
  { apply String.eqb_eq in Hr2. rewrite Hr2, r2_ready. cbn [andb].
    destruct (createCloudFlareR2Adapter_decides w n)
      as [(a & evs & -> & [this ->] & ->)|(e & evs & n' & -> & Hn & ->)].
    - eexists _, _, _. split; [reflexivity|].
      split; [apply factoryBuilt_r2|]. cbn. split; [done|lia].
    - cbn [String.eqb Ascii.eqb Bool.eqb andb].
      specialize (Hfallback n' (Console LogLevel
        ("Initializing storage provider: " +:+ "cloudflare-r2") None
        :: evs ++ [Console ErrorLevel
           ("Failed to initialize " +:+ "cloudflare-r2" +:+ " storage adapter:")
           (shown e);
           Console WarnLevel "Falling back to local storage adapter" None])).
      destruct (if JS.truthy _ then _ else _) as [type|e'].
      + destruct Hfallback as (a & evs' & n2 & Hrun & ? & ? & ? & ?); [lia|].
        destruct (createLocalAdapter w n') as [[o1 evs1] n1].
        exists a, evs', n2. split_and!; try done; try lia.
        rewrite <- Hrun. cbn. by rewrite <- !app_assoc.
      + destruct Hfallback as (evs' & n2 & Hrun & ?); [lia|].
        destruct (createLocalAdapter w n') as [[o1 evs1] n1].
        exists evs', n2. split; [|done].
        rewrite <- Hrun. cbn. by rewrite <- !app_assoc. }
  cbn [andb].
  destruct (String.eqb provider "s3-cloudfront") eqn:Hs3.
  { apply String.eqb_eq in Hs3. rewrite Hs3, s3_ready. cbn [andb].
    destruct (createS3CloudFrontAdapter_decides w n)
      as [(a & evs & -> & [this ->] & ->)|(e & evs & n' & -> & Hn & ->)].
    - eexists _, _, _. split; [reflexivity|].
      split; [apply factoryBuilt_s3|]. cbn. split; [done|lia].
    - specialize (Hfallback n' (Console LogLevel
        ("Initializing storage provider: " +:+ "s3-cloudfront") None
        :: evs ++ [Console ErrorLevel
           ("Failed to initialize " +:+ "s3-cloudfront" +:+ " storage adapter:")
           (shown e);
           Console WarnLevel "Falling back to local storage adapter" None])).
      destruct (if JS.truthy _ then _ else _) as [type|e'].
      + destruct Hfallback as (a & evs' & n2 & Hrun & ? & ? & ? & ?); [lia|].
        destruct (createLocalAdapter w n') as [[o1 evs1] n1].
        exists a, evs', n2. split_and!; try done; try lia.
        rewrite <- Hrun. cbn. by rewrite <- !app_assoc.
      + destruct Hfallback as (evs' & n2 & Hrun & ?); [lia|].
        destruct (createLocalAdapter w n') as [[o1 evs1] n1].
        exists evs', n2. split; [|done].
        rewrite <- Hrun. cbn. by rewrite <- !app_assoc. }
  cbn [andb].
  (* the local adapter is asked for in the switch, and again in the catch
     block when its constructor throws *)
  assert (Hl := createLocalAdapter_decides w n).
  assert (Hl2 := createLocalAdapter_decides w (S n)).
  destruct (JS.truthy (env w !! "UPLOADS_DIR")).
  - destruct Hl as (a & evs & -> & this & ->). eexists _, _, _.
    split; [reflexivity|]. split; [apply factoryBuilt_local|]. cbn.
    split; [done|lia].
  - destruct (cwd w) as [dir|e].
    + destruct Hl as (a & evs & -> & this & ->). eexists _, _, _.
      split; [reflexivity|]. split; [apply factoryBuilt_local|]. cbn.
      split; [done|lia].
    + destruct Hl as (evs & ->). destruct Hl2 as (evs2 & ->).
      eexists _, _. split; [reflexivity|]. lia.
Qed.

Lemma getAdapter_decides w st :
  instance st = None →
  initializationPromise st = None →
  match expected w with
  | Builds type =>
      ∃ a st',
        getAdapter w st = (Returned a, st')
        ∧ instance st' = Some a
        ∧ initializationPromise st' = None
        ∧ factoryBuilt a
        ∧ StorageAdapter.type a = type
        ∧ allocated st ≤ StorageAdapter.ref a < allocated st'
        ∧ allocated st' ≤ allocated st + 2
  | Fails e =>
      ∃ st',
        getAdapter w st = (Thrown e, st')
        ∧ instance st' = None
        ∧ ∀ w', getAdapter w' st' = (Thrown e, st')
  end.
Proof.
  intros Hi Hp. assert (Hc := createAdapter_decides w (allocated st)).
  destruct (expected w) as [type|e].
  - destruct Hc as (a & evs & n' & Hrun & Hbuilt & Htype & Href & Hn).
    exists a, (afterConstruction a evs n' st).
    split; [by apply getAdapter_fresh|]. cbn.
    split_and!; [done..|lia|lia|lia].
  - destruct Hc as (evs & n' & Hrun & Hn).
    exists (afterRejection e evs n' st).
    split; [by apply getAdapter_fresh_rejected|]. split; [done|].
    intros w'. apply afterRejection_stuck.
Qed.

Lemma factoryBuilt_cdnEnabled a :
  factoryBuilt a →
  StorageAdapter.cdnEnabled a = bool_decide (StorageAdapter.type a ≠ local).
Proof. by intros [(this & n & ->)|[(this & n & ->)|(this & n & ->)]]. Qed.

(** X12: the decision table of the factory, over the environment.  A first
    [getAdapter()] answers and caches an adapter made by this very call,
    of the remote kind that [STORAGE_PROVIDER] selects when every variable
    that provider requires is set and not empty and the bucket probe goes
    through, and of the local kind in every other case, the CDN being
    enabled exactly for the remote kinds; unless the local adapter is
    needed, no [UPLOADS_DIR] is set and [process.cwd()] throws: then the
    call is rejected with that error, nothing is cached, and every later
    call is rejected with it, in every world. *)
Theorem factory_decision_table (w : World) (st : State) :
  instance st = None →
  initializationPromise st = None →
  match expected w with
  | Builds type =>
      ∃ a st',
        getAdapter w st = (Returned a, st')
        ∧ instance st' = Some a
        ∧ StorageAdapter.type a = type
        ∧ StorageAdapter.cdnEnabled a = bool_decide (type ≠ local)
        ∧ allocated st ≤ StorageAdapter.ref a < allocated st'
  | Fails e =>
      ∃ st',
        getAdapter w st = (Thrown e, st')
        ∧ instance st' = None
        ∧ ∀ w', getAdapter w' st' = (Thrown e, st')
  end.
Proof.
  intros Hi Hp. assert (Hd := getAdapter_decides w st Hi Hp).
  destruct (expected w) as [type|e]; [|done].
  destruct Hd as (a & st' & Hrun & Hinst & _ & Hbuilt & Htype & Href & _).
  exists a, st'. split_and!; try done; try lia.
  by rewrite (factoryBuilt_cdnEnabled a Hbuilt), Htype.
Qed.

Lemma factory_decision_table_witness :
  (∃ a st',
     getAdapter (calm r2Env) initial = (Returned a, st')
     ∧ instance st' = Some a
     ∧ StorageAdapter.type a = cloudflare_r2
     ∧ StorageAdapter.cdnEnabled a = true
     ∧ 0 ≤ StorageAdapter.ref a < allocated st')
  ∧ (∃ st',
       getAdapter (adrift r2Env) initial = (Returned r2Adapter, st'))
  ∧ (∃ st',
       getAdapter (adrift ∅) initial = (Thrown uv_cwd, st')
       ∧ instance st' = None
       ∧ ∀ w', getAdapter w' st' = (Thrown uv_cwd, st')).
Proof.
  split_and!.
  - exact (factory_decision_table (calm r2Env) initial eq_refl eq_refl).
  - by eexists.
  - exact (factory_decision_table (adrift ∅) initial eq_refl eq_refl).
Defined.

(** X13: the configuration is read once.  When a first [getAdapter()] has
    answered with an adapter, every later call answers the same adapter
    and leaves the process as it is, whatever the environment and the
    network have become; only after [reset()] does a call construct
    again: it answers a new object, of the kind the world of that call
    decides, or is rejected when that world has no root for the local
    adapter it needs. *)
Theorem configuration_read_once (w : World) (st : State)
    (a : StorageAdapter.t) (st1 : State) :
  instance st = None →
  initializationPromise st = None →
  getAdapter w st = (Returned a, st1) →
  (∀ w', getAdapter w' st1 = (Returned a, st1))
  ∧ (∀ w',
       match expected w' with
       | Builds type =>
           ∃ a' st2,
             getAdapter w' (reset st1) = (Returned a', st2)
             ∧ StorageAdapter.type a' = type
             ∧ StorageAdapter.ref a < StorageAdapter.ref a'
       | Fails e =>
           ∃ st2,
             getAdapter w' (reset st1) = (Thrown e, st2)
             ∧ instance st2 = None
       end).
Proof.
  intros Hi Hp Hget. assert (Hd := getAdapter_decides w st Hi Hp).
  destruct (expected w) as [type|e];
    [|destruct Hd as (? & Hd & _); congruence].
  destruct Hd as (a0 & st0 & Hrun & Hinst & _ & _ & _ & Href & _).
  assert (a0 = a ∧ st0 = st1) as [-> ->] by (split; congruence).
  split.
  - intros w'. unfold getAdapter, enter. by rewrite Hinst.
  - intros w'.
    assert (Hd' := getAdapter_decides w' (reset st1) eq_refl eq_refl).
    destruct (expected w') as [type'|e'].
    + destruct Hd' as (a' & st2 & Hrun' & _ & _ & _ & Htype & Href' & _).
      exists a', st2. split_and!; [done..|]. cbn in Href'. lia.
    + destruct Hd' as (st2 & Hrun' & Hinst' & _). by exists st2.
Qed.

Lemma configuration_read_once_witness :
  (∀ w', getAdapter w' localReady = (Returned firstLocal, localReady))
  ∧ (∃ a' st2,
       getAdapter (calm r2Env) (reset localReady) = (Returned a', st2)
       ∧ StorageAdapter.type a' = cloudflare_r2
       ∧ StorageAdapter.ref firstLocal < StorageAdapter.ref a')
  ∧ (∃ st2,
       getAdapter (adrift ∅) (reset localReady) = (Thrown uv_cwd, st2)
       ∧ instance st2 = None).
Proof.
  assert (Hfirst : getAdapter (calm ∅) initial
                   = (Returned firstLocal, localReady)) by reflexivity.
  destruct (configuration_read_once (calm ∅) initial firstLocal localReady
              eq_refl eq_refl Hfirst) as [Hsame Hreset].
  split_and!.
  - exact Hsame.
  - exact (Hreset (calm r2Env)).
  - exact (Hreset (adrift ∅)).
Defined.

End AdapterFacts.

Section SoundFacts.
Import StorageFactory.

Lemma soundCaller_mono made made' c :
  made ≤ made' → soundCaller made c → soundCaller made' c.
Proof.
  intros Hle. destruct c as [p|p|a|e]; cbn; try done;
    intros [Hn Hres]; (split; [lia|done]).
Qed.

Lemma step_sound m act :
  Sound m →
  (∀ w, act = Call w → constructs w) →
  Sound (step m act)
  ∧ created (process m) ≤ created (process (step m act))
  ∧ created (process (step m act))
    ≤ created (process m) + (if isCall act then 1 else 0)
  ∧ length (callers (step m act))
    = length (callers m) + (if isCall act then 1 else 0).
Proof.
  intros [Hinst Hprom Hcs] Hw.
  destruct m as [[inst ip cr st al ev] cs]. cbn in *.
  destruct act as [w|p|i|].
  - (* a call *)
    unfold step, enter; cbn.
    destruct inst as [a|]; cbn.
    { split_and!; [split; cbn; [done..|]|lia|lia|rewrite length_app; cbn; lia].
      apply Forall_app. split; [done|]. apply Forall_singleton. cbn. auto. }
    destruct ip as [p|]; cbn.
    { split_and!; [split; cbn; [done..|]|lia|lia|rewrite length_app; cbn; lia].
      apply Forall_app. split; [done|]. apply Forall_singleton. cbn. auto. }
    assert (Hd := createAdapter_decides w al).
    destruct (Hw w eq_refl) as [type Hexp]. rewrite Hexp in Hd.
    destruct Hd as (a & evs & n' & -> & Hbuilt & _). cbn.
    assert (Hp : resolvesBuilt (S cr) {| number := cr; result := Returned a |}).
    { split; [cbn; lia|]. by exists a. }
    split_and!; [split; cbn|lia|lia|rewrite length_app; cbn; lia].
    + done.
    + by intros p [= <-].
    + apply Forall_app. split; [|by apply Forall_singleton].
      eapply Forall_impl; [done|]. intros c. apply soundCaller_mono. lia.
  - (* a promise settles *)
    cbn. split_and!; [by split|lia..].
  - (* a caller is resumed *)
    cbn. destruct (cs !! i) as [c|] eqn:Hi; cbn; [|split_and!; [by split|lia..]].
    assert (Hc : soundCaller cr c) by (eapply Forall_lookup_1 in Hcs; eauto).
    assert (Hsame : <[i:=c]> cs = cs) by by apply list_insert_id.
    destruct c as [p|p|a|e]; cbn in Hc |- *.
    + destruct Hc as [Hn (a & Hres & Hbuilt)].
      case_bool_decide; cbn; rewrite ?Hres; cbn.
      * rewrite length_insert. split_and!; [split; cbn|lia..].
        -- by intros ? [= <-].
        -- done.
        -- by apply Forall_insert.
      * rewrite Hsame. split_and!; [by split|lia..].
    + destruct Hc as [Hn (a & Hres & Hbuilt)].
      case_bool_decide; cbn; rewrite ?Hres; cbn.
      * rewrite length_insert. split_and!; [split; cbn; [done..|]|lia..].
        by apply Forall_insert.
      * rewrite Hsame. split_and!; [by split|lia..].
    + rewrite Hsame. split_and!; [by split|lia..].
    + done.
  - (* reset *)
    cbn. split_and!; [split; cbn; [done..|]|lia..]. done.
Qed.

Lemma start_sound : Sound start.
Proof. split; cbn; [done..|]. apply Forall_nil_2. Qed.

Lemma run_sound acts :
  Forall constructs (worldsOf acts) →
  Sound (run acts start)
  ∧ created (process (run acts start)) ≤ numberOfCalls acts
  ∧ length (callers (run acts start)) = numberOfCalls acts.
Proof.
  induction acts as [|act acts IH] using rev_ind.
  { intros _. split; [apply start_sound|]. by cbn. }
  unfold worldsOf. rewrite omap_app. intros [Hacts Hact]%Forall_app.
  rewrite run_snoc, numberOfCalls_snoc.
  destruct (IH Hacts) as (Hs & Hcr & Hlen).
  destruct (step_sound _ act Hs) as (Hs' & _ & Hcr' & Hlen').
  { intros w ->. exact (List.Forall_inv Hact). }
  split_and!; [done|lia|lia].
Qed.


Lemma settle_upto k m :
  Sound m →
  k ≤ created (process m) →
  let m' := run (map Settle (seq 0 k)) m in
  Sound m'
  ∧ created (process m') = created (process m)
  ∧ callers m' = callers m
  ∧ ∀ p, p < k → p ∈ settled (process m').
Proof.
  intros Hs. induction k as [|k IH]; intros Hk; cbn zeta.
  { split_and!; try done. intros; lia. }
  rewrite seq_S, map_app, run_app. cbn [map run fold_left Nat.add].
  destruct IH as (Hs' & Hcr & Hcs & Hset); [lia|]. cbn zeta in *.
  set (m' := run _ m) in *.
  destruct (step_sound m' (Settle k) Hs') as (Hs'' & _); [done|].
  split_and!; [done|by cbn|by cbn|].
  intros p Hp. cbn. rewrite bool_decide_eq_true_2 by lia.
  destruct (decide (p = k)) as [->|]; [set_solver|].
  apply elem_of_union_r, Hset. lia.
Qed.

Lemma resume_upto k m :
  Sound m →
  allSettled m →
  k ≤ length (callers m) →
  let m' := run (map Resume (seq 0 k)) m in
  Sound m'
  ∧ allSettled m'
  ∧ length (callers m') = length (callers m)
  ∧ ∀ i, i < k → ∃ c, callers m' !! i = Some c ∧ answered c.
Proof.
  intros Hs Hall. induction k as [|k IH]; intros Hk; cbn zeta.
  { split_and!; try done. intros; lia. }
  rewrite seq_S, map_app, run_app. cbn [map run fold_left Nat.add].
  destruct IH as (Hs' & Hall' & Hlen & Hdone); [lia|]. cbn zeta in *.
  set (m' := run _ m) in *.
  destruct (step_sound m' (Resume k) Hs') as (Hs'' & _ & _ & Hlen'');
    [done|].
  cbn [isCall] in Hlen''. rewrite Nat.add_0_r in Hlen''.
  destruct (lookup_lt_is_Some_2 (callers m') k) as [c Hc]; [lia|].
  assert (Hcase := Forall_lookup_1 _ _ _ _ (sound_callers _ Hs') Hc).
  assert (Hres : ∃ c' st',
            resume c (process m') = (c', st') ∧ answered c'
            ∧ created st' = created (process m')
            ∧ settled st' = settled (process m')).
  { destruct c as [p|p|a|e]; cbn in Hcase |- *; [| | |done].
    - destruct Hcase as [Hn (a & Hres & Hbuilt)].
      rewrite bool_decide_eq_true_2 by by apply Hall'.
      rewrite Hres. cbn. eexists _, _. split; [done|].
      split; [by exists a|done].
    - destruct Hcase as [Hn (a & Hres & Hbuilt)].
      rewrite bool_decide_eq_true_2 by by apply Hall'.
      rewrite Hres. eexists _, _. split; [done|].
      split; [by exists a|done].
    - eexists _, _. split; [done|]. split; [by exists a|done]. }
  destruct Hres as (c' & st' & Hres & Hans & Hcr & Hset).
  split_and!; [done| |lia|].
  - intros p. cbn. rewrite Hc, Hres. cbn. rewrite Hcr, Hset. apply Hall'.
  - intros i Hi. cbn. rewrite Hc, Hres. cbn.
    destruct (decide (i = k)) as [->|Hne].
    + exists c'. by rewrite list_lookup_insert_eq by lia.
    + rewrite list_lookup_insert_ne by done. apply Hdone. lia.
Qed.

(** X14: under every schedule, resets included, in which every call is
    made in a world where the construction returns (the selected remote
    provider can be used, or the local adapter has a root), no caller of
    [getAdapter] is ever rejected; no more constructions are started than
    there were calls; and once everything pending has finished, every
    caller holds an adapter of the repository. *)
Theorem every_caller_is_answered (acts : list Action) :
  Forall constructs (worldsOf acts) →
  let m := run acts start in
  Forall (soundCaller (created (process m))) (callers m)
  ∧ created (process m) ≤ numberOfCalls acts
  ∧ length (callers (run (drain m) m)) = numberOfCalls acts
  ∧ Forall answered (callers (run (drain m) m)).
Proof.
  intros Hworlds. cbn zeta.
  destruct (run_sound acts Hworlds) as (Hs & Hcr & Hlen).
  set (m := run acts start) in *.
  unfold drain. rewrite run_app.
  destruct (settle_upto (created (process m)) m Hs (Nat.le_refl _))
    as (Hs1 & Hcr1 & Hcs1 & Hset1). cbn zeta in *.
  set (m1 := run (map Settle _) m) in *.
  destruct (resume_upto (length (callers m)) m1 Hs1)
    as (Hs2 & _ & Hlen2 & Hdone).
  { intros p Hp. apply Hset1. by rewrite <- Hcr1. }
  { by rewrite Hcs1. }
  cbn zeta in *.
  split_and!; [apply Hs|done|by rewrite Hlen2, Hcs1|].
  apply Forall_lookup_2. intros i c Hi.
  destruct (Hdone i) as (c' & Hc' & Hans).
  { apply lookup_lt_Some in Hi. by rewrite Hlen2, Hcs1 in Hi. }
  congruence.
Qed.

Lemma every_caller_is_answered_witness :
  let acts := [Call (calm r2Env); Reset; Call (calm ∅); Settle 1; Resume 1;
               Call (adrift r2Env)] in
  let m := run acts start in
  Forall (soundCaller (created (process m))) (callers m)
  ∧ created (process m) ≤ 3
  ∧ length (callers (run (drain m) m)) = 3
  ∧ Forall answered (callers (run (drain m) m)).
Proof.
  apply (every_caller_is_answered
           [Call (calm r2Env); Reset; Call (calm ∅); Settle 1; Resume 1;
            Call (adrift r2Env)]).
  repeat apply Forall_cons_2; [by eexists..|apply Forall_nil_2].
Defined.

End SoundFacts.

Section ResetFacts.
Import StorageFactory.

(** X15: [reset] does not cancel a construction in flight.  When both
    constructions return, a caller suspended before the reset still stores
    its adapter when it resumes: if it resumes after the caller that
    arrived after the reset, both callers are answered, each with an
    adapter of the kind its own world decides, and the adapter made before
    the reset is the cached instance again. *)
Theorem reset_keeps_construction_in_flight (w1 w2 : World)
    (type1 type2 : ProviderType) :
  expected w1 = Builds type1 →
  expected w2 = Builds type2 →
  let m := run [Call w1; Reset; Call w2; Settle 1; Resume 1; Settle 0;
                Resume 0] start in
  ∃ a1 a2,
    callers m = [Fulfilled a1; Fulfilled a2]
    ∧ StorageAdapter.type a1 = type1
    ∧ StorageAdapter.type a2 = type2
    ∧ StorageAdapter.ref a1 < StorageAdapter.ref a2
    ∧ created (process m) = 2
    ∧ instance (process m) = Some a1.
Proof.
  intros H1 H2. cbn zeta.
  assert (Hd1 := createAdapter_decides w1 0). rewrite H1 in Hd1.
  destruct Hd1 as (a1 & evs1 & n1 & Hc1 & _ & Ht1 & Hr1 & _).
  assert (Hd2 := createAdapter_decides w2 n1). rewrite H2 in Hd2.
  destruct Hd2 as (a2 & evs2 & n2 & Hc2 & _ & Ht2 & Hr2 & _).
  exists a1, a2. unfold run. cbn [fold_left].
  unfold step at 7. unfold enter, start, initial. cbn. rewrite Hc1. cbn.
  rewrite Hc2. cbn.
  rewrite !bool_decide_eq_true_2 by (lia || set_solver). cbn.
  rewrite !bool_decide_eq_true_2 by (lia || set_solver). cbn.
  split_and!; try done. lia.
Qed.

Lemma reset_keeps_construction_in_flight_witness :
  let m := run [Call (calm r2Env); Reset; Call (calm ∅); Settle 1; Resume 1;
                Settle 0; Resume 0] start in
  ∃ a1 a2,
    callers m = [Fulfilled a1; Fulfilled a2]
    ∧ StorageAdapter.type a1 = cloudflare_r2
    ∧ StorageAdapter.type a2 = local
    ∧ StorageAdapter.ref a1 < StorageAdapter.ref a2
    ∧ created (process m) = 2
    ∧ instance (process m) = Some a1.
Proof.
  apply (reset_keeps_construction_in_flight (calm r2Env) (calm ∅)
           cloudflare_r2 local); reflexivity.
Defined.

End ResetFacts.

Section ContractFacts.
Import StorageFactory.

Lemma app_inv_head_string (p s1 s2 : string) : p +:+ s1 = p +:+ s2 → s1 = s2.
Proof.
  induction p as [|c p IH]; [done|]. rewrite !app_String. intros [= H]. auto.
Qed.

Lemma local_getPublicUrl_inj this k1 k2 :
  LocalStorageAdapter.getPublicUrl this k1
  = LocalStorageAdapter.getPublicUrl this k2 → k1 = k2.
Proof.
  unfold LocalStorageAdapter.getPublicUrl.
  destruct (JS.nonEmpty _); intros H.
  - by apply app_inv_head_string, app_inv_head_string in H.
  - by apply app_inv_head_string in H.
Qed.

Lemma r2_getPublicUrl_inj this k1 k2 :
  CloudFlareR2Adapter.getPublicUrl this k1
  = CloudFlareR2Adapter.getPublicUrl this k2 → k1 = k2.
Proof.
  unfold CloudFlareR2Adapter.getPublicUrl. intros H.
  by do 3 apply app_inv_head_string in H.
Qed.

Lemma s3_getPublicUrl_inj this k1 k2 :
  S3CloudFrontAdapter.getPublicUrl this k1
  = S3CloudFrontAdapter.getPublicUrl this k2 → k1 = k2.
Proof.
  unfold S3CloudFrontAdapter.getPublicUrl. intros H.
  by do 3 apply app_inv_head_string in H.
Qed.

Lemma local_healthCheck_run this w n :
  ∃ b evs, LocalStorageAdapter.healthCheck this w n = (Returned b, evs, n).
Proof.
  unfold LocalStorageAdapter.healthCheck, LocalStorageAdapter.ensureDirectory.
  io_unfold.
  destruct (fsError w (Mkdir _)) as [e|]; [by eexists _, _|].
  destruct (fsError w (WriteFile _ _)) as [e|]; [by eexists _, _|].
  destruct (fsError w (Unlink _)) as [e|]; by eexists _, _.
Qed.

(** X9: what every adapter of the repository guarantees to its users: the
    probe and the purge answer and never throw, and make no object; the CDN
    flag is set exactly on the remote kinds; and two keys never share a
    public URL. *)
Theorem adapter_contract (a : StorageAdapter.t) :
  factoryBuilt a →
  (∀ w n, ∃ b evs, StorageAdapter.healthCheck a w n = (Returned b, evs, n))
  ∧ (∀ w keys n,
       ∃ b evs, StorageAdapter.purgeCdnCache a w keys n = (Returned b, evs, n))
  ∧ StorageAdapter.cdnEnabled a = bool_decide (StorageAdapter.type a ≠ local)
  ∧ (∀ k1 k2, k1 ≠ k2 →
       StorageAdapter.getPublicUrl a k1 ≠ StorageAdapter.getPublicUrl a k2).
Proof.
  intros Hbuilt. split_and!.
  - intros w n. destruct Hbuilt as [(this & r & ->)|[(this & r & ->)|(this & r & ->)]]; cbn.
    + apply local_healthCheck_run.
    + destruct (r2_healthCheck_answer this w n) as (evs & -> & _).
      by eexists _, _.
    + destruct (s3_healthCheck_answer this w n) as (evs & -> & _).
      by eexists _, _.
  - intros w keys n. destruct Hbuilt as [(this & r & ->)|[(this & r & ->)|(this & r & ->)]]; cbn.
    + by eexists _, _.
    + destruct (r2_purgeCdnCache_run this w keys n) as (evs & ->).
      by eexists _, _.
    + destruct (s3_purgeCdnCache_run this w keys n) as (evs & ->).
      by eexists _, _.
  - by apply factoryBuilt_cdnEnabled.
  - intros k1 k2 Hne Heq. apply Hne.
    destruct Hbuilt as [(this & r & ->)|[(this & r & ->)|(this & r & ->)]]; cbn in Heq.
    + by eapply local_getPublicUrl_inj.
    + by eapply r2_getPublicUrl_inj.
    + by eapply s3_getPublicUrl_inj.
Qed.

Lemma adapter_contract_witness :
  (∀ w n, ∃ b evs,
     StorageAdapter.healthCheck r2Adapter w n = (Returned b, evs, n))
  ∧ (∀ w keys n,
       ∃ b evs,
         StorageAdapter.purgeCdnCache r2Adapter w keys n = (Returned b, evs, n))
  ∧ StorageAdapter.cdnEnabled r2Adapter
    = bool_decide (StorageAdapter.type r2Adapter ≠ local)
  ∧ (∀ k1 k2, k1 ≠ k2 →
       StorageAdapter.getPublicUrl r2Adapter k1
       ≠ StorageAdapter.getPublicUrl r2Adapter k2).
Proof.
  apply (adapter_contract r2Adapter). right. left. eexists _, _. reflexivity.
Defined.

(** X10: the request the R2 adapter sends for a purge: one call of the zone
    API with the public URL of every key, in order; none when the zone or
    the token is not configured. *)
Theorem r2_purge_request (this : CloudFlareR2Adapter.t) (w : World)
    (keys : list string) (n : nat) :
  netCalls (CloudFlareR2Adapter.purgeCdnCache this w keys n).1.2
  = match env w !! "CLOUDFLARE_ZONE_ID", env w !! "CLOUDFLARE_API_TOKEN" with
    | Some (String c zoneId), Some (String _ _) =>
        [ZonePurge (String c zoneId)
           (map (CloudFlareR2Adapter.getPublicUrl this) keys)]
    | _, _ => []
    end.
Proof.
  unfold CloudFlareR2Adapter.purgeCdnCache. io_unfold.
  destruct (env w !! "CLOUDFLARE_ZONE_ID") as [[|c zoneId]|]; [done| |done].
  destruct (env w !! "CLOUDFLARE_API_TOKEN") as [[|c' token]|]; [done| |done].
  cbn. destruct (zonePurge w) as [e|[] [body|e]]; done.
Qed.

(** X11: the request the S3 adapter sends for a purge: one invalidation of
    the distribution with [/key] for every key, in order; none when no
    distribution is configured or the SDK does not load. *)
Theorem s3_purge_request (this : S3CloudFrontAdapter.t) (w : World)
    (keys : list string) (n : nat) :
  netCalls (S3CloudFrontAdapter.purgeCdnCache this w keys n).1.2
  = match S3CloudFrontAdapter.cloudFrontDistributionId this with
    | Some (String c distributionId) =>
        if bool_decide (importError w "@aws-sdk/client-cloudfront" = None)
        then [CreateInvalidation (String c distributionId)
                (map (λ key, "/" +:+ key) keys)]
        else []
    | _ => []
    end.
Proof.
  unfold S3CloudFrontAdapter.purgeCdnCache,
    S3CloudFrontAdapter.getCloudFrontClient. io_unfold.
  destruct (S3CloudFrontAdapter.cloudFrontDistributionId this)
    as [[|c distributionId]|]; [done| |done].
  cbn. destruct (importError w "@aws-sdk/client-cloudfront") as [e|]; [done|].
  destruct (invalidationError w) as [e|]; done.
Qed.

End ContractFacts.

Section CdnFacts.
Import StorageFactory CdnService.

Lemma urlsToStorageKeys_run pathnameOf urls n :
  urlsToStorageKeys pathnameOf urls n
  = (Returned (map (λ url, JS.stripLeadingSlashes <$> pathnameOf url) urls),
     map (λ url, Console ErrorLevel "Invalid URL:" (Some url))
       (invalidUrls pathnameOf urls),
     n).
Proof.
  induction urls as [|url urls IH]; [done|].
  cbn [urlsToStorageKeys]. unfold mbind, IO_bind. unfold urlToStorageKey.
  cbn [map invalidUrls List.filter].
  destruct (pathnameOf url) as [pathname|]; cbn.
  - rewrite IH. by rewrite app_nil_r.
  - unfold console_error, emit, mbind, IO_bind. cbn. rewrite IH. cbn.
    by rewrite app_nil_r.
Qed.

Lemma filterBoolean_keysOfUrls pathnameOf urls :
  filterBoolean (map (λ url, JS.stripLeadingSlashes <$> pathnameOf url) urls)
  = keysOfUrls pathnameOf urls.
Proof.
  unfold filterBoolean, keysOfUrls.
  induction urls as [|url urls IH]; [done|].
  cbn [map omap list_omap]. rewrite IH.
  destruct (pathnameOf url) as [pathname|]; cbn; [|done].
  by destruct (JS.stripLeadingSlashes pathname).
Qed.

Lemma keysOfUrls_clean pathnameOf urls :
  Forall (λ key, key ≠ "" ∧ JS.startsWith "/" key = false)
    (keysOfUrls pathnameOf urls).
Proof.
  unfold keysOfUrls.
  induction urls as [|url urls IH]; [apply Forall_nil_2|].
  cbn [omap list_omap]. destruct (pathnameOf url) as [pathname|]; [|done].
  assert (Hslash := stripLeadingSlashes_no_slash pathname).
  destruct (JS.stripLeadingSlashes pathname) as [|c k]; [done|].
  apply Forall_cons. by split.
Qed.

(** X17: [purgeUrls] turns every URL into the key that is its path without
    leading slashes, drops the texts that are not URLs (each with an error
    on the console) and the empty keys; with no key left it fails without
    asking the factory for the adapter; otherwise it is [purgeCache] for
    exactly these keys, none of which is empty or starts with a slash. *)
Theorem purgeUrls_outcome (pathnameOf : string → option string) (w : World)
    (urls : list string) (st : State) :
  let keys := keysOfUrls pathnameOf urls in
  let st1 :=
    afterLogging (map (λ url, Console ErrorLevel "Invalid URL:" (Some url))
              (invalidUrls pathnameOf urls)) st in
  purgeUrls pathnameOf w urls st
  = (if bool_decide (keys = []) then
       (Returned {| success := false; purgedKeys := [];
                    message := "No valid URLs provided";
                    cdnProvider := None |}, st1)
     else purgeCache w (onlyKeys keys) st1)
  ∧ Forall (λ key, key ≠ "" ∧ JS.startsWith "/" key = false) keys.
Proof.
  cbn zeta. split; [|apply keysOfUrls_clean].
  unfold purgeUrls, runIO. rewrite urlsToStorageKeys_run.
  rewrite filterBoolean_keysOfUrls.
  by destruct (keysOfUrls pathnameOf urls).
Qed.

Lemma stripLeadingSlashes_slash s :
  JS.stripLeadingSlashes ("/" +:+ s) = JS.stripLeadingSlashes s.
Proof. reflexivity. Qed.

Lemma keysOfUrls_publicUrls pathnameOf (url : string → string) keys :
  Forall (λ key, key ≠ "" ∧ JS.startsWith "/" key = false
                 ∧ pathnameOf (url key) = Some ("/" +:+ key)) keys →
  keysOfUrls pathnameOf (map url keys) = keys
  ∧ invalidUrls pathnameOf (map url keys) = [].
Proof.
  unfold keysOfUrls, invalidUrls.
  induction 1 as [|key keys (Hne & Hslash & Hpath) _ [IH1 IH2]]; [done|].
  cbn [map omap list_omap List.filter]. rewrite Hpath, IH1, IH2.
  rewrite stripLeadingSlashes_slash.
  rewrite (stripLeadingSlashes_fixed key Hslash).
  by destruct key as [|c k].
Qed.

(** X18: purging by the public URLs of keys is purging by the keys, for keys
    that are not empty, do not start with a slash and whose URL has the
    key as its path. *)
Theorem purgeUrls_round_trip (pathnameOf : string → option string)
    (w : World) (a : StorageAdapter.t) (keys : list string) (st : State) :
  keys ≠ [] →
  Forall (λ key, key ≠ "" ∧ JS.startsWith "/" key = false
                 ∧ pathnameOf (StorageAdapter.getPublicUrl a key)
                   = Some ("/" +:+ key)) keys →
  purgeUrls pathnameOf w (map (StorageAdapter.getPublicUrl a) keys) st
  = purgeCache w (onlyKeys keys) st.
Proof.
  intros Hne Hkeys.
  destruct (keysOfUrls_publicUrls pathnameOf _ keys Hkeys) as [Hk Hinv].
  unfold purgeUrls, runIO. rewrite urlsToStorageKeys_run.
  rewrite filterBoolean_keysOfUrls, Hk, Hinv. cbn [map].
  destruct keys as [|k ks]; [done|]. cbn [length Nat.eqb].
  f_equal. destruct st. cbn. by rewrite app_nil_r.
Qed.

Lemma purgeUrls_round_trip_witness :
  let pathnameOf url :=
    if String.eqb url "https://cdn.example.com/courses/c1/index.html"
    then Some "/courses/c1/index.html" else None in
  purgeUrls pathnameOf (calm r2Env)
    (map (StorageAdapter.getPublicUrl r2Adapter) ["courses/c1/index.html"])
    r2Ready
  = purgeCache (calm r2Env) (onlyKeys ["courses/c1/index.html"]) r2Ready.
Proof.
  intros pathnameOf.
  apply (purgeUrls_round_trip pathnameOf (calm r2Env) r2Adapter
           ["courses/c1/index.html"] r2Ready); [discriminate|].
  apply Forall_cons. split; [|apply Forall_nil_2].
  split; [discriminate|]. split; reflexivity.
Defined.

Lemma keysByPrecedence_course w id :
  keysByPrecedence w (onlyCourse id)
  = match id with
    | EmptyString => None
    | String c id' => Some (courseKeys w (String c id'))
    end.
Proof. by destruct id. Qed.

(** X16: [purgeCourseCache] with a CDN: the adapter's purge is called once,
    with the course's own storage key when it has one and with the
    wildcard [courses/<id>/*] when it has none; when the course is unknown
    or the database fails, nothing is purged and the result is a success;
    for the empty identifier the request fails as one that names no
    target. *)
Theorem purgeCourseCache_resolution (w : World) (id : string)
    (st : State) (a : StorageAdapter.t) (st' : State) :
  getAdapter w st = (Returned a, st') →
  StorageAdapter.cdnEnabled a = true →
  match id, getCourse w id with
  | EmptyString, _ =>
      purgeCourseCache w id st
      = (Returned {| success := false; purgedKeys := [];
                     message := "No purge target specified";
                     cdnProvider := None |}, st')
  | _, Returned (Some course) =>
      purges w (onlyCourse id) st a st'
        [match storageKey course with
         | Some (String c k) => String c k
         | _ => "courses/" +:+ id +:+ "/*"
         end]
  | _, _ =>
      ∃ st'',
        purgeCourseCache w id st
        = (Returned {| success := true; purgedKeys := [];
                       message := "No keys found to purge";
                       cdnProvider := None |}, st'')
        ∧ purgeCalls (since st' st'') = []
  end.
Proof.
  intros Hget Hcdn.
  change (purgeCourseCache w id st) with (purgeCache w (onlyCourse id) st).
  assert (Hkeys := keysByPrecedence_course w id).
  destruct id as [|c id'].
  { by apply (purgeCache_idle w _ st a st' Hget Hcdn). }
  unfold courseKeys in Hkeys.
  destruct (getCourse w (String c id')) as [[course|]|e].
  - assert (Hk : ∃ k, keysByPrecedence w (onlyCourse (String c id'))
                      = Some [k]
                   ∧ k = match storageKey course with
                         | Some (String c0 k0) => String c0 k0
                         | _ => "courses/" +:+ String c id' +:+ "/*"
                         end).
    { rewrite Hkeys. destruct (storageKey course) as [[|??]|]; by eexists. }
    destruct Hk as (k & Hk & <-).
    destruct (purgeCache_delegates w _ st a st' k [] Hget Hcdn Hk)
      as (r & st'' & Hrun & Hcall & _).
    by exists r, st''.
  - by apply (purgeCache_idle w _ st a st' Hget Hcdn).
  - by apply (purgeCache_idle w _ st a st' Hget Hcdn).
Qed.

Lemma purgeCourseCache_resolution_witness :
  ∃ st'',
    purgeCourseCache (calm r2Env) "c1" initial
    = (Returned {| success := true; purgedKeys := [];
                   message := "No keys found to purge";
                   cdnProvider := None |}, st'')
    ∧ purgeCalls (since r2Ready st'') = [].
Proof.
  exact (purgeCourseCache_resolution (calm r2Env) "c1" initial r2Adapter
           r2Ready eq_refl eq_refl).
Defined.

End CdnFacts.

Section StatusFacts.
Import StorageFactory CdnService.

Lemma getAdapter_quiescent w st a st1 :
  quiescent st →
  getAdapter w st = (Returned a, st1) →
  factoryBuilt a
  ∧ instance st1 = Some a
  ∧ (instance st = None → expected w = Builds (StorageAdapter.type a))
  ∧ (∀ a0, instance st = Some a0 → a = a0 ∧ st1 = st).
Proof.
  intros [Hp Hbuilt] Hget. destruct (instance st) as [a0|] eqn:Hi.
  - unfold getAdapter, enter in Hget. rewrite Hi in Hget. simplify_eq.
    split_and!; [by apply Hbuilt|done|done|]. by intros ? [= <-].
  - assert (Hd := getAdapter_decides w st Hi Hp).
    destruct (expected w) as [type|e];
      [|destruct Hd as (? & Hd & _); congruence].
    destruct Hd as (a' & st' & Hrun & Hinst & _ & Hb & Htype & _).
    assert (a' = a ∧ st' = st1) as [-> ->] by (split; congruence).
    split_and!; [done|done|by rewrite Htype|done].
Qed.

Lemma healthCheck_remote a w n :
  factoryBuilt a →
  ∃ b evs,
    StorageAdapter.healthCheck a w n = (Returned b, evs, n)
    ∧ (StorageAdapter.cdnEnabled a = true → b = probeSucceeds w).
Proof.
  intros [(this & r & ->)|[(this & r & ->)|(this & r & ->)]]; cbn.
  - destruct (local_healthCheck_run this w n) as (b & evs & ->).
    by eexists _, _.
  - destruct (r2_healthCheck_answer this w n) as (evs & -> & _).
    by eexists _, _.
  - destruct (s3_healthCheck_answer this w n) as (evs & -> & _).
    by eexists _, _.
Qed.

Lemma adapter_purge_returns a w keys n :
  factoryBuilt a →
  ∃ b evs, StorageAdapter.purgeCdnCache a w keys n = (Returned b, evs, n).
Proof.
  intros [(this & r & ->)|[(this & r & ->)|(this & r & ->)]]; cbn.
  - by eexists _, _.
  - destruct (r2_purgeCdnCache_run this w keys n) as (evs & ->).
    by eexists _, _.
  - destruct (s3_purgeCdnCache_run this w keys n) as (evs & ->).
    by eexists _, _.
Qed.

(** X19: when nothing is in flight, [getCdnStatus] does what [getAdapter]
    does.  If [getAdapter] answers an adapter, the status is returned: the
    CDN is reported as enabled exactly for the remote kinds, the provider
    is the kind of that adapter (the kind the environment decides when
    none was cached, the kind of the cached adapter otherwise), and for a
    remote kind [healthy] is whether the bucket probe goes through.  If
    [getAdapter] rejects, [getCdnStatus] rejects with the same error. *)
Theorem cdn_status_reports (w : World) (st : State) :
  quiescent st →
  match getAdapter w st with
  | (Returned a, st1) =>
      ∃ s st',
        getCdnStatus w st = (Returned s, st')
        ∧ provider s = StorageAdapter.type a
        ∧ enabled s = bool_decide (provider s ≠ local)
        ∧ (enabled s = true → healthy s = probeSucceeds w)
        ∧ (instance st = None → expected w = Builds (provider s))
        ∧ (∀ a0, instance st = Some a0 →
             provider s = StorageAdapter.type a0)
  | (Thrown e, st1) => getCdnStatus w st = (Thrown e, st1)
  end.
Proof.
  intros Hq. unfold getCdnStatus.
  destruct (getAdapter w st) as [[a|e] st1] eqn:Hget; [|done].
  destruct (getAdapter_quiescent w st a st1 Hq Hget)
    as (Hbuilt & _ & Hfresh & Hheld).
  destruct (healthCheck_remote a w (allocated st1) Hbuilt)
    as (b & evs & Hrun & Hb).
  unfold runIO, mbind, IO_bind.
  rewrite Hrun. cbn. eexists _, _. split; [reflexivity|]. cbn.
  split_and!; [done|by apply factoryBuilt_cdnEnabled|done..|].
  intros a0 Ha0. by destruct (Hheld a0 Ha0) as [-> _].
Qed.

Lemma cdn_status_reports_witness :
  (∃ s st',
     getCdnStatus (calm r2Env) initial = (Returned s, st')
     ∧ provider s = cloudflare_r2
     ∧ enabled s = true
     ∧ (enabled s = true → healthy s = true))
  ∧ (∃ st1, getCdnStatus (adrift ∅) initial = (Thrown uv_cwd, st1)).
Proof.
  assert (Hq : quiescent initial).
  { split; [reflexivity|]. intros a H. discriminate H. }
  split.
  - destruct (cdn_status_reports (calm r2Env) initial Hq)
      as (s & st' & Hrun & Hprov & Hen & Hh & _).
    exists s, st'. rewrite Hen, Hprov. split_and!; [done..|].
    intros _. apply Hh. by rewrite Hen, Hprov.
  - eexists. exact (cdn_status_reports (adrift ∅) initial Hq).
Defined.

(** X20: when nothing is in flight, a new asset service and the CDN
    service report the same thing.  If [getAdapter] answers an adapter,
    [getStorageInfo] and [getCdnStatus] both answer, with the same kind,
    flag and health, and leave the factory in the same state, and the
    service then holds that adapter; if [getAdapter] rejects, both reject
    with its error and the service holds nothing. *)
Theorem storage_info_agrees_with_cdn_status (w : World) (st : State) :
  quiescent st →
  match getAdapter w st with
  | (Returned a, st1) =>
      ∃ info s st',
        AssetService.getStorageInfo AssetService.new w st
        = (Returned info, {| AssetService.storageAdapter := Some a |}, st')
        ∧ getCdnStatus w st = (Returned s, st')
        ∧ AssetService.info_type info = provider s
        ∧ AssetService.info_cdnEnabled info = enabled s
        ∧ AssetService.info_healthy info = healthy s
        ∧ instance st' = Some a
  | (Thrown e, st1) =>
      AssetService.getStorageInfo AssetService.new w st
      = (Thrown e, AssetService.new, st1)
      ∧ getCdnStatus w st = (Thrown e, st1)
  end.
Proof.
  intros Hq.
  unfold AssetService.getStorageInfo, AssetService.getStorage, getCdnStatus.
  cbn [AssetService.new AssetService.storageAdapter].
  destruct (getAdapter w st) as [[a|e] st1] eqn:Hget; [|done].
  destruct (getAdapter_quiescent w st a st1 Hq Hget)
    as (Hbuilt & Hinst & _).
  destruct (healthCheck_remote a w (allocated st1) Hbuilt)
    as (b & evs & Hrun & _).
  unfold runIO, mbind, IO_bind. rewrite Hrun. cbn.
  eexists _, _, _. split_and!; try reflexivity. by cbn.
Qed.

Lemma storage_info_agrees_with_cdn_status_witness :
  (∃ info s st',
     AssetService.getStorageInfo AssetService.new (calm ∅) initial
     = (Returned info,
        {| AssetService.storageAdapter := Some firstLocal |}, st')
     ∧ getCdnStatus (calm ∅) initial = (Returned s, st')
     ∧ AssetService.info_type info = provider s
     ∧ AssetService.info_cdnEnabled info = enabled s
     ∧ AssetService.info_healthy info = healthy s
     ∧ instance st' = Some firstLocal)
  ∧ (∃ st1,
       AssetService.getStorageInfo AssetService.new (adrift ∅) initial
       = (Thrown uv_cwd, AssetService.new, st1)
       ∧ getCdnStatus (adrift ∅) initial = (Thrown uv_cwd, st1)).
Proof.
  assert (Hq : quiescent initial).
  { split; [reflexivity|]. intros a H. discriminate H. }
  split.
  - exact (storage_info_agrees_with_cdn_status (calm ∅) initial Hq).
  - eexists. exact (storage_info_agrees_with_cdn_status (adrift ∅) initial Hq).
Defined.

(** X21: when nothing is in flight and for a list of keys that is not
    empty, the purge of a new asset service and the purge of the CDN
    service agree.  If [getAdapter] answers an adapter, both answer, the
    one with the boolean that is the [success] of the other, and the keys
    are reported as purged exactly when a CDN is enabled and its purge
    went through; if [getAdapter] rejects, both reject with its error. *)
Theorem asset_purge_agrees_with_cdn_purge (w : World) (st : State)
    (keys : list string) :
  quiescent st →
  keys ≠ [] →
  match getAdapter w st with
  | (Returned a, st1) =>
      ∃ b st' r st'',
        AssetService.purgeCdnCache AssetService.new w st keys
        = (Returned b, {| AssetService.storageAdapter := Some a |}, st')
        ∧ purgeCache w (onlyKeys keys) st = (Returned r, st'')
        ∧ success r = b
        ∧ purgedKeys r
          = (if b && StorageAdapter.cdnEnabled a then keys else [])
        ∧ instance st' = Some a
        ∧ instance st'' = Some a
  | (Thrown e, st1) =>
      AssetService.purgeCdnCache AssetService.new w st keys
      = (Thrown e, AssetService.new, st1)
      ∧ purgeCache w (onlyKeys keys) st = (Thrown e, st1)
  end.
Proof.
  intros Hq Hne.
  unfold AssetService.purgeCdnCache, AssetService.getStorage, purgeCache.
  cbn [AssetService.new AssetService.storageAdapter].
  destruct (getAdapter w st) as [[a|e] st1] eqn:Hget; [|done].
  destruct (getAdapter_quiescent w st a st1 Hq Hget)
    as (Hbuilt & Hinst & _).
  destruct (adapter_purge_returns a w keys (allocated st1) Hbuilt)
    as (b & evs & Hrun).
  unfold purgeCacheWith.
  destruct (StorageAdapter.cdnEnabled a) eqn:Hcdn; cbn [negb].
  - cbn [onlyKeys purgeAll courseId pattern CdnService.keys flagSet JS.truthy].
    destruct keys as [|k ks]; [done|].
    cbn [keysGiven length Nat.ltb Nat.leb from_option id].
    unfold runIO. rewrite execute_run. unfold emit, mbind, IO_bind.
    rewrite Hrun. destruct b; cbn; eexists _, _, _, _;
      (split_and!; [reflexivity|reflexivity|done..]).
  - cbn. eexists _, _, _, _. split_and!; [reflexivity|reflexivity|done..].
Qed.

Lemma asset_purge_agrees_with_cdn_purge_witness :
  (∃ b st' r st'',
     AssetService.purgeCdnCache AssetService.new (calm r2Env) initial ["a"]
     = (Returned b, {| AssetService.storageAdapter := Some r2Adapter |}, st')
     ∧ purgeCache (calm r2Env) (onlyKeys ["a"]) initial = (Returned r, st'')
     ∧ success r = b
     ∧ purgedKeys r
       = (if b && StorageAdapter.cdnEnabled r2Adapter then ["a"] else [])
     ∧ instance st' = Some r2Adapter
     ∧ instance st'' = Some r2Adapter)
  ∧ (∃ st1,
       AssetService.purgeCdnCache AssetService.new (adrift ∅) initial ["a"]
       = (Thrown uv_cwd, AssetService.new, st1)
       ∧ purgeCache (adrift ∅) (onlyKeys ["a"]) initial
         = (Thrown uv_cwd, st1)).
Proof.
  assert (Hq : quiescent initial).
  { split; [reflexivity|]. intros a H. discriminate H. }
  assert (Hne : ["a"] ≠ @nil string) by discriminate.
  split.
  - exact (asset_purge_agrees_with_cdn_purge (calm r2Env) initial ["a"]
             Hq Hne).
  - eexists.
    exact (asset_purge_agrees_with_cdn_purge (adrift ∅) initial ["a"]
             Hq Hne).
Defined.

End StatusFacts.

Section ConstructorFacts.
Import StorageFactory.

Lemma normalize_nonempty p : Path.normalize p ≠ "".
Proof.
  destruct p as [|c0 p0]; [done|]. rewrite normalize_String.
  destruct (JS.join "/" (Path.resolved (String c0 p0))) as [|c body];
    destruct (Path.isAbsolute (String c0 p0)),
             (Path.endsWithSlash (String c0 p0));
    rewrite ?app_String; done.
Qed.

Lemma join_nonempty parts : Path.join parts ≠ "".
Proof.
  unfold Path.join. destruct (filter _ parts); [done|].
  apply normalize_nonempty.
Qed.

Lemma join_default_root dir :
  Path.join [dir; "uploads"; "courses"] = Path.join [dir; "uploads/courses"].
Proof.
  unfold Path.join. rewrite !filter_cons, !filter_nil.
  destruct (decide (dir ≠ "")) as [Hdir|Hdir].
  - rewrite !decide_True by done. reflexivity.
  - apply dec_stable in Hdir as ->. reflexivity.
Qed.

Lemma default_root_below dir :
  Path.inside dir (Path.join [dir; "uploads"; "courses"]) = true
  ∧ Path.resolved (Path.join [dir; "uploads"; "courses"])
    = Path.resolved (dir +:+ "/uploads/courses").
Proof.
  rewrite join_default_root. split.
  - apply join_inside; [|done]. vm_compute. intros H.
    by repeat (apply elem_of_cons in H as [H|H]; [discriminate H|]);
      apply elem_of_nil in H.
  - unfold Path.join. rewrite !filter_cons, !filter_nil.
    destruct (decide (dir ≠ "")) as [Hdir|Hdir].
    + rewrite !decide_True by done.
      apply (proj2 (normalize_denotes _)).
    + apply dec_stable in Hdir as ->. reflexivity.
Qed.

(** X25: the constructor of the local adapter performs nothing and makes
    no object of its own.  When it returns, the root of the adapter is never
    the empty path: it is the directory given when one is given, and
    otherwise [uploads/courses] below the working directory, which could
    then be read.  It throws only when no directory is given and
    [process.cwd()] throws, and then that error. *)
Theorem constructed_root (w : World) (uploadsDir baseUrl : option string)
    (n : nat) :
  match LocalStorageAdapter.new w uploadsDir baseUrl n with
  | (Returned this, evs, n') =>
      evs = [] ∧ n' = n
      ∧ LocalStorageAdapter.uploadsDir this ≠ ""
      ∧ (∀ dir, uploadsDir = Some dir → dir ≠ "" →
           LocalStorageAdapter.uploadsDir this = dir)
      ∧ (JS.truthy uploadsDir = false →
           ∃ dir,
             cwd w = Returned dir
             ∧ Path.inside dir (LocalStorageAdapter.uploadsDir this) = true
             ∧ Path.resolved (LocalStorageAdapter.uploadsDir this)
               = Path.resolved (dir +:+ "/uploads/courses"))
  | (Thrown e, evs, n') =>
      evs = [] ∧ n' = n ∧ JS.truthy uploadsDir = false ∧ cwd w = Thrown e
  end.
Proof.
  unfold LocalStorageAdapter.new, process_cwd. io_unfold.
  destruct uploadsDir as [[|c dir]|]; cbn [JS.truthy].
  - destruct (cwd w) as [dir|e]; cbn; [|done].
    split_and!; [done|done|apply join_nonempty|by intros ? [= <-]|].
    intros _. exists dir. split; [done|apply default_root_below].
  - cbn. split_and!; [done|done|done| |done]. by intros ? [= <-].
  - destruct (cwd w) as [dir|e]; cbn; [|done].
    split_and!; [done|done|apply join_nonempty|done|].
    intros _. exists dir. split; [done|apply default_root_below].
Qed.

End ConstructorFacts.

Section AssetUrlFacts.
Import StorageFactory.


End AssetUrlFacts.
